(** * Aqua compiler back end: symbol resolution and TEAL code generation

    A shallow embedding of [src/code-generator.ts] (class [CodeGenerator]),
    of the symbol resolver (class [SymbolResolution]) and of the early
    [compile]/[genCode] driver, with the properties the specification
    states about them.

    Conventions of the embedding.
    - An AST node is a JavaScript object with optional attributes: every
      attribute that may be absent is an [option]; reading an attribute
      of an absent object is the JavaScript [TypeError].
    - The AST is a tree ("nodes are owned by their parent; the tree is
      acyclic and single-rooted"): a node never occurs under two
      attributes.  The generator mutates nodes in place
      ([controlStatementId], [params.reverse()], [symbols.reverse()]):
      every walk returns the node as it is after the walk.
    - A reference to a node that is kept in a list while the tree is
      mutated (the generator's [functions]) is the path of the node from
      the root.
    - Symbol tables are shared mutable objects that point to their parent:
      they live in a store and are named by their index in it.
    - Exceptions abort the whole compilation: a computation is a function
      from the state to either an error or a value and a state. *)

From stdpp Require Import strings list gmap pretty.

Local Open Scope string_scope.
Local Open Scope list_scope.
Local Open Scope nat_scope.

(** ** Errors *)

Inductive Error : Type :=
  | TypeError             (* property access on [undefined] *)
  | DuplicateDefinition (name : string)   (* "<name> is already declared!" *)
  | UndeclaredName (name : string)        (* "Variable <name> is not declared!" *)
  | NotAnLvalue                           (* "Expected assignee to be an lvalue." *)
  | AssignToConstant (name : string)      (* "Can't set <name> because it is not a variable." *)
  | NoAssignmentTarget                    (* "No symbol or symbols set for assignment statement." *)
  | StackUnderflow
  | UnexpectedStatementType (stmtType : string)
  | UnexpectedNodeType (nodeType : string)
  | ParseError.

Inductive Result (A : Type) : Type :=
  | Ok (a : A)
  | Err (e : Error).
Arguments Ok {A} a.
Arguments Err {A} e.

(** What a template literal prints for an attribute that may be absent. *)
Definition js_str (s : option string) : string :=
  match s with Some s => s | None => "undefined" end.

(** ** Symbols and symbol tables *)

Inductive SymbolType : Type := Variable_ | Constant_.

Module Symbol.
Record t : Type := mk {
  name : string;
  type : SymbolType;
  position : nat;
  isGlobal : bool
}.
End Symbol.

#[global] Instance SymbolType_eq_dec : EqDecision SymbolType.
Proof. solve_decision. Defined.
#[global] Instance Symbol_eq_dec : EqDecision Symbol.t.
Proof. solve_decision. Defined.

(** A symbol table is named by its index in the store of tables. *)
Definition TableRef : Type := nat.

(** Modelled from the spec: the class [SymbolTable] of [symbol-table.ts],
    which is not among the sources.  "A mapping name -> Symbol with
    insertion-time slot assignment, plus an optional parent pointer." *)
Record SymbolTable : Type := mkSymbolTable {
  entries : gmap string Symbol.t;
  parent : option TableRef
}.

Definition TableStore : Type := list SymbolTable.

Module SymbolTable.

(** Modelled from the spec: [new SymbolTable(0, parent?)]; the new table
    is appended to the store and named by its index. *)
Definition new (parent : option TableRef) (store : TableStore)
  : TableRef * TableStore :=
  (length store, store ++ [mkSymbolTable ∅ parent]).

(** Modelled from the spec: "getNumSymbols() -> integer. Current count of
    locally defined symbols." *)
Definition getNumSymbols (store : TableStore) (t : TableRef) : Result nat :=
  match store !! t with
  | Some tbl => Ok (size (entries tbl))
  | None => Err TypeError
  end.

(** Modelled from the spec: "isDefinedLocally(name) -> bool. True iff
    present in this table, ignoring parents." *)
Definition isDefinedLocally (store : TableStore) (t : TableRef)
    (name : string) : bool :=
  match store !! t with
  | Some tbl => bool_decide (is_Some (entries tbl !! name))
  | None => false
  end.

(** Modelled from the spec: "define(name, kind) -> Symbol. Fails with
    DuplicateDefinition if name already exists locally. On success,
    assigns position = current_count + 1, marks isGlobal = (parent is
    none), stores, and returns the record." *)
Definition define (store : TableStore) (t : TableRef) (name : string)
    (kind : SymbolType) : Result (Symbol.t * TableStore) :=
  match store !! t with
  | None => Err TypeError
  | Some tbl =>
      match entries tbl !! name with
      | Some _ => Err (DuplicateDefinition name)
      | None =>
          let sym := Symbol.mk name kind (size (entries tbl) + 1)
                       (bool_decide (parent tbl = None)) in
          Ok (sym, <[t := mkSymbolTable (<[name := sym]> (entries tbl))
                                        (parent tbl)]> store)
      end
  end.

(** The walk of the parent chain, at most [fuel] tables long. *)
Fixpoint get_chain (fuel : nat) (store : TableStore) (t : TableRef)
    (name : string) : option Symbol.t :=
  match fuel with
  | 0 => None
  | S fuel' =>
      match store !! t with
      | None => None
      | Some tbl =>
          match entries tbl !! name with
          | Some sym => Some sym
          | None =>
              match parent tbl with
              | Some p => get_chain fuel' store p name
              | None => None
              end
          end
      end
  end.

(** Modelled from the spec: "get(name) -> Symbol?. Returns the binding
    from the nearest enclosing table containing name; none if
    unreachable."  Scopes form a tree ("no cycles, no re-parenting"), so
    a parent chain is never longer than the store. *)
Definition get (store : TableStore) (t : TableRef) (name : string)
  : option Symbol.t :=
  get_chain (length store) store t name.

End SymbolTable.

(** ** AST nodes

    [ast.ts] is not among the sources: the attributes are the ones the
    resolver and the generator read and write, with the types the
    specification gives them ([value] is the text of the literal). *)

#[local] Unset Elimination Schemes.
Inductive ASTNode : Type := mkASTNode {
  nodeType : string;
  children : option (list ASTNode);
  name : option string;
  value : option string;
  opcode : option string;
  args : option (list string);
  numItemsAdded : option nat;
  numItemsRemoved : option nat;
  params : option (list string);
  body : option ASTNode;
  initializer : option ASTNode;
  assignee : option ASTNode;
  ifBlock : option ASTNode;
  elseBlock : option ASTNode;
  functionArgs : option (list ASTNode);
  scope : option TableRef;
  symbol : option Symbol.t;
  symbols : option (list Symbol.t);
  nodeControlStatementId : option nat   (* the node's [controlStatementId] *)
}.
#[local] Set Elimination Schemes.

(** In-place updates of one attribute of a node. *)

Definition set_children (v : option (list ASTNode)) (n : ASTNode) : ASTNode :=
  mkASTNode
    (nodeType n) v (name n) (value n) (opcode n) (args n) (numItemsAdded n)
    (numItemsRemoved n) (params n) (body n) (initializer n) (assignee n)
    (ifBlock n) (elseBlock n) (functionArgs n) (scope n) (symbol n)
    (symbols n) (nodeControlStatementId n).

Definition set_params (v : option (list string)) (n : ASTNode) : ASTNode :=
  mkASTNode
    (nodeType n) (children n) (name n) (value n) (opcode n) (args n)
    (numItemsAdded n) (numItemsRemoved n) v (body n) (initializer n)
    (assignee n) (ifBlock n) (elseBlock n) (functionArgs n) (scope n)
    (symbol n) (symbols n) (nodeControlStatementId n).

Definition set_body (v : option ASTNode) (n : ASTNode) : ASTNode :=
  mkASTNode
    (nodeType n) (children n) (name n) (value n) (opcode n) (args n)
    (numItemsAdded n) (numItemsRemoved n) (params n) v (initializer n)
    (assignee n) (ifBlock n) (elseBlock n) (functionArgs n) (scope n)
    (symbol n) (symbols n) (nodeControlStatementId n).

Definition set_initializer (v : option ASTNode) (n : ASTNode) : ASTNode :=
  mkASTNode
    (nodeType n) (children n) (name n) (value n) (opcode n) (args n)
    (numItemsAdded n) (numItemsRemoved n) (params n) (body n) v (assignee n)
    (ifBlock n) (elseBlock n) (functionArgs n) (scope n) (symbol n)
    (symbols n) (nodeControlStatementId n).

Definition set_ifBlock (v : option ASTNode) (n : ASTNode) : ASTNode :=
  mkASTNode
    (nodeType n) (children n) (name n) (value n) (opcode n) (args n)
    (numItemsAdded n) (numItemsRemoved n) (params n) (body n)
    (initializer n) (assignee n) v (elseBlock n) (functionArgs n) (scope n)
    (symbol n) (symbols n) (nodeControlStatementId n).

Definition set_elseBlock (v : option ASTNode) (n : ASTNode) : ASTNode :=
  mkASTNode
    (nodeType n) (children n) (name n) (value n) (opcode n) (args n)
    (numItemsAdded n) (numItemsRemoved n) (params n) (body n)
    (initializer n) (assignee n) (ifBlock n) v (functionArgs n) (scope n)
    (symbol n) (symbols n) (nodeControlStatementId n).

Definition set_functionArgs (v : option (list ASTNode)) (n : ASTNode) : ASTNode :=
  mkASTNode
    (nodeType n) (children n) (name n) (value n) (opcode n) (args n)
    (numItemsAdded n) (numItemsRemoved n) (params n) (body n)
    (initializer n) (assignee n) (ifBlock n) (elseBlock n) v (scope n)
    (symbol n) (symbols n) (nodeControlStatementId n).

Definition set_scope (v : option TableRef) (n : ASTNode) : ASTNode :=
  mkASTNode
    (nodeType n) (children n) (name n) (value n) (opcode n) (args n)
    (numItemsAdded n) (numItemsRemoved n) (params n) (body n)
    (initializer n) (assignee n) (ifBlock n) (elseBlock n) (functionArgs n)
    v (symbol n) (symbols n) (nodeControlStatementId n).

Definition set_symbol (v : option Symbol.t) (n : ASTNode) : ASTNode :=
  mkASTNode
    (nodeType n) (children n) (name n) (value n) (opcode n) (args n)
    (numItemsAdded n) (numItemsRemoved n) (params n) (body n)
    (initializer n) (assignee n) (ifBlock n) (elseBlock n) (functionArgs n)
    (scope n) v (symbols n) (nodeControlStatementId n).

Definition set_symbols (v : option (list Symbol.t)) (n : ASTNode) : ASTNode :=
  mkASTNode
    (nodeType n) (children n) (name n) (value n) (opcode n) (args n)
    (numItemsAdded n) (numItemsRemoved n) (params n) (body n)
    (initializer n) (assignee n) (ifBlock n) (elseBlock n) (functionArgs n)
    (scope n) (symbol n) v (nodeControlStatementId n).

Definition set_nodeControlStatementId (v : option nat) (n : ASTNode) : ASTNode :=
  mkASTNode
    (nodeType n) (children n) (name n) (value n) (opcode n) (args n)
    (numItemsAdded n) (numItemsRemoved n) (params n) (body n)
    (initializer n) (assignee n) (ifBlock n) (elseBlock n) (functionArgs n)
    (scope n) (symbol n) (symbols n) v.

(** ** The state-and-exception monad of the two passes *)

Definition M (S A : Type) : Type := S → Result (A * S).

Definition ret {S A} (a : A) : M S A := λ s, Ok (a, s).

Definition bind {S A B} (m : M S A) (k : A → M S B) : M S B :=
  λ s, match m s with
       | Ok (a, s') => k a s'
       | Err e => Err e
       end.

Definition throw {S A} (e : Error) : M S A := λ _, Err e.

Definition gets {S A} (f : S → A) : M S A := λ s, Ok (f s, s).

Definition modify {S} (f : S → S) : M S unit := λ s, Ok (tt, f s).

Notation "'let*' x ':=' m 'in' k" := (bind m (λ x, k))
  (at level 10, x pattern, m at level 100, k at level 200,
   format "'[v' 'let*'  x  ':='  m  'in' '/' k ']'").
Notation "m ;; k" := (bind m (λ _, k))
  (at level 100, k at level 200, right associativity).

(** [for (const x of l) f(x)], returning the elements as [f] leaves them. *)
Definition forEach {S A} (f : A → M S A) : list A → M S (list A) :=
  fix loop (l : list A) : M S (list A) :=
    match l with
    | [] => ret []
    | x :: l' =>
        let* x' := f x in
        let* l'' := loop l' in
        ret (x' :: l'')
    end.

(** ** The code emitter *)

(** Modelled from the spec: the lines a [CodeEmitter] of [code-emitter.ts]
    (not among the sources) appends: "Instructions: <opcode>[ <operand>...]
    optionally followed by a comment", "Labels: <label>:", "Section
    separators: a blank line, optionally a comment line".  How a comment
    is printed is left to the emitter. *)
Inductive Line : Type :=
  | Instruction (text : string) (comment : option string)
  | Label (name : string) (comment : option string)
  | SectionBreak (title : option string).

#[global] Instance Line_eq_dec : EqDecision Line.
Proof. solve_decision. Defined.

(** Modelled from the spec: the state of a [CodeEmitter], its lines in
    insertion order and the "logical compute-stack depth". *)
Record CodeEmitter : Type := mkCodeEmitter {
  output : list Line;
  stackDepth : nat
}.

Module CodeEmitter.

Definition empty : CodeEmitter := mkCodeEmitter [] 0.

(** Modelled from the spec: "add(text, pushed, popped, comment?) - append
    one instruction line with an optional inline comment. Also update the
    logical compute-stack depth: depth += pushed - popped (after
    validating depth >= popped, else StackUnderflow)". *)
Definition add (text : string) (pushed popped : nat)
    (comment : option string) (e : CodeEmitter) : Result CodeEmitter :=
  if decide (popped ≤ stackDepth e)
  then Ok (mkCodeEmitter (output e ++ [Instruction text comment])
                         (stackDepth e - popped + pushed))
  else Err StackUnderflow.

(** Modelled from the spec: "label(name, comment?) - append a label
    definition line of the form name: optionally followed by a comment". *)
Definition label (name : string) (comment : option string)
    (e : CodeEmitter) : CodeEmitter :=
  mkCodeEmitter (output e ++ [Label name comment]) (stackDepth e).

(** Modelled from the spec: "section(title?) - append a blank separator
    line and/or a section header comment; purely cosmetic". *)
Definition section (title : option string) (e : CodeEmitter) : CodeEmitter :=
  mkCodeEmitter (output e ++ [SectionBreak title]) (stackDepth e).

(** Modelled from the spec: "resetStack() - set logical depth to 0". *)
Definition resetStack (e : CodeEmitter) : CodeEmitter :=
  mkCodeEmitter (output e) 0.

(** Modelled from the spec: "popAll() - emit as many single-item pop
    instructions as needed to drain the current logical depth to 0". *)
Definition popAll (e : CodeEmitter) : CodeEmitter :=
  mkCodeEmitter (output e ++ replicate (stackDepth e) (Instruction "pop" None))
                0.

End CodeEmitter.

(** ** The code generator *)

(** A node of the tree under the root, named by the indices to follow
    through the [children] lists. *)
Definition NodeRef : Type := list nat.

(** The private members of the class [CodeGenerator]. *)
Record CodeGenerator : Type := mkCodeGenerator {
  controlStatementId : nat;
  functions : list NodeRef;
  inFunction : bool;
  curFunction : option ASTNode;
  codeEmitter : CodeEmitter
}.

(** [new CodeGenerator(codeEmitter)] *)
Definition newCodeGenerator (e : CodeEmitter) : CodeGenerator :=
  mkCodeGenerator 0 [] false None e.

Definition Gen (A : Type) : Type := M CodeGenerator A.

Definition set_controlStatementId (v : nat) (g : CodeGenerator) : CodeGenerator :=
  mkCodeGenerator v (functions g) (inFunction g) (curFunction g) (codeEmitter g).
Definition set_functions (v : list NodeRef) (g : CodeGenerator) : CodeGenerator :=
  mkCodeGenerator (controlStatementId g) v (inFunction g) (curFunction g)
                  (codeEmitter g).
Definition set_inFunction (v : bool) (g : CodeGenerator) : CodeGenerator :=
  mkCodeGenerator (controlStatementId g) (functions g) v (curFunction g)
                  (codeEmitter g).
Definition set_curFunction (v : option ASTNode) (g : CodeGenerator) : CodeGenerator :=
  mkCodeGenerator (controlStatementId g) (functions g) (inFunction g) v
                  (codeEmitter g).
Definition set_codeEmitter (v : CodeEmitter) (g : CodeGenerator) : CodeGenerator :=
  mkCodeGenerator (controlStatementId g) (functions g) (inFunction g)
                  (curFunction g) v.

(** The calls [this.codeEmitter.xxx(...)]. *)
Definition add (text : string) (pushed popped : nat) (comment : option string)
  : Gen unit :=
  λ g, match CodeEmitter.add text pushed popped comment (codeEmitter g) with
       | Ok e => Ok (tt, set_codeEmitter e g)
       | Err err => Err err
       end.
Definition label (name : string) (comment : option string) : Gen unit :=
  modify (λ g, set_codeEmitter (CodeEmitter.label name comment (codeEmitter g)) g).
Definition section (title : option string) : Gen unit :=
  modify (λ g, set_codeEmitter (CodeEmitter.section title (codeEmitter g)) g).
Definition resetStack : Gen unit :=
  modify (λ g, set_codeEmitter (CodeEmitter.resetStack (codeEmitter g)) g).
Definition popAll : Gen unit :=
  modify (λ g, set_codeEmitter (CodeEmitter.popAll (codeEmitter g)) g).

(** What a template literal prints for a number that may be absent. *)
Definition js_num (n : option nat) : string :=
  match n with Some n => pretty n | None => "undefined" end.

(** [l.join(sep)] *)
Definition join (sep : string) (l : list string) : string := String.concat sep l.

(** [s.substring(start, end)]: both indices are clamped to the length and
    swapped when start is the larger one. *)
Definition js_substring (s : string) (i j : nat) : string :=
  let i := i `min` String.length s in
  let j := j `min` String.length s in
  String.substring (i `min` j) ((i `max` j) - (i `min` j)) s.

(** Removes quotes from a string: [input.substring(1, input.length-1)];
    for the empty string the second index is -1, clamped to 0. *)
Definition unquote (input : string) : string :=
  js_substring input 1 (String.length input - 1).

Definition dquote : string := String (Ascii.ascii_of_nat 34) EmptyString.

(** The walks a hook makes into the named substructures of the node it
    visits.  They are taken from the node as the visit found it: no hook
    replaces a substructure of its own node, and the tree has no sharing. *)
Record SubWalks : Type := mkSubWalks {
  (** [if (node.initializer) this.internalGenerateCode(node.initializer)] *)
  walk_initializer : Gen (option ASTNode);
  (** [this.internalGenerateCode(node.ifBlock!)] *)
  walk_ifBlock : Gen (option ASTNode);
  (** [if (node.elseBlock) this.internalGenerateCode(node.elseBlock)] *)
  walk_elseBlock : Gen (option ASTNode);
  (** [this.internalGenerateCode(node.body!)] *)
  walk_body : Gen (option ASTNode);
  (** [for (const arg of node.functionArgs || []) this.internalGenerateCode(arg)] *)
  walk_functionArgs : Gen (option (list ASTNode))
}.

(** [walk(x)] where [x] may be [undefined]: the walk reads an attribute of
    [x] first. *)
Definition walkRequired {S} (rec : ASTNode → M S ASTNode) (x : option ASTNode)
  : M S (option ASTNode) :=
  match x with
  | Some n => let* n' := rec n in ret (Some n')
  | None => throw TypeError
  end.

(** [if (x) walk(x)] *)
Definition walkOptional {S} (rec : ASTNode → M S ASTNode) (x : option ASTNode)
  : M S (option ASTNode) :=
  match x with
  | Some n => let* n' := rec n in ret (Some n')
  | None => ret None
  end.

(** [for (const x of l || []) walk(x)], also the loop over [node.children]
    guarded by [if (node.children)]. *)
Definition walkList {S} (rec : ASTNode → M S ASTNode) (l : option (list ASTNode))
  : M S (option (list ASTNode)) :=
  match l with
  | Some l => let* l' := forEach rec l in ret (Some l')
  | None => ret None
  end.

Definition subWalks (rec : ASTNode → Gen ASTNode) (node : ASTNode) : SubWalks :=
  {| walk_initializer := walkOptional rec (initializer node);
     walk_ifBlock := walkRequired rec (ifBlock node);
     walk_elseBlock := walkOptional rec (elseBlock node);
     walk_body := walkRequired rec (body node);
     walk_functionArgs := walkList rec (functionArgs node) |}.

(** [type NodeVisitorFn = (node: ASTNode) => void], returning the node as
    the hook leaves it. *)
Definition NodeVisitorFn : Type := ASTNode → Gen ASTNode.

Record INodeVisitor : Type := mkVisitor {
  pre : option NodeVisitorFn;
  post : option NodeVisitorFn
}.

Definition BuiltinFunctionGenFn : Type := ASTNode → Gen ASTNode.

(** The store sequence of the assignment visitor for one symbol. *)
Definition storeSymbol (s : Symbol.t) : Gen unit :=
  if negb (Symbol.isGlobal s) then
    add ("int " +:+ pretty (Symbol.position s)) 1 0 None ;;
    add "load 0" 1 0 None ;;
    add "+" 2 1 None ;;
    add "dig 1" 1 0 None ;;
    add "stores" 0 2 None
  else
    add "dup" 1 0 None ;;
    add ("store " +:+ pretty (Symbol.position s)) 0 1 None.

(** [for (const symbol of l) { ... }] of the assignment visitor *)
Fixpoint storeSymbols (l : list Symbol.t) : Gen unit :=
  match l with
  | [] => ret tt
  | s :: l' => storeSymbol s ;; storeSymbols l'
  end.

(** Most builtins start by generating the code of their arguments. *)
Definition genArgs (sub : SubWalks) (node : ASTNode) : Gen ASTNode :=
  let* a := walk_functionArgs sub in
  ret (set_functionArgs a node).

(** What the lookup [this.builtins[name]] finds when [name] is no entry of
    the table: the table is an object literal, so the lookup goes on to
    [Object.prototype], and the member it finds there is taken for a
    builtin and called as [builtin(node)], with no [this].
    [toString] then returns a string and [constructor], which is [Object],
    returns the node: neither touches the generator.  [valueOf],
    [toLocaleString], [hasOwnProperty], [isPrototypeOf],
    [propertyIsEnumerable] and the four [__defineGetter__],
    [__defineSetter__], [__lookupGetter__], [__lookupSetter__] convert
    their missing [this] to an object, which throws a TypeError;
    [__proto__] is the prototype object itself, and calling it throws a
    TypeError. *)
Definition inheritedMember (fname : string) : option BuiltinFunctionGenFn :=
  if String.eqb fname "toString" then Some (λ node, ret node)
  else if String.eqb fname "constructor" then Some (λ node, ret node)
  else if String.eqb fname "valueOf" then Some (λ node, throw TypeError)
  else if String.eqb fname "toLocaleString" then Some (λ node, throw TypeError)
  else if String.eqb fname "hasOwnProperty" then Some (λ node, throw TypeError)
  else if String.eqb fname "isPrototypeOf" then Some (λ node, throw TypeError)
  else if String.eqb fname "propertyIsEnumerable" then
    Some (λ node, throw TypeError)
  else if String.eqb fname "__defineGetter__" then Some (λ node, throw TypeError)
  else if String.eqb fname "__defineSetter__" then Some (λ node, throw TypeError)
  else if String.eqb fname "__lookupGetter__" then Some (λ node, throw TypeError)
  else if String.eqb fname "__lookupSetter__" then Some (λ node, throw TypeError)
  else if String.eqb fname "__proto__" then Some (λ node, throw TypeError)
  else None.

(** [private builtins: IBuiltinsLookupMap], as the lookup
    [this.builtins[name]] sees it: the twelve entries of the table, then
    the members inherited from [Object.prototype]. *)
Definition builtins (sub : SubWalks) (fname : string)
  : option BuiltinFunctionGenFn :=
  if String.eqb fname "appGlobalPut" then Some (λ node,
    let* node := genArgs sub node in
    add "app_global_put" 0 2 None ;;
    add "int 0" 1 0 None ;;
    ret node)
  else if String.eqb fname "appGlobalGet" then Some (λ node,
    let* node := genArgs sub node in
    add "app_global_get" 1 1 None ;;
    ret node)
  else if String.eqb fname "appGlobalDel" then Some (λ node,
    let* node := genArgs sub node in
    add "app_global_del" 0 1 None ;;
    add "int 0" 1 0 None ;;
    ret node)
  else if String.eqb fname "appLocalPut" then Some (λ node,
    let* node := genArgs sub node in
    add "app_local_put" 0 2 None ;;
    add "int 0" 1 0 None ;;
    ret node)
  else if String.eqb fname "appLocalGet" then Some (λ node,
    let* node := genArgs sub node in
    add "app_local_get" 1 2 None ;;
    ret node)
  else if String.eqb fname "appLocalDel" then Some (λ node,
    let* node := genArgs sub node in
    add "app_local_del" 0 2 None ;;
    add "int 0" 1 0 None ;;
    ret node)
  else if String.eqb fname "btoi" then Some (λ node,
    let* node := genArgs sub node in
    add "btoi" 1 1 None ;;
    ret node)
  else if String.eqb fname "itob" then Some (λ node,
    let* node := genArgs sub node in
    add "itob" 1 1 None ;;
    ret node)
  else if String.eqb fname "exit" then Some (λ node,
    let* node := genArgs sub node in
    add "return" 0 0 None ;;
    ret node)
  else if String.eqb fname "itxn_begin" then Some (λ node,
    add "itxn_begin" 0 0 None ;;
    add "int 0" 1 0 None ;;
    ret node)
  else if String.eqb fname "itxn_field" then Some (λ node,
    match functionArgs node with
    | Some (arg0 :: _) =>
        match value arg0 with
        | Some v =>
            add ("itxn_field " +:+ unquote v) 0 1 None ;;
            ret node
        | None => throw TypeError
        end
    | _ => throw TypeError
    end)
  else if String.eqb fname "itxn_submit" then Some (λ node,
    add "itxn_submit" 0 0 None ;;
    add "int 0" 1 0 None ;;
    ret node)
  else inheritedMember fname.

(** [visitors: INodeVisitorMap], "code to be invoked to visit each node in
    the AST".  There is no entry for [function-declaration], [block] or
    [statement]. *)
Definition visitors (sub : SubWalks) (nodeType : string) : option INodeVisitor :=
  if String.eqb nodeType "number" then Some
    {| pre := None;
       post := Some (λ node,
         add ("int " +:+ js_str (value node)) 1 0 None ;;
         ret node) |}
  else if String.eqb nodeType "string-literal" then Some
    {| pre := None;
       post := Some (λ node,
         add ("byte " +:+ dquote +:+ js_str (value node) +:+ dquote) 1 0 None ;;
         ret node) |}
  else if String.eqb nodeType "operation" then Some
    {| pre := None;
       post := Some (λ node,
         let output :=
           match args node with
           | Some a => js_str (opcode node) +:+ " " +:+ join " " a
           | None => js_str (opcode node)
           end in
         add output
             (match numItemsAdded node with Some n => n | None => 1 end)
             (match numItemsRemoved node with Some n => n | None => 2 end)
             None ;;
         ret node) |}
  else if String.eqb nodeType "expr-statement" then Some
    {| pre := Some (λ node, resetStack ;; ret node);
       post := Some (λ node, popAll ;; ret node) |}
  else if String.eqb nodeType "return-statement" then Some
    {| pre := Some (λ node, resetStack ;; ret node);
       post := Some (λ node,
         let* inF := gets inFunction in
         if inF : bool then
           let* cur := gets curFunction in
           match cur with
           | Some f =>
               add ("b " +:+ js_str (name f) +:+ "-cleanup") 0 0 None ;;
               ret node
           | None => throw TypeError
           end
         else
           add "return" 0 0 None ;;
           ret node) |}
  else if String.eqb nodeType "declare-variable" then Some
    {| pre := Some (λ node, resetStack ;; ret node);
       post := Some (λ node,
         let* i := walk_initializer sub in
         popAll ;;
         ret (set_initializer i node)) |}
  else if String.eqb nodeType "access-variable" then Some
    {| pre := None;
       post := Some (λ node,
         match symbol node with
         | None => throw TypeError
         | Some s =>
             if Symbol.isGlobal s then
               add ("load " +:+ pretty (Symbol.position s)) 1 0 None ;;
               ret node
             else
               add "load 0" 1 0 None ;;
               add ("int " +:+ pretty (Symbol.position s)) 1 0 None ;;
               add "+" 2 1 None ;;
               add "loads" 1 1 None ;;
               ret node
         end) |}
  else if String.eqb nodeType "assignment-statement" then Some
    {| pre := None;
       post := Some (λ node,
         match symbol node with
         | Some s => storeSymbol s ;; ret node
         | None =>
             match symbols node with
             | Some l =>
                 (* [node.symbols.reverse()] reverses the array in place *)
                 let node := set_symbols (Some (rev l)) node in
                 storeSymbols (rev l) ;;
                 ret node
             | None => throw NoAssignmentTarget
             end
         end) |}
  else if String.eqb nodeType "if-statement" then Some
    {| pre := None;
       post := Some (λ node,
         modify (λ g, set_controlStatementId (controlStatementId g + 1) g) ;;
         let* k := gets controlStatementId in
         let node := set_nodeControlStatementId (Some k) node in
         add ("bz else_" +:+ js_num (nodeControlStatementId node)) 0 1 None ;;
         let* b := walk_ifBlock sub in
         let node := set_ifBlock b node in
         add ("b end_" +:+ js_num (nodeControlStatementId node)) 0 0 None ;;
         label ("else_" +:+ js_num (nodeControlStatementId node)) None ;;
         let* b := walk_elseBlock sub in
         let node := set_elseBlock b node in
         label ("end_" +:+ js_num (nodeControlStatementId node)) None ;;
         ret node) |}
  else if String.eqb nodeType "while-statement" then Some
    {| pre := Some (λ node,
         modify (λ g, set_controlStatementId (controlStatementId g + 1) g) ;;
         let* k := gets controlStatementId in
         let node := set_nodeControlStatementId (Some k) node in
         label ("loop_start_" +:+ js_num (nodeControlStatementId node)) None ;;
         ret node);
       post := Some (λ node,
         match children node with
         | None => throw TypeError
         | Some c =>
             add ("bz loop_end_" +:+ js_num (nodeControlStatementId node)) 0
                 (if decide (0 < length c) then 1 else 0) None ;;
             let* b := walk_body sub in
             let node := set_body b node in
             add ("b loop_start_" +:+ js_num (nodeControlStatementId node)) 0 0
                 None ;;
             label ("loop_end_" +:+ js_num (nodeControlStatementId node)) None ;;
             ret node
         end) |}
  else if String.eqb nodeType "function-call" then Some
    {| pre := Some (λ node,
         match builtins sub (js_str (name node)) with
         | None =>
             (* not a builtin: the arguments are generated immediately *)
             let* a := walk_functionArgs sub in
             ret (set_functionArgs a node)
         | Some _ => ret node
         end);
       post := Some (λ node,
         match builtins sub (js_str (name node)) with
         | Some builtin => builtin node
         | None =>
             add ("callsub " +:+ js_str (name node)) 1
                 (match functionArgs node with
                  | Some a => length a
                  | None => 0
                  end) None ;;
             ret node
         end) |}
  else None.

(** [visitor.pre(node)] when the visitor and the hook exist. *)
Definition runHook (h : option NodeVisitorFn) (node : ASTNode) : Gen ASTNode :=
  match h with
  | Some f => f node
  | None => ret node
  end.

(** [private internalGenerateCode(node: ASTNode): void] *)
Fixpoint internalGenerateCode (node : ASTNode) : Gen ASTNode :=
  let visitor := visitors (subWalks internalGenerateCode node) (nodeType node) in
  let* node1 := runHook (visitor ≫= pre) node in
  let* c := walkList internalGenerateCode (children node) in
  let node2 := set_children c node1 in
  runHook (visitor ≫= post) node2.

(** [private collectFunctions(node: ASTNode): void], with the list
    [this.functions] it pushes to passed along; [ref] names [node]. *)
Fixpoint collectFunctions (node : ASTNode) (ref : NodeRef)
    (functions : list NodeRef) : list NodeRef :=
  let functions :=
    match children node with
    | Some c =>
        (fix loop (l : list ASTNode) (i : nat) (functions : list NodeRef)
           : list NodeRef :=
           match l with
           | [] => functions
           | child :: l' =>
               loop l' (S i) (collectFunctions child (ref ++ [i]) functions)
           end) c 0 functions
    | None => functions
    end in
  if String.eqb (nodeType node) "function-declaration"
  then functions ++ [ref]
  else functions.

(** The node a reference names. *)
Fixpoint lookupNode (root : ASTNode) (ref : NodeRef) : option ASTNode :=
  match ref with
  | [] => Some root
  | i :: ref' =>
      c ← children root;
      child ← c !! i;
      lookupNode child ref'
  end.

(** The tree after the node a reference names has been mutated into [new]. *)
Fixpoint updateNode (root : ASTNode) (ref : NodeRef) (new : ASTNode) : ASTNode :=
  match ref with
  | [] => new
  | i :: ref' =>
      match children root with
      | Some c =>
          match c !! i with
          | Some child =>
              set_children (Some (<[i := updateNode child ref' new]> c)) root
          | None => root
          end
      | None => root
      end
  end.

Section Generator.

(** [import { MAX_SCRATCH } from "./config"]; the configuration is not
    among the sources. *)
Variable MAX_SCRATCH : nat.

(** The symbol tables the resolver built, which the generator only reads. *)
Variable tables : TableStore.

(** [for (const param of ...) { ... }] of the function prologue *)
Fixpoint storeParams (scope : TableRef) (l : list string) : Gen unit :=
  match l with
  | [] => ret tt
  | param :: l' =>
      match SymbolTable.get tables scope param with
      | None => throw TypeError
      | Some symbol =>
          add ("int " +:+ pretty (Symbol.position symbol)) 1 0 None ;;
          add "load 0" 1 0 None ;;
          add "+" 2 1 None ;;
          add "stores" 0 2
              (Some ("Stores " +:+ dquote +:+ param +:+ dquote +:+ ".")) ;;
          storeParams scope l'
      end
  end.

(** [private generateFunctionCode(functionNode: ASTNode)] *)
Definition generateFunctionCode (functionNode : ASTNode) : Gen ASTNode :=
  modify (set_curFunction (Some functionNode)) ;;
  label (js_str (name functionNode)) None ;;
  section (Some "Function setup.") ;;
  add "load 0" 1 0
      (Some ("Take copy of current stack_pointer on stack so that we can save it as the "
             +:+ dquote +:+ "previous stack pointer" +:+ dquote
             +:+ " in the new stack frame.")) ;;
  section (Some "Allocate stack frame for the function being called and update the stack_pointer.") ;;
  section (Some "stack_pointer = stack_pointer - (num_locals+1)") ;;
  add "load 0" 1 0 (Some "stack_pointer") ;;
  match scope functionNode with
  | None => throw TypeError
  | Some sc =>
      match SymbolTable.getNumSymbols tables sc with
      | Err e => throw e
      | Ok n =>
          add ("int " +:+ pretty (n + 1)) 1 0 (Some "num_locals+1") ;;
          add "-" 2 1 (Some "stack_pointer - (num_locals+1)") ;;
          add "store 0" 0 1
              (Some "stack_pointer = stack_pointer - (num_locals+1)") ;;
          add "load 0" 1 0
              (Some "Loads the stack_pointer for the new stack frame, this is where we'll store the previous stack pointer.") ;;
          add "swap" 2 2
              (Some "The values on the compute stack are in the wrong order, swap so they are in the right order.") ;;
          add "stores" 0 2
              (Some "Stores previous stack pointer at the first position in the new stack frame.") ;;
          section None ;;
          let* functionNode :=
            match params functionNode with
            | Some p =>
                section (Some "Setup arguments.") ;;
                (* [functionNode.params.reverse()] reverses in place *)
                let functionNode := set_params (Some (rev p)) functionNode in
                storeParams sc (rev p) ;;
                ret functionNode
            | None => ret functionNode
            end in
          section (Some "Function body.") ;;
          let* b := walkRequired internalGenerateCode (body functionNode) in
          let functionNode := set_body b functionNode in
          label (js_str (name functionNode) +:+ "-cleanup")
                (Some "Function cleanup. Restores the previous stack frame") ;;
          add "load 0" 1 0 (Some "Loads current stack_pointer") ;;
          add "loads" 1 1 (Some "Loads previous_stack_pointer") ;;
          add "store 0" 0 1 (Some "stack_pointer = previous_stack_pointer") ;;
          add "retsub" 0 0 (Some "Catch all return.") ;;
          ret functionNode
      end
  end.

(** [for (const functionNode of this.functions) this.generateFunctionCode(functionNode)]:
    each function node is mutated where it sits in the tree. *)
Fixpoint generateFunctions (refs : list NodeRef) (ast : ASTNode) : Gen ASTNode :=
  match refs with
  | [] => ret ast
  | ref :: refs' =>
      match lookupNode ast ref with
      | None => throw TypeError
      | Some functionNode =>
          let* functionNode' := generateFunctionCode functionNode in
          generateFunctions refs' (updateNode ast ref functionNode')
      end
  end.

(** [generateCode(ast: ASTNode): void] *)
Definition generateCode (ast : ASTNode) : Gen ASTNode :=
  modify (set_inFunction false) ;;
  modify (set_curFunction None) ;;
  modify (set_functions []) ;;
  modify (λ g, set_functions (collectFunctions ast [] (functions g)) g) ;;
  let* fs := gets functions in
  (if decide (0 < length fs) then
     section (Some "Function data stack setup.") ;;
     add ("int " +:+ pretty MAX_SCRATCH) 1 0 (Some "Initial stack pointer.") ;;
     add "store 0" 0 1 (Some "Set stack_pointer") ;;
     section None
   else ret tt) ;;
  let* ast := internalGenerateCode ast in
  let* fs := gets functions in
  if decide (0 < length fs) then
    add "b program_end" 0 0 None ;;
    modify (set_inFunction true) ;;
    let* ast := generateFunctions fs ast in
    section None ;;
    label "program_end" None ;;
    ret ast
  else ret ast.

End Generator.

(** ** The symbol resolver *)

Definition Res (A : Type) : Type := M TableStore A.

(** The walks a handler makes into the named substructures of its node,
    each with the symbol table it passes on. *)
Record ResolveWalks : Type := mkResolveWalks {
  (** [this.internalResolveSymbols(node.body, t)] *)
  resolve_body : TableRef → Res (option ASTNode);
  (** [this.internalResolveSymbols(node.ifBlock, t)] *)
  resolve_ifBlock : TableRef → Res (option ASTNode);
  (** [if (node.elseBlock) this.internalResolveSymbols(node.elseBlock, t)] *)
  resolve_elseBlock : TableRef → Res (option ASTNode)
}.

(** [type NodeHandler = (node: any, symbolTable: ISymbolTable) => void] *)
Definition NodeHandler : Type := ASTNode → TableRef → Res ASTNode.

(** [new SymbolTable(0, parent)] *)
Definition newSymbolTable (parent : option TableRef) : Res TableRef :=
  λ store, Ok (SymbolTable.new parent store).

(** [symbolTable.define(name, kind)] *)
Definition define (t : TableRef) (name : string) (kind : SymbolType)
  : Res Symbol.t :=
  λ store, SymbolTable.define store t name kind.

(** The handler of [declare-variable] and of [declare-constant]. *)
Definition declareHandler (kind : SymbolType) : NodeHandler := λ node symbolTable,
  let* defined :=
    gets (λ store, SymbolTable.isDefinedLocally store symbolTable
                     (js_str (name node))) in
  if defined : bool then throw (DuplicateDefinition (js_str (name node)))
  else
    let* s := define symbolTable (js_str (name node)) kind in
    ret (set_symbol (Some s) node).

(** [nodeHandlers["assignment-statement"]] *)
Definition assignmentHandler : NodeHandler := λ node symbolTable,
  match assignee node with
  | None => throw TypeError
  | Some a =>
      if negb (String.eqb (nodeType a) "access-variable") then throw NotAnLvalue
      else
        let* found :=
          gets (λ store, SymbolTable.get store symbolTable (js_str (name a))) in
        match found with
        | None => throw (UndeclaredName (js_str (name a)))
        | Some s =>
            if negb (bool_decide (Symbol.type s = Variable_))
            then throw (AssignToConstant (Symbol.name s))
            else ret (set_symbol (Some s) node)
        end
  end.

(** [nodeHandlers: INodeHandlerMap] *)
Definition nodeHandlers (sub : ResolveWalks) (nodeType : string)
  : option NodeHandler :=
  if String.eqb nodeType "function-declaration" then Some (λ node symbolTable,
    let* localSymbolTable := newSymbolTable (Some symbolTable) in
    let node := set_scope (Some localSymbolTable) node in
    let* b := resolve_body sub localSymbolTable in
    ret (set_body b node))
  else if String.eqb nodeType "declare-variable" then
    Some (declareHandler Variable_)
  else if String.eqb nodeType "declare-constant" then
    Some (declareHandler Constant_)
  else if String.eqb nodeType "access-variable" then Some (λ node symbolTable,
    let* found :=
      gets (λ store, SymbolTable.get store symbolTable (js_str (name node))) in
    match found with
    | None => throw (UndeclaredName (js_str (name node)))
    | Some s => ret (set_symbol (Some s) node)
    end)
  else if String.eqb nodeType "assignment-statement" then Some assignmentHandler
  else if String.eqb nodeType "if-statement" then Some (λ node symbolTable,
    let* b := resolve_ifBlock sub symbolTable in
    let node := set_ifBlock b node in
    let* b := resolve_elseBlock sub symbolTable in
    ret (set_elseBlock b node))
  else None.

(** [private internalResolveSymbols(node: any, symbolTable: ISymbolTable): void] *)
Fixpoint internalResolveSymbols (node : ASTNode) (symbolTable : TableRef)
  : Res ASTNode :=
  let sub :=
    {| resolve_body := λ t,
         walkRequired (λ n, internalResolveSymbols n t) (body node);
       resolve_ifBlock := λ t,
         walkRequired (λ n, internalResolveSymbols n t) (ifBlock node);
       resolve_elseBlock := λ t,
         walkOptional (λ n, internalResolveSymbols n t) (elseBlock node) |} in
  let* c := walkList (λ n, internalResolveSymbols n symbolTable) (children node) in
  let node := set_children c node in
  match nodeHandlers sub (nodeType node) with
  | Some nodeHandler => nodeHandler node symbolTable
  | None => ret node
  end.

(** [resolveSymbols(node: any): void] *)
Definition resolveSymbols (node : ASTNode) : Res ASTNode :=
  let* globalSymbolTable := newSymbolTable None in
  internalResolveSymbols node globalSymbolTable.

(** ** The [compile] entry point and its own small generator *)

Module Index.

(** The nodes [genCode] reads (its parameter is typed [any]). *)
#[local] Unset Elimination Schemes.
Inductive Node : Type := mkNode {
  nodeType : string;
  children : option (list Node);
  opcode : option string;
  value : option string;
  fieldName : option string;
  argIndex : option string;
  stmtType : option string
}.
#[local] Set Elimination Schemes.

(** [export function genCode(node: any, output: string[]): void], with
    the array it pushes to passed along. *)
Fixpoint genCode (node : Node) (output : list string) : Result (list string) :=
  let walked :=
    match children node with
    | Some c =>
        (fix loop (l : list Node) (output : list string) : Result (list string) :=
           match l with
           | [] => Ok output
           | child :: l' =>
               match genCode child output with
               | Ok output => loop l' output
               | Err e => Err e
               end
           end) c output
    | None => Ok output
    end in
  match walked with
  | Err e => Err e
  | Ok output =>
      if String.eqb (nodeType node) "operator" then
        Ok (output ++ [js_str (opcode node)])
      else if String.eqb (nodeType node) "literal" then
        Ok (output ++ [js_str (opcode node) +:+ " " +:+ js_str (value node)])
      else if String.eqb (nodeType node) "txn" then
        Ok (output ++ ["txn " +:+ js_str (fieldName node)])
      else if String.eqb (nodeType node) "arg" then
        Ok (output ++ ["arg " +:+ js_str (argIndex node)])
      else if String.eqb (nodeType node) "block" then
        Ok output
      else if String.eqb (nodeType node) "statement" then
        if bool_decide (stmtType node = Some "expr") then Ok output
        else if bool_decide (stmtType node = Some "return") then
          Ok (output ++ ["return"])
        else Err (UnexpectedStatementType (js_str (stmtType node)))
      else Err (UnexpectedNodeType (nodeType node))
  end.

Definition CRLF : string :=
  String (Ascii.ascii_of_nat 13) (String (Ascii.ascii_of_nat 10) EmptyString).

Section Compile.

(** [const parser = require("./parser")]: the generated parser is not
    among the sources; it returns an AST or throws. *)
Variable parse : string → Result Node.

(** [export function compile(input: string): string] *)
Definition compile (input : string) : Result string :=
  match parse input with
  | Err e => Err e
  | Ok ast =>
      match genCode ast [] with
      | Err e => Err e
      | Ok output => Ok ("#pragma version 3" +:+ CRLF +:+ join CRLF output)
      end
  end.

End Compile.

End Index.

(** ** Sample programs *)

(** A node with the given type and no attribute. *)
Definition node (nodeType : string) : ASTNode :=
  mkASTNode nodeType None None None None None None None None None None None
            None None None None None None None.

Definition set_name (v : option string) (n : ASTNode) : ASTNode :=
  mkASTNode
    (nodeType n) (children n) v (value n) (opcode n) (args n)
    (numItemsAdded n) (numItemsRemoved n) (params n) (body n)
    (initializer n) (assignee n) (ifBlock n) (elseBlock n) (functionArgs n)
    (scope n) (symbol n) (symbols n) (nodeControlStatementId n).

Definition set_value (v : option string) (n : ASTNode) : ASTNode :=
  mkASTNode
    (nodeType n) (children n) (name n) v (opcode n) (args n)
    (numItemsAdded n) (numItemsRemoved n) (params n) (body n)
    (initializer n) (assignee n) (ifBlock n) (elseBlock n) (functionArgs n)
    (scope n) (symbol n) (symbols n) (nodeControlStatementId n).

Definition set_assignee (v : option ASTNode) (n : ASTNode) : ASTNode :=
  mkASTNode
    (nodeType n) (children n) (name n) (value n) (opcode n) (args n)
    (numItemsAdded n) (numItemsRemoved n) (params n) (body n)
    (initializer n) v (ifBlock n) (elseBlock n) (functionArgs n)
    (scope n) (symbol n) (symbols n) (nodeControlStatementId n).

(** [1], [x], [{ ... }], [e;] *)
Definition numberNode (v : string) : ASTNode :=
  set_value (Some v) (node "number").
Definition accessNode (x : string) : ASTNode :=
  set_name (Some x) (node "access-variable").
Definition blockNode (l : list ASTNode) : ASTNode :=
  set_children (Some l) (node "block").
Definition exprStatement (e : ASTNode) : ASTNode :=
  set_children (Some [e]) (node "expr-statement").

(** [x = e] *)
Definition assignNode (x : string) (e : ASTNode) : ASTNode :=
  set_assignee (Some (accessNode x))
    (set_children (Some [e]) (node "assignment-statement")).

(** [if (c) a else b] *)
Definition ifNode (c a : ASTNode) (b : option ASTNode) : ASTNode :=
  set_elseBlock b (set_ifBlock (Some a)
    (set_children (Some [c]) (node "if-statement"))).

(** [while (c) b] *)
Definition whileNode (c b : ASTNode) : ASTNode :=
  set_body (Some b) (set_children (Some [c]) (node "while-statement")).

(** [function f(params) body], with the scope the resolver attached *)
Definition functionNode (f : string) (ps : list string) (b : ASTNode)
    (sc : option TableRef) : ASTNode :=
  set_scope sc (set_body (Some b) (set_params (Some ps)
    (set_name (Some f) (node "function-declaration")))).

(** A store with the global table and the table of a function that
    declares [a] and [b]. *)
Definition sampleTables : TableStore :=
  [ mkSymbolTable {[ "x" := Symbol.mk "x" Variable_ 1 true;
                     "c" := Symbol.mk "c" Constant_ 2 true ]} None;
    mkSymbolTable {[ "a" := Symbol.mk "a" Variable_ 1 false;
                     "b" := Symbol.mk "b" Variable_ 2 false ]} (Some 0) ].

(** The lines a run leaves in the emitter. *)
Definition emitted {A} (r : Result (A * CodeGenerator)) : Result (list Line) :=
  match r with
  | Ok (_, g) => Ok (output (codeEmitter g))
  | Err e => Err e
  end.

(** The generator of a fresh compilation. *)
Definition freshGenerator : CodeGenerator := newCodeGenerator CodeEmitter.empty.

(** The tree of [1 + 1 ;] as [genCode] walks it, and a parser that knows
    this one program. *)
Definition sampleExpression : Index.Node :=
  let lit v := Index.mkNode "literal" None (Some "int") (Some v) None None None in
  Index.mkNode "block"
    (Some [Index.mkNode "statement"
             (Some [Index.mkNode "operator" (Some [lit "1"; lit "1"])
                                 (Some "+") None None None None])
             None None None None (Some "expr")])
    None None None None None.

Definition sampleParser (input : string) : Result Index.Node :=
  if String.eqb input "1 + 1 ;" then Ok sampleExpression else Err ParseError.

(** The generator after some lines were appended and the logical depth
    became [d]. *)
Definition emit (lines : list Line) (d : nat) (g : CodeGenerator) : CodeGenerator :=
  set_codeEmitter (mkCodeEmitter (output (codeEmitter g) ++ lines) d) g.

(** [a = 1;] in a function whose local [a] sits at position 1, as the
    resolver annotates it. *)
Definition localA : Symbol.t := Symbol.mk "a" Variable_ 1 false.
Definition assignLocal : ASTNode :=
  exprStatement (set_symbol (Some localA) (assignNode "a" (numberNode "1"))).

(** The walks of a node without named substructures. *)
Definition noSubWalks : SubWalks :=
  subWalks internalGenerateCode (node "block").

(** ** Vocabulary of the statements *)

(** The prefixes of the labels that control statements mint. *)
Definition controlPrefixes : list string :=
  ["else_"; "end_"; "loop_start_"; "loop_end_"].

(** A line is no label, or the label of a control statement whose id lies
    in [(lo, hi]]. *)
Definition controlLine (lo hi : nat) (l : Line) : Prop :=
  match l with
  | Label nm _ =>
      ∃ p j, p ∈ controlPrefixes ∧ lo < j ≤ hi ∧ nm = p +:+ pretty j
  | _ => True
  end.

(** What a walk may do to the generator: it appends lines, whose labels
    are control labels with ids above [lo] and up to the counter it
    leaves; the counter does not decrease; [functions], [inFunction] and
    [curFunction] stay. *)
Definition grows (lo : nat) (g g' : CodeGenerator) : Prop :=
  functions g' = functions g ∧
  inFunction g' = inFunction g ∧
  curFunction g' = curFunction g ∧
  controlStatementId g ≤ controlStatementId g' ∧
  ∃ seg, output (codeEmitter g') = output (codeEmitter g) ++ seg ∧
         Forall (controlLine lo (controlStatementId g')) seg.

(** A computation that only grows the generator. *)
Definition growing {A} (m : Gen A) : Prop :=
  ∀ lo g a g', lo ≤ controlStatementId g → m g = Ok (a, g') → grows lo g g'.

Definition growingWalks (sub : SubWalks) : Prop :=
  growing (walk_initializer sub) ∧ growing (walk_ifBlock sub) ∧
  growing (walk_elseBlock sub) ∧ growing (walk_body sub) ∧
  growing (walk_functionArgs sub).

(** The number of lines that define the label [nm]. *)
Definition isLabel (nm : string) (l : Line) : bool :=
  match l with
  | Label nm' _ => bool_decide (nm' = nm)
  | _ => false
  end.
Definition labelCount (nm : string) (lines : list Line) : nat :=
  length (filter (λ l, isLabel nm l = true) lines).

(** A computation that only grows the generator and may define labels of
    the control statement [k], once [k] has been minted. *)
Definition growingFrom (k : nat) {A} (m : Gen A) : Prop :=
  ∀ lo g a g', lo < k → k ≤ controlStatementId g →
               m g = Ok (a, g') → grows lo g g'.

(** [m], run in [g], succeeds, appends [lines] and leaves [g']. *)
Definition emits {A} (m : Gen A) (g : CodeGenerator) (lines : list Line)
    (g' : CodeGenerator) : Prop :=
  (∃ a, m g = Ok (a, g')) ∧
  output (codeEmitter g') = output (codeEmitter g) ++ lines.

(** [function else_1() {} if (1) {}]: the function is named like the
    label of the first control statement. *)
Definition collidingProgram : ASTNode :=
  blockNode [ functionNode "else_1" [] (blockNode []) (Some 1);
              ifNode (numberNode "1") (blockNode []) None ].

(** [if (1) { 2; } else { 3; }] *)
Definition sampleIf : ASTNode :=
  ifNode (numberNode "1") (blockNode [exprStatement (numberNode "2")])
         (Some (blockNode [exprStatement (numberNode "3")])).

(** The lines of a function's code, as [generateFunctionCode] emits them
    around the code of the body. *)
Definition frameSetupLines (fname : string) (numSymbols : nat) : list Line :=
  [ Label fname None;
    SectionBreak (Some "Function setup.");
    Instruction "load 0"
      (Some ("Take copy of current stack_pointer on stack so that we can save it as the "
             +:+ dquote +:+ "previous stack pointer" +:+ dquote
             +:+ " in the new stack frame."));
    SectionBreak (Some "Allocate stack frame for the function being called and update the stack_pointer.");
    SectionBreak (Some "stack_pointer = stack_pointer - (num_locals+1)");
    Instruction "load 0" (Some "stack_pointer");
    Instruction ("int " +:+ pretty (numSymbols + 1)) (Some "num_locals+1");
    Instruction "-" (Some "stack_pointer - (num_locals+1)");
    Instruction "store 0" (Some "stack_pointer = stack_pointer - (num_locals+1)");
    Instruction "load 0"
      (Some "Loads the stack_pointer for the new stack frame, this is where we'll store the previous stack pointer.");
    Instruction "swap"
      (Some "The values on the compute stack are in the wrong order, swap so they are in the right order.");
    Instruction "stores"
      (Some "Stores previous stack pointer at the first position in the new stack frame.");
    SectionBreak None ].

(** The four lines that store one parameter. *)
Definition paramStoreLines (param : string) (s : Symbol.t) : list Line :=
  [ Instruction ("int " +:+ pretty (Symbol.position s)) None;
    Instruction "load 0" None;
    Instruction "+" None;
    Instruction "stores" (Some ("Stores " +:+ dquote +:+ param +:+ dquote +:+ ".")) ].

(** The lines that store the parameters [ps], in the order of [ps], where
    [syms] are their symbols. *)
Definition paramsStoreLines (ps : list string) (syms : list Symbol.t) : list Line :=
  concat (zip_with paramStoreLines ps syms).

(** The argument setup of a function whose [params] attribute is [ps],
    where [syms] are the symbols of the parameters in declaration order. *)
Definition setupArgumentsLines (ps : option (list string))
    (syms : list Symbol.t) : list Line :=
  match ps with
  | Some ps =>
      SectionBreak (Some "Setup arguments.")
      :: paramsStoreLines (rev ps) (rev syms)
  | None => []
  end.

Definition cleanupLines (fname : string) : list Line :=
  [ Label (fname +:+ "-cleanup")
          (Some "Function cleanup. Restores the previous stack frame");
    Instruction "load 0" (Some "Loads current stack_pointer");
    Instruction "loads" (Some "Loads previous_stack_pointer");
    Instruction "store 0" (Some "stack_pointer = previous_stack_pointer");
    Instruction "retsub" (Some "Catch all return.") ].

(** All the lines of a function: [n] is the number of symbols of its
    scope, [syms] the symbols of its parameters, [bodyLines] the code of
    its body. *)
Definition functionLines (fname : string) (n : nat) (ps : option (list string))
    (syms : list Symbol.t) (bodyLines : list Line) : list Line :=
  frameSetupLines fname n ++ setupArgumentsLines ps syms ++
  [SectionBreak (Some "Function body.")] ++ bodyLines ++ cleanupLines fname.

(** The symbols [syms] are what the scope [sc] holds for the names [ps]. *)
Definition lookupAll (tables : TableStore) (sc : TableRef)
    (ps : list string) (syms : list Symbol.t) : Prop :=
  Forall2 (λ p s, SymbolTable.get tables sc p = Some s) ps syms.

(** [function f(a, b) { return 1; }] with the scope of [sampleTables]. *)
Definition sampleFunction : ASTNode :=
  functionNode "f" ["a"; "b"]
    (blockNode [set_children (Some [numberNode "1"]) (node "return-statement")])
    (Some 1).

(** The tree without the bodies of its function declarations. *)
Fixpoint eraseFunctionBodies (n : ASTNode) : ASTNode :=
  mkASTNode
    (nodeType n)
    (option_map (map eraseFunctionBodies) (children n))
    (name n) (value n) (opcode n) (args n) (numItemsAdded n)
    (numItemsRemoved n) (params n)
    (if String.eqb (nodeType n) "function-declaration" then None
     else option_map eraseFunctionBodies (body n))
    (option_map eraseFunctionBodies (initializer n))
    (option_map eraseFunctionBodies (assignee n))
    (option_map eraseFunctionBodies (ifBlock n))
    (option_map eraseFunctionBodies (elseBlock n))
    (option_map (map eraseFunctionBodies) (functionArgs n))
    (scope n) (symbol n) (symbols n) (nodeControlStatementId n).

(** The outcome of a run, with [e] applied to the value returned. *)
Definition mapResult {A} (e : A → A) (r : Result (A * CodeGenerator))
  : Result (A * CodeGenerator) :=
  match r with
  | Ok (a, g) => Ok (e a, g)
  | Err x => Err x
  end.

(** [m1] does to every generator what [m2] does, and returns the image
    under [e] of what [m2] returns. *)
Definition sim {A} (e : A → A) (m1 m2 : Gen A) : Prop :=
  ∀ g, m1 g = mapResult e (m2 g).

(** The walks into the substructures of a node and of its erasure agree;
    the body only counts for nodes other than function declarations. *)
Definition simWalks (nodeType : string) (s1 s2 : SubWalks) : Prop :=
  sim (option_map eraseFunctionBodies) (walk_initializer s1) (walk_initializer s2) ∧
  sim (option_map eraseFunctionBodies) (walk_ifBlock s1) (walk_ifBlock s2) ∧
  sim (option_map eraseFunctionBodies) (walk_elseBlock s1) (walk_elseBlock s2) ∧
  (nodeType ≠ "function-declaration" →
   sim (option_map eraseFunctionBodies) (walk_body s1) (walk_body s2)) ∧
  sim (option_map (map eraseFunctionBodies))
      (walk_functionArgs s1) (walk_functionArgs s2).

(** [while (1) { 2; }] *)
Definition sampleWhile : ASTNode :=
  whileNode (numberNode "1") (blockNode [exprStatement (numberNode "2")]).

(** [let x = 7;] as the parser builds it, the initializer held by the
    [initializer] attribute. *)
Definition sampleDeclaration : ASTNode :=
  set_initializer (Some (numberNode "7"))
    (set_name (Some "x") (node "declare-variable")).

(** The names [builtins] has an entry for. *)
Definition builtinNames : list string :=
  [ "appGlobalPut"; "appGlobalGet"; "appGlobalDel";
    "appLocalPut"; "appLocalGet"; "appLocalDel";
    "btoi"; "itob"; "exit"; "itxn_begin"; "itxn_field"; "itxn_submit" ].

(** The names the lookup finds on [Object.prototype]. *)
Definition inheritedNames : list string :=
  [ "toString"; "constructor"; "valueOf"; "toLocaleString";
    "hasOwnProperty"; "isPrototypeOf"; "propertyIsEnumerable";
    "__defineGetter__"; "__defineSetter__"; "__lookupGetter__";
    "__lookupSetter__"; "__proto__" ].

(** [f(2)], a call with one argument and no children. *)
Definition sampleCall : ASTNode :=
  set_functionArgs (Some [numberNode "2"])
    (set_name (Some "f") (node "function-call")).

(** [itxn_field("Amount", 2)]: the field name is a string literal, quotes
    included. *)
Definition sampleItxnField : ASTNode :=
  set_functionArgs
    (Some [set_value (Some (dquote +:+ "Amount" +:+ dquote))
             (node "string-literal");
           numberNode "2"])
    (set_name (Some "itxn_field") (node "function-call")).

(** [function f(zz) {}]: the body does not declare the parameter, and the
    resolver has not either. *)
Definition undeclaredParamFunction : ASTNode :=
  functionNode "f" ["zz"] (blockNode []) (Some 1).

(** ** More of the [compile] entry point *)

(** The loop of [genCode] over the children of a node. *)
Fixpoint genCodeList (l : list Index.Node) (output : list string)
  : Result (list string) :=
  match l with
  | [] => Ok output
  | child :: l' =>
      match Index.genCode child output with
      | Ok output => genCodeList l' output
      | Err e => Err e
      end
  end.

(** [export function compileExpression(input: string): string], with the
    parser called with the start rule [expression] as a parameter. *)
Definition compileExpression (parseExpression : string → Result Index.Node)
    (input : string) : Result string :=
  match parseExpression input with
  | Err e => Err e
  | Ok ast =>
      match Index.genCode ast [] with
      | Err e => Err e
      | Ok output => Ok (join Index.CRLF output)
      end
  end.

(** The node types [genCode] has a case for; a statement must be an
    expression statement or a return statement. *)
Definition knownNode (n : Index.Node) : bool :=
  String.eqb (Index.nodeType n) "operator" ||
  String.eqb (Index.nodeType n) "literal" ||
  String.eqb (Index.nodeType n) "txn" ||
  String.eqb (Index.nodeType n) "arg" ||
  String.eqb (Index.nodeType n) "block" ||
  (String.eqb (Index.nodeType n) "statement" &&
   (bool_decide (Index.stmtType n = Some "expr") ||
    bool_decide (Index.stmtType n = Some "return"))).

(** Every node of the tree is known. *)
Fixpoint wellFormed (n : Index.Node) : bool :=
  knownNode n &&
  match Index.children n with
  | Some c => forallb wellFormed c
  | None => true
  end.

(** The line a node contributes after the lines of its children. *)
Definition ownLines (n : Index.Node) : list string :=
  if String.eqb (Index.nodeType n) "operator" then [js_str (Index.opcode n)]
  else if String.eqb (Index.nodeType n) "literal" then
    [js_str (Index.opcode n) +:+ " " +:+ js_str (Index.value n)]
  else if String.eqb (Index.nodeType n) "txn" then
    ["txn " +:+ js_str (Index.fieldName n)]
  else if String.eqb (Index.nodeType n) "arg" then
    ["arg " +:+ js_str (Index.argIndex n)]
  else if String.eqb (Index.nodeType n) "statement" then
    if bool_decide (Index.stmtType n = Some "return") then ["return"] else []
  else [].

(** The lines of a tree in post-order: those of the children, left to
    right, then the node's own. *)
Fixpoint postOrderLines (n : Index.Node) : list string :=
  match Index.children n with
  | Some c => concat (map postOrderLines c)
  | None => []
  end ++ ownLines n.

(** The expression [1 + 1] alone, as the start rule [expression] parses it. *)
Definition sampleSum : Index.Node :=
  let lit v := Index.mkNode "literal" None (Some "int") (Some v) None None None in
  Index.mkNode "operator" (Some [lit "1"; lit "1"]) (Some "+") None None None None.

Definition sampleExpressionParser (input : string) : Result Index.Node :=
  if String.eqb input "1 + 1" then Ok sampleSum else Err ParseError.

(** [let x;] and [const x;] *)
Definition declareVariableNode (x : string) : ASTNode :=
  set_name (Some x) (node "declare-variable").
Definition declareConstantNode (x : string) : ASTNode :=
  set_name (Some x) (node "declare-constant").

(** [while (1) { x = 1; }]: the assignment sits in the body of the loop. *)
Definition whileWithAssignment : ASTNode :=
  whileNode (numberNode "1") (blockNode [exprStatement (assignNode "x" (numberNode "1"))]).

(** The lines of the stack-pointer bootstrap of [generateCode]. *)
Definition bootstrapLines (MAX_SCRATCH : nat) : list Line :=
  [ SectionBreak (Some "Function data stack setup.");
    Instruction ("int " +:+ pretty MAX_SCRATCH) (Some "Initial stack pointer.");
    Instruction "store 0" (Some "Set stack_pointer");
    SectionBreak None ].

(** Every node of [n] that a path through the [children] lists reaches is
    still reached by that path in [n'], and the function declarations among
    them differ from the original in their children at most. *)
Definition keepsFunctions (n n' : ASTNode) : Prop :=
  ∀ r f, lookupNode n r = Some f →
    ∃ f', lookupNode n' r = Some f' ∧
          (nodeType f = "function-declaration" → ∃ c, f' = set_children c f).

(** [blk] is the code of the function declaration [f]: the set-up of its
    frame and of its arguments, the code of its body, generated within a
    function with [curFunction] carrying the name of [f], and its
    clean-up. *)
Definition functionBlock (tables : TableStore) (f : ASTNode)
    (blk : list Line) : Prop :=
  ∃ sc n syms b bodyLines,
    scope f = Some sc ∧ SymbolTable.getNumSymbols tables sc = Ok n ∧
    lookupAll tables sc (default [] (params f)) syms ∧
    body f = Some b ∧
    (∃ g1 b' g2,
       inFunction g1 = true ∧ name <$> curFunction g1 = Some (name f) ∧
       internalGenerateCode b g1 = Ok (b', g2) ∧
       output (codeEmitter g2) = output (codeEmitter g1) ++ bodyLines) ∧
    blk = functionLines (js_str (name f)) n (params f) syms bodyLines.

(** What [generateFunctionCode] leaves of the function declaration [f]:
    the parameter list reversed, the body as the walk returned it. *)
Definition generatedFunction (f f' : ASTNode) : Prop :=
  ∃ c b, f' = set_children c (set_body b (set_params (@rev string <$> params f) f)).

(** [function f(a, b) { return 1; } 2;] *)
Definition sampleProgram : ASTNode :=
  blockNode [sampleFunction; exprStatement (numberNode "2")].

(** The store [store'] keeps every table of [store] where it is, with its
    parent and with every symbol it held. *)
Definition extends (store store' : TableStore) : Prop :=
  length store ≤ length store' ∧
  ∀ t tbl, store !! t = Some tbl →
    ∃ tbl', store' !! t = Some tbl' ∧ parent tbl' = parent tbl ∧
            entries tbl ⊆ entries tbl'.

(** A computation of the resolver that only extends the store. *)
Definition extending {A} (m : Res A) : Prop :=
  ∀ s a s', m s = Ok (a, s') → extends s s'.

(** [function f() { let y; }] *)
Definition functionWithLocal : ASTNode :=
  functionNode "f" [] (blockNode [declareVariableNode "y"]) None.

(** ** The target machine, as far as the store sequences use it *)

(** The repository holds no model of the machine that runs the emitted
    TEAL; what the store sequences do to the compute stack is stated
    against this one.  These are the opcodes of the two store sequences,
    with the meaning TEAL gives them; it is also what the comments of the
    assignment visitor say of them ("Copies the earlier value to the top
    of stack", "stack_pointer + variable_position", ...). *)
Inductive Op : Type :=
| OpInt (n : nat)
| OpLoad (i : nat)
| OpStore (i : nat)
| OpAdd
| OpDig (n : nat)
| OpStores
| OpDup.

(** The text of an opcode, as the generator writes it. *)
Definition opText (o : Op) : string :=
  match o with
  | OpInt n => "int " +:+ pretty n
  | OpLoad i => "load " +:+ pretty i
  | OpStore i => "store " +:+ pretty i
  | OpAdd => "+"
  | OpDig n => "dig " +:+ pretty n
  | OpStores => "stores"
  | OpDup => "dup"
  end.

Definition opLines (ops : list Op) : list Line :=
  map (λ o, Instruction (opText o) None) ops.

(** A value of the machine: an unsigned 64-bit integer or a byte string. *)
Inductive Value : Type :=
| VInt (n : N)
| VBytes (b : string).

Definition uint64Max : N := 18446744073709551615%N.

(** The compute stack, top first, and the 256 scratch slots. *)
Record Machine : Type := mkMachine {
  computeStack : list Value;
  scratchSpace : nat → Value
}.

Definition setSlot (i : nat) (v : Value) (sc : nat → Value) : nat → Value :=
  λ j, if decide (j = i) then v else sc j.

(** One opcode; [None] when the machine stops with an error: a stack too
    short, an operand of the wrong kind, an overflow, a slot that does not
    exist. *)
Definition step (o : Op) (m : Machine) : option Machine :=
  match o with
  | OpInt n =>
      if decide (N.of_nat n ≤ uint64Max)%N
      then Some (mkMachine (VInt (N.of_nat n) :: computeStack m) (scratchSpace m))
      else None
  | OpLoad i =>
      if decide (i < 256)
      then Some (mkMachine (scratchSpace m i :: computeStack m) (scratchSpace m))
      else None
  | OpStore i =>
      match computeStack m with
      | v :: rest =>
          if decide (i < 256)
          then Some (mkMachine rest (setSlot i v (scratchSpace m)))
          else None
      | [] => None
      end
  | OpAdd =>
      match computeStack m with
      | VInt b :: VInt a :: rest =>
          if decide (a + b ≤ uint64Max)%N
          then Some (mkMachine (VInt (a + b) :: rest) (scratchSpace m))
          else None
      | _ => None
      end
  | OpDig n =>
      match computeStack m !! n with
      | Some v => Some (mkMachine (v :: computeStack m) (scratchSpace m))
      | None => None
      end
  | OpStores =>
      match computeStack m with
      | v :: VInt i :: rest =>
          if decide (i < 256)%N
          then Some (mkMachine rest (setSlot (N.to_nat i) v (scratchSpace m)))
          else None
      | _ => None
      end
  | OpDup =>
      match computeStack m with
      | v :: _ => Some (mkMachine (v :: computeStack m) (scratchSpace m))
      | [] => None
      end
  end.

Fixpoint run (ops : list Op) (m : Machine) : option Machine :=
  match ops with
  | [] => Some m
  | o :: ops' =>
      match step o m with
      | Some m' => run ops' m'
      | None => None
      end
  end.

(** The store sequence of a symbol, as opcodes. *)
Definition storeOps (s : Symbol.t) : list Op :=
  if Symbol.isGlobal s then [OpDup; OpStore (Symbol.position s)]
  else [OpInt (Symbol.position s); OpLoad 0; OpAdd; OpDig 1; OpStores].

(** A machine with the value 7 on the stack and the stack pointer 200 in
    slot 0. *)
Definition sampleMachine : Machine :=
  mkMachine [VInt 7] (λ i, if decide (i = 0) then VInt 200 else VInt 0).
(** No label is defined twice among the lines. *)
Definition distinctLabels (seg : list Line) : Prop :=
  ∀ nm, labelCount nm seg ≤ 1.

(** The labels among the lines are control labels with ids in [(lo, hi]],
    each defined once. *)
Definition tidySeg (lo hi : nat) (seg : list Line) : Prop :=
  Forall (controlLine lo hi) seg ∧ distinctLabels seg.

(** A computation that appends lines whose labels are control labels with
    ids it minted itself, each defined once. *)
Definition tidy {A} (m : Gen A) : Prop :=
  ∀ g a g', m g = Ok (a, g') →
    controlStatementId g ≤ controlStatementId g' ∧
    ∃ seg, output (codeEmitter g') = output (codeEmitter g) ++ seg ∧
           tidySeg (controlStatementId g) (controlStatementId g') seg.

Definition tidyWalks (sub : SubWalks) : Prop :=
  tidy (walk_initializer sub) ∧ tidy (walk_ifBlock sub) ∧
  tidy (walk_elseBlock sub) ∧ tidy (walk_body sub) ∧
  tidy (walk_functionArgs sub).

(** A line that is no label. *)
Definition noLabel (l : Line) : Prop :=
  match l with Label _ _ => False | _ => True end.

(** The label [p ++ j] is defined at most once among the lines, and not at
    all when the id [j] lies outside [(lo, hi]]. *)
Definition mintedOnce (p : string) (j lo hi : nat) (seg : list Line) : Prop :=
  labelCount (p +:+ pretty j) seg ≤ 1 ∧
  (j ≤ lo ∨ hi < j → labelCount (p +:+ pretty j) seg = 0).

(** The last character of a string. *)
Fixpoint lastChar (s : string) : option Ascii.ascii :=
  match s with
  | EmptyString => None
  | String c s' =>
      match s' with
      | EmptyString => Some c
      | String _ _ => lastChar s'
      end
  end.

(** The characters [0] to [9]. *)
Definition isDigit (c : Ascii.ascii) : bool :=
  match c with
  | Ascii.Ascii _ _ _ _ true true false false => true
  | _ => false
  end.

(** [function f(a, b) { return 1; } if (1) { 2; } else { 3; }] *)
Definition programWithIf : ASTNode :=
  blockNode [sampleFunction; sampleIf].

(** The generator when the walk of [programWithIf] reaches the
    if-statement: the bootstrap has been emitted and the function
    collected. *)
Definition generatorAtIf : CodeGenerator :=
  emit (bootstrapLines 255) 0 (set_functions [[0]] freshGenerator).

(** [toString(2)]: the name is no function of the program, but a member
    that the builtins table inherits. *)
Definition sampleInheritedCall : ASTNode :=
  set_functionArgs (Some [numberNode "2"])
    (set_name (Some "toString") (node "function-call")).


(** [function program_end() { }] *)
Definition programEndProgram : ASTNode :=
  blockNode [functionNode "program_end" [] (blockNode []) (Some 1)].





(** * Properties *)

(** ** Reasoning about computations *)

Lemma bind_Ok {S A B} (m : M S A) (k : A → M S B) s b s' :
  bind m k s = Ok (b, s') ↔ ∃ a s1, m s = Ok (a, s1) ∧ k a s1 = Ok (b, s').
Proof.
  unfold bind. split.
  - destruct (m s) as [[a s1]|e]; [eauto | discriminate].
  - intros (a & s1 & -> & H). exact H.
Qed.

Lemma bind_Err {S A B} (m : M S A) (k : A → M S B) s e :
  bind m k s = Err e ↔
  m s = Err e ∨ ∃ a s1, m s = Ok (a, s1) ∧ k a s1 = Err e.
Proof.
  unfold bind. split.
  - destruct (m s) as [[a s1]|e']; [eauto | intros [= ->]; eauto].
  - intros [-> | (a & s1 & -> & H)]; [reflexivity | exact H].
Qed.

(** The direct constituents of a node. *)
Definition subnodes (n : ASTNode) : list ASTNode :=
  default [] (children n) ++ option_list (body n) ++
  option_list (initializer n) ++ option_list (assignee n) ++
  option_list (ifBlock n) ++ option_list (elseBlock n) ++
  default [] (functionArgs n).

(** Structural induction on trees: a property holds of every node when it
    passes from the constituents of a node to the node. *)
Lemma ASTNode_ind (P : ASTNode → Prop) :
  (∀ n, Forall P (subnodes n) → P n) → ∀ n, P n.
Proof.
  intros step. fix IH 1. intros n. apply step.
  destruct n as [nt ch nm v op ar na nr ps bd ini asg ib eb fa sc sy sys cid].
  unfold subnodes; cbn [children body initializer assignee ifBlock elseBlock
                        functionArgs].
  repeat apply Forall_app_2.
  - destruct ch as [l|]; cbn; [|constructor].
    induction l as [|x l IHl]; constructor; [apply IH | apply IHl].
  - destruct bd; cbn; repeat constructor; apply IH.
  - destruct ini; cbn; repeat constructor; apply IH.
  - destruct asg; cbn; repeat constructor; apply IH.
  - destruct ib; cbn; repeat constructor; apply IH.
  - destruct eb; cbn; repeat constructor; apply IH.
  - destruct fa as [l|]; cbn; [|constructor].
    induction l as [|x l IHl]; constructor; [apply IH | apply IHl].
Qed.

(** ** The resolver's assignment handler *)

(** C5: the handler the resolver runs on an [assignment-statement] node
    fails with NotAnLvalue when the assignee is not an [access-variable]
    node; otherwise with UndeclaredName when the parent-chain lookup of the
    assignee's name finds nothing; otherwise with AssignToConstant when the
    symbol found is not a variable; otherwise it attaches the symbol found
    to the assignment node, leaves the tables as they are, and succeeds. *)
Theorem C5_assignment_handler (n a : ASTNode) (symbolTable : TableRef)
    (store : TableStore) (sub : ResolveWalks) :
  assignee n = Some a →
  nodeHandlers sub "assignment-statement" = Some assignmentHandler ∧
  (nodeType a ≠ "access-variable" →
     assignmentHandler n symbolTable store = Err NotAnLvalue) ∧
  (nodeType a = "access-variable" →
     SymbolTable.get store symbolTable (js_str (name a)) = None →
     assignmentHandler n symbolTable store
     = Err (UndeclaredName (js_str (name a)))) ∧
  (∀ s, nodeType a = "access-variable" →
     SymbolTable.get store symbolTable (js_str (name a)) = Some s →
     Symbol.type s ≠ Variable_ →
     assignmentHandler n symbolTable store
     = Err (AssignToConstant (Symbol.name s))) ∧
  (∀ s, nodeType a = "access-variable" →
     SymbolTable.get store symbolTable (js_str (name a)) = Some s →
     Symbol.type s = Variable_ →
     assignmentHandler n symbolTable store
     = Ok (set_symbol (Some s) n, store)).
Proof.
  intros Ha. split; [reflexivity|].
  unfold assignmentHandler. rewrite Ha.
  repeat split.
  - intros Hnt. apply String.eqb_neq in Hnt. rewrite Hnt. reflexivity.
  - intros Hnt Hget. apply String.eqb_eq in Hnt. rewrite Hnt. cbn.
    unfold bind, gets. rewrite Hget. reflexivity.
  - intros s Hnt Hget Hty. apply String.eqb_eq in Hnt. rewrite Hnt. cbn.
    unfold bind, gets. rewrite Hget.
    rewrite bool_decide_eq_false_2 by exact Hty. reflexivity.
  - intros s Hnt Hget Hty. apply String.eqb_eq in Hnt. rewrite Hnt. cbn.
    unfold bind, gets. rewrite Hget.
    rewrite bool_decide_eq_true_2 by exact Hty. reflexivity.
Qed.

(** [x = 1] where [x] is a global variable: the symbol of [x] is attached. *)
Lemma C5_assignment_handler_witness :
  assignee (assignNode "x" (numberNode "1")) = Some (accessNode "x") ∧
  assignmentHandler (assignNode "x" (numberNode "1")) 0 sampleTables
  = Ok (set_symbol (Some (Symbol.mk "x" Variable_ 1 true))
          (assignNode "x" (numberNode "1")), sampleTables).
Proof.
  split; [reflexivity|].
  apply (C5_assignment_handler (assignNode "x" (numberNode "1"))
           (accessNode "x") 0 sampleTables
           (mkResolveWalks (λ _, ret None) (λ _, ret None) (λ _, ret None))
           eq_refl);
    reflexivity.
Defined.

(** ** The [compile] entry point *)

(** C8: for every input string, [compile] returns exactly when the parser
    and [genCode] return, and what it returns is [#pragma version 3], a
    CR-LF pair, and the lines [genCode] pushed, joined by CR-LF pairs (one
    pair between two lines, none after the last). *)
Theorem C8_compile_output (parse : string → Result Index.Node)
    (input s : string) :
  (Index.compile parse input = Ok s ↔
   ∃ ast output,
     parse input = Ok ast ∧ Index.genCode ast [] = Ok output ∧
     s = "#pragma version 3" +:+ Index.CRLF +:+ join Index.CRLF output) ∧
  join Index.CRLF [] = "" ∧
  (∀ x, join Index.CRLF [x] = x) ∧
  (∀ x y l, join Index.CRLF (x :: y :: l)
            = x +:+ Index.CRLF +:+ join Index.CRLF (y :: l)).
Proof.
  repeat split; try reflexivity.
  - unfold Index.compile. intros H.
    destruct (parse input) as [ast|e]; [|discriminate].
    destruct (Index.genCode ast []) as [output|e] eqn:Hg; [|discriminate].
    injection H as <-. exists ast, output. auto.
  - intros (ast & output & Hp & Hg & ->).
    unfold Index.compile. rewrite Hp, Hg. reflexivity.
Qed.

(** [1 + 1 ;] compiles to the pragma and the three lines of scenario S1. *)
Lemma C8_compile_output_witness :
  Index.compile sampleParser "1 + 1 ;"
  = Ok ("#pragma version 3" +:+ Index.CRLF +:+ "int 1" +:+ Index.CRLF +:+
        "int 1" +:+ Index.CRLF +:+ "+").
Proof.
  apply (proj1 (C8_compile_output sampleParser "1 + 1 ;" _)).
  exists sampleExpression, ["int 1"; "int 1"; "+"].
  repeat split; reflexivity.
Defined.

(** ** The emitter calls *)

Lemma emit_emit l1 d1 l2 d2 g :
  emit l2 d2 (emit l1 d1 g) = emit (l1 ++ l2) d2 g.
Proof. unfold emit, set_codeEmitter; cbn. by rewrite app_assoc. Qed.

Lemma add_Ok text pushed popped comment g :
  popped ≤ stackDepth (codeEmitter g) →
  add text pushed popped comment g
  = Ok (tt, emit [Instruction text comment]
                 (stackDepth (codeEmitter g) - popped + pushed) g).
Proof.
  intros H. unfold add, CodeEmitter.add. by rewrite decide_True.
Qed.

Lemma bind_add_Ok {B} text pushed popped comment (k : unit → Gen B) g :
  popped ≤ stackDepth (codeEmitter g) →
  bind (add text pushed popped comment) k g
  = k tt (emit [Instruction text comment]
               (stackDepth (codeEmitter g) - popped + pushed) g).
Proof. intros H. unfold bind. by rewrite add_Ok. Qed.

Lemma add_Err text pushed popped comment g :
  stackDepth (codeEmitter g) < popped →
  add text pushed popped comment g = Err StackUnderflow.
Proof.
  intros H. unfold add, CodeEmitter.add. rewrite decide_False; [done | lia].
Qed.

Lemma add_inv text pushed popped comment g u g' :
  add text pushed popped comment g = Ok (u, g') →
  popped ≤ stackDepth (codeEmitter g) ∧
  g' = emit [Instruction text comment]
            (stackDepth (codeEmitter g) - popped + pushed) g.
Proof.
  unfold add, CodeEmitter.add. case_decide; [|discriminate].
  intros [= <- <-]. done.
Qed.

Lemma label_eq nm comment g :
  label nm comment g
  = Ok (tt, emit [Label nm comment] (stackDepth (codeEmitter g)) g).
Proof. reflexivity. Qed.

Lemma section_eq title g :
  section title g
  = Ok (tt, emit [SectionBreak title] (stackDepth (codeEmitter g)) g).
Proof. reflexivity. Qed.

Lemma resetStack_eq g : resetStack g = Ok (tt, emit [] 0 g).
Proof.
  unfold resetStack, modify, emit, CodeEmitter.resetStack.
  by rewrite app_nil_r.
Qed.

Lemma popAll_eq g :
  popAll g
  = Ok (tt, emit (replicate (stackDepth (codeEmitter g)) (Instruction "pop" None))
                 0 g).
Proof. reflexivity. Qed.

(** ** The assignment visitor *)

Lemma storeSymbol_global s g :
  Symbol.isGlobal s = true →
  storeSymbol s g
  = Ok (tt, emit [Instruction "dup" None;
                  Instruction ("store " +:+ pretty (Symbol.position s)) None]
                 (stackDepth (codeEmitter g)) g).
Proof.
  intros Hs. unfold storeSymbol. rewrite Hs. cbn [negb].
  unfold bind. rewrite add_Ok by lia. rewrite add_Ok by (cbn; lia).
  rewrite emit_emit. cbn. do 3 f_equal. lia.
Qed.

Lemma storeSymbol_local s g :
  Symbol.isGlobal s = false →
  storeSymbol s g
  = Ok (tt, emit [Instruction ("int " +:+ pretty (Symbol.position s)) None;
                  Instruction "load 0" None; Instruction "+" None;
                  Instruction "dig 1" None; Instruction "stores" None]
                 (stackDepth (codeEmitter g) + 2) g).
Proof.
  intros Hs. unfold storeSymbol. rewrite Hs. cbn [negb].
  unfold bind. rewrite add_Ok by lia.
  do 4 (rewrite add_Ok by (cbn; lia); rewrite emit_emit).
  cbn. do 3 f_equal. lia.
Qed.

Lemma storeSymbol_lines s g :
  storeSymbol s g
  = Ok (tt, emit (opLines (storeOps s))
                 (stackDepth (codeEmitter g) +
                  (if Symbol.isGlobal s then 0 else 2)) g).
Proof.
  destruct (Symbol.isGlobal s) eqn:Hs.
  - rewrite storeSymbol_global by done. unfold storeOps. rewrite Hs.
    by rewrite Nat.add_0_r.
  - rewrite storeSymbol_local by done. unfold storeOps. by rewrite Hs.
Qed.

Lemma storeSymbols_lines l : ∀ g,
  ∃ d, storeSymbols l g
       = Ok (tt, emit (concat (map (λ s, opLines (storeOps s)) l)) d g).
Proof.
  induction l as [|s l IH]; intros g.
  - exists (stackDepth (codeEmitter g)). cbn. unfold ret, emit, set_codeEmitter.
    rewrite app_nil_r. by destruct g as [? ? ? ? []].
  - cbn [storeSymbols]. unfold bind. rewrite storeSymbol_lines.
    destruct (IH (emit (opLines (storeOps s))
                       (stackDepth (codeEmitter g) +
                        (if Symbol.isGlobal s then 0 else 2)) g)) as [d ->].
    exists d. by rewrite emit_emit.
Qed.

Lemma run_app ops1 ops2 m :
  run (ops1 ++ ops2) m
  = match run ops1 m with Some m' => run ops2 m' | None => None end.
Proof.
  revert m. induction ops1 as [|o ops1 IH]; intros m; cbn; [done|].
  by destruct (step o m).
Qed.

Lemma run_storeOps s m m' :
  run (storeOps s) m = Some m' →
  ∃ v rest,
    computeStack m = v :: rest ∧ computeStack m' = v :: rest ∧
    if Symbol.isGlobal s then
      scratchSpace m' = setSlot (Symbol.position s) v (scratchSpace m)
    else
      ∃ sp, scratchSpace m 0 = VInt sp ∧
            scratchSpace m'
            = setSlot (N.to_nat (N.of_nat (Symbol.position s) + sp)) v
                      (scratchSpace m).
Proof.
  unfold storeOps. destruct m as [st sc]. intros H.
  destruct (Symbol.isGlobal s); cbn [run step computeStack scratchSpace] in H.
  - destruct st as [|v rest]; [discriminate|].
    cbn [run step computeStack scratchSpace] in H.
    case_decide; [|discriminate]. injection H as <-. by exists v, rest.
  - case_decide; [|discriminate]. cbn [run step computeStack scratchSpace] in H.
    case_decide; [|discriminate]. cbn [run step computeStack scratchSpace] in H.
    destruct (sc 0) as [sp|] eqn:Hsp; [|discriminate].
    case_decide; [|discriminate].
    cbn [run step computeStack scratchSpace lookup list_lookup] in H.
    destruct st as [|v rest]; [discriminate|].
    cbn [run step computeStack scratchSpace lookup list_lookup] in H.
    case_decide; [|discriminate]. injection H as <-. exists v, rest.
    split; [done|]. split; [done|]. by exists sp.
Qed.

Lemma run_storeOps_global s v rest sc :
  Symbol.isGlobal s = true → Symbol.position s < 256 →
  run (storeOps s) (mkMachine (v :: rest) sc)
  = Some (mkMachine (v :: rest) (setSlot (Symbol.position s) v sc)).
Proof.
  intros Hs Hp. unfold storeOps. rewrite Hs. cbn. by rewrite decide_True.
Qed.

Lemma run_storeOps_local s v rest sc sp :
  Symbol.isGlobal s = false → sc 0 = VInt sp →
  (N.of_nat (Symbol.position s) + sp < 256)%N →
  run (storeOps s) (mkMachine (v :: rest) sc)
  = Some (mkMachine (v :: rest)
            (setSlot (N.to_nat (N.of_nat (Symbol.position s) + sp)) v sc)).
Proof.
  intros Hs Hsp Hp. unfold storeOps. rewrite Hs.
  cbn [run step computeStack scratchSpace].
  rewrite decide_True by (unfold uint64Max; lia).
  cbn [run step computeStack scratchSpace]. rewrite decide_True by lia.
  cbn [run step computeStack scratchSpace]. rewrite Hsp.
  rewrite decide_True by (unfold uint64Max; lia).
  cbn [run step computeStack scratchSpace lookup list_lookup].
  by rewrite decide_True.
Qed.

Lemma run_storeOps_all l : ∀ m m',
  run (concat (map storeOps l)) m = Some m' →
  computeStack m' = computeStack m.
Proof.
  induction l as [|s l IH]; intros m m'; cbn [map concat].
  - by intros [= <-].
  - rewrite run_app. destruct (run (storeOps s) m) as [m1|] eqn:H1;
      [|discriminate].
    intros H. apply IH in H. rewrite H.
    apply run_storeOps in H1 as (v & rest & -> & -> & _). reflexivity.
Qed.

(** C6: an [assignment-statement] node that carries neither [symbol] nor
    [symbols] makes the generator fail with NoAssignmentTarget.  Otherwise
    the visitor emits the store sequence of its symbol, or of each of its
    [symbols] taken last first: [dup], [store <position>] for a global
    symbol, [int <position>], [load 0], [+], [dig 1], [stores] for a local
    one.  On the target machine either sequence, when it runs through,
    leaves the compute stack as it found it, with the assigned value on
    top, and has written that value to the slot of the symbol; it runs
    through whenever there is a value on the stack and the slot exists. *)
Theorem C6_assignment_code (sub : SubWalks) (n : ASTNode) (g : CodeGenerator) :
  (symbol n = None → symbols n = None →
     runHook (visitors sub "assignment-statement" ≫= post) n g
     = Err NoAssignmentTarget) ∧
  (∀ s, symbol n = Some s →
     runHook (visitors sub "assignment-statement" ≫= post) n g
     = Ok (n, emit (opLines (storeOps s))
                   (stackDepth (codeEmitter g) +
                    (if Symbol.isGlobal s then 0 else 2)) g)) ∧
  (∀ l, symbol n = None → symbols n = Some l →
     ∃ d, runHook (visitors sub "assignment-statement" ≫= post) n g
          = Ok (set_symbols (Some (rev l)) n,
                emit (concat (map (λ s, opLines (storeOps s)) (rev l))) d g)) ∧
  (∀ s, opLines (storeOps s)
        = if Symbol.isGlobal s then
            [Instruction "dup" None;
             Instruction ("store " +:+ pretty (Symbol.position s)) None]
          else
            [Instruction ("int " +:+ pretty (Symbol.position s)) None;
             Instruction "load 0" None; Instruction "+" None;
             Instruction "dig 1" None; Instruction "stores" None]) ∧
  (∀ s m m', run (storeOps s) m = Some m' →
     ∃ v rest,
       computeStack m = v :: rest ∧ computeStack m' = v :: rest ∧
       if Symbol.isGlobal s then
         scratchSpace m' = setSlot (Symbol.position s) v (scratchSpace m)
       else
         ∃ sp, scratchSpace m 0 = VInt sp ∧
               scratchSpace m'
               = setSlot (N.to_nat (N.of_nat (Symbol.position s) + sp)) v
                         (scratchSpace m)) ∧
  (∀ s v rest sc, Symbol.isGlobal s = true → Symbol.position s < 256 →
     run (storeOps s) (mkMachine (v :: rest) sc)
     = Some (mkMachine (v :: rest) (setSlot (Symbol.position s) v sc))) ∧
  (∀ s v rest sc sp, Symbol.isGlobal s = false → sc 0 = VInt sp →
     (N.of_nat (Symbol.position s) + sp < 256)%N →
     run (storeOps s) (mkMachine (v :: rest) sc)
     = Some (mkMachine (v :: rest)
               (setSlot (N.to_nat (N.of_nat (Symbol.position s) + sp)) v sc))) ∧
  (∀ l m m', run (concat (map storeOps l)) m = Some m' →
     computeStack m' = computeStack m).
Proof.
  split_and!.
  - cbn. intros -> ->. reflexivity.
  - cbn. intros s ->. unfold bind. by rewrite storeSymbol_lines.
  - cbn. intros l -> ->. unfold bind.
    destruct (storeSymbols_lines (rev l) g) as [d ->]. by exists d.
  - intros s. unfold storeOps. by destruct (Symbol.isGlobal s).
  - apply run_storeOps.
  - apply run_storeOps_global.
  - apply run_storeOps_local.
  - apply run_storeOps_all.
Qed.

(** [a = 1] on the local [a] at position 1, with the value 7 on the
    compute stack and the stack pointer at 200: the five lines are
    emitted, and run on the machine they store 7 in slot 201 and leave the
    stack as it was. *)
Lemma C6_assignment_code_witness :
  runHook (visitors noSubWalks "assignment-statement" ≫= post)
          (set_symbol (Some localA) (assignNode "a" (numberNode "1")))
          (emit [Instruction "int 1" None] 1 freshGenerator)
  = Ok (set_symbol (Some localA) (assignNode "a" (numberNode "1")),
        emit [Instruction "int 1" None; Instruction "load 0" None;
              Instruction "+" None; Instruction "dig 1" None;
              Instruction "stores" None] 3
             (emit [Instruction "int 1" None] 1 freshGenerator)) ∧
  ∃ m', run (storeOps localA) sampleMachine = Some m' ∧
        computeStack m' = [VInt 7] ∧ scratchSpace m' 201 = VInt 7.
Proof.
  pose proof (C6_assignment_code noSubWalks
                (set_symbol (Some localA) (assignNode "a" (numberNode "1")))
                (emit [Instruction "int 1" None] 1 freshGenerator))
    as (_ & Hlines & _ & _ & _ & _ & Hrun & _).
  split; [exact (Hlines localA eq_refl)|].
  eexists. split.
  - apply (Hrun localA (VInt 7) [] (scratchSpace sampleMachine) 200%N);
      [reflexivity | reflexivity | reflexivity].
  - split; reflexivity.
Defined.

(** The statement [a = 1;] leaves one value on the compute stack, and the
    generator emits three [pop]. *)
Example assignment_to_local_pops_three :
  emitted (internalGenerateCode assignLocal freshGenerator)
  = Ok [Instruction "int 1" None;
        Instruction "int 1" None; Instruction "load 0" None;
        Instruction "+" None; Instruction "dig 1" None;
        Instruction "stores" None;
        Instruction "pop" None; Instruction "pop" None; Instruction "pop" None].
Proof. reflexivity. Qed.

(** ** What a walk does to the generator *)

Lemma controlLine_mono lo hi lo' hi' l :
  lo' ≤ lo → hi ≤ hi' → controlLine lo hi l → controlLine lo' hi' l.
Proof.
  intros ? ?. destruct l; cbn; auto.
  intros (p & j & ? & ? & ->). exists p, j. repeat split; auto; lia.
Qed.

Lemma grows_refl lo g : grows lo g g.
Proof.
  repeat split; auto. exists []. by rewrite app_nil_r.
Qed.

Lemma grows_trans lo lo' g1 g2 g3 :
  lo ≤ lo' → grows lo g1 g2 → grows lo' g2 g3 → grows lo g1 g3.
Proof.
  intros Hlo (F1 & I1 & C1 & N1 & s1 & O1 & L1) (F2 & I2 & C2 & N2 & s2 & O2 & L2).
  repeat split; try congruence; try lia.
  exists (s1 ++ s2). split.
  - rewrite O2, O1. by rewrite app_assoc.
  - apply Forall_app_2.
    + eapply Forall_impl; [exact L1|]. intros l. apply controlLine_mono; lia.
    + eapply Forall_impl; [exact L2|]. intros l. apply controlLine_mono; lia.
Qed.

Lemma grows_emit lo l d g :
  Forall (controlLine lo (controlStatementId g)) l → grows lo g (emit l d g).
Proof. intros H. repeat split; auto. exists l. auto. Qed.

Lemma grows_mint lo g :
  grows lo g (set_controlStatementId (controlStatementId g + 1) g).
Proof.
  repeat split; cbn; auto; try lia. exists []. by rewrite app_nil_r.
Qed.

Lemma growing_ret {A} (a : A) : growing (ret a).
Proof. intros lo g a' g' _ [= <- <-]. apply grows_refl. Qed.

Lemma growing_throw {A} e : growing (@throw _ A e).
Proof. intros lo g a' g' _ [=]. Qed.

Lemma growing_gets {A} (f : CodeGenerator → A) : growing (gets f).
Proof. intros lo g a' g' _ [= <- <-]. apply grows_refl. Qed.

Lemma growing_bind {A B} (m : Gen A) (k : A → Gen B) :
  growing m → (∀ a, growing (k a)) → growing (bind m k).
Proof.
  intros Hm Hk lo g b g' Hlo (a & g1 & H1 & H2)%bind_Ok.
  pose proof (Hm lo g a g1 Hlo H1) as G1.
  eapply grows_trans; [reflexivity | exact G1 |].
  eapply Hk; [|exact H2]. destruct G1 as (_ & _ & _ & ? & _). lia.
Qed.

Lemma growing_add text pushed popped comment :
  growing (add text pushed popped comment).
Proof.
  intros lo g [] g' _ [_ ->]%add_inv. apply grows_emit. repeat constructor.
Qed.

Lemma growing_section title : growing (section title).
Proof.
  intros lo g [] g' _. rewrite section_eq. intros [= <-].
  apply grows_emit. repeat constructor.
Qed.

Lemma growing_resetStack : growing resetStack.
Proof.
  intros lo g [] g' _. rewrite resetStack_eq. intros [= <-].
  apply grows_emit. constructor.
Qed.

Lemma growing_popAll : growing popAll.
Proof.
  intros lo g [] g' _. rewrite popAll_eq. intros [= <-].
  apply grows_emit. apply Forall_replicate. exact I.
Qed.

Lemma growing_forEach (rec : ASTNode → Gen ASTNode) l :
  Forall (λ x, growing (rec x)) l → growing (forEach rec l).
Proof.
  induction 1 as [|x l Hx Hl IH]; cbn.
  - apply growing_ret.
  - apply growing_bind; [exact Hx|]. intros x'.
    apply growing_bind; [exact IH|]. intros l'. apply growing_ret.
Qed.

Lemma growing_walkList (rec : ASTNode → Gen ASTNode) l :
  Forall (λ x, growing (rec x)) (default [] l) → growing (walkList rec l).
Proof.
  destruct l as [l|]; cbn; intros H.
  - apply growing_bind; [by apply growing_forEach|]. intros. apply growing_ret.
  - apply growing_ret.
Qed.

Lemma growing_walkRequired (rec : ASTNode → Gen ASTNode) x :
  Forall (λ x, growing (rec x)) (option_list x) → growing (walkRequired rec x).
Proof.
  destruct x as [x|]; cbn; intros H.
  - apply growing_bind; [by inversion H|]. intros. apply growing_ret.
  - apply growing_throw.
Qed.

Lemma growing_walkOptional (rec : ASTNode → Gen ASTNode) x :
  Forall (λ x, growing (rec x)) (option_list x) → growing (walkOptional rec x).
Proof.
  destruct x as [x|]; cbn; intros H.
  - apply growing_bind; [by inversion H|]. intros. apply growing_ret.
  - apply growing_ret.
Qed.

Lemma growing_subWalks (rec : ASTNode → Gen ASTNode) n :
  Forall (λ x, growing (rec x)) (subnodes n) → growingWalks (subWalks rec n).
Proof.
  unfold subnodes. rewrite !Forall_app.
  intros (Hc & Hb & Hi & Ha & Hib & Heb & Hfa).
  unfold growingWalks. split_and!; cbn.
  - by apply growing_walkOptional.
  - by apply growing_walkRequired.
  - by apply growing_walkOptional.
  - by apply growing_walkRequired.
  - by apply growing_walkList.
Qed.

Lemma growing_growingFrom {A} k (m : Gen A) : growing m → growingFrom k m.
Proof. intros H lo g a g' ? ? Hm. eapply H; [lia | exact Hm]. Qed.

Lemma growingFrom_bind {A B} k (m : Gen A) (f : A → Gen B) :
  growingFrom k m → (∀ a, growingFrom k (f a)) → growingFrom k (bind m f).
Proof.
  intros Hm Hf lo g b g' Hlo Hk (a & g1 & H1 & H2)%bind_Ok.
  pose proof (Hm lo g a g1 Hlo Hk H1) as G1.
  eapply grows_trans; [reflexivity | exact G1 |].
  eapply Hf; [exact Hlo | | exact H2].
  destruct G1 as (_ & _ & _ & ? & _). lia.
Qed.

Lemma growingFrom_label k p comment :
  p ∈ controlPrefixes → growingFrom k (label (p +:+ pretty k) comment).
Proof.
  intros Hp lo g [] g' Hlo Hk. rewrite label_eq. intros [= <-].
  apply grows_emit. repeat constructor. exists p, k. auto.
Qed.

(** Minting a control id and using it for labels. *)
Lemma growing_mint {A} (f : nat → Gen A) :
  (∀ k, growingFrom k (f k)) →
  growing (modify (λ g, set_controlStatementId (controlStatementId g + 1) g) ;;
           let* k := gets controlStatementId in f k).
Proof.
  intros Hf lo g a g' Hlo H.
  apply bind_Ok in H as ([] & g1 & [= <-] & H).
  apply bind_Ok in H as (k & g2 & [= <- <-] & H).
  eapply grows_trans; [reflexivity | apply grows_mint |].
  eapply Hf; [| | exact H]; cbn; lia.
Qed.

Ltac growing_step :=
  first
    [ assumption
    | apply growing_ret | apply growing_throw | apply growing_gets
    | apply growing_add | apply growing_section
    | apply growing_resetStack | apply growing_popAll
    | apply growing_bind; [|intros ?] ].

Ltac growingFrom_step :=
  first
    [ apply growingFrom_label; unfold controlPrefixes; set_solver
    | apply growingFrom_bind; [|intros ?]
    | apply growing_growingFrom; growing_step ].

Lemma growing_storeSymbol s : growing (storeSymbol s).
Proof. unfold storeSymbol. case_match; repeat growing_step. Qed.

Lemma growing_storeSymbols l : growing (storeSymbols l).
Proof.
  induction l as [|s l IH]; cbn; [apply growing_ret|].
  apply growing_bind; [apply growing_storeSymbol | intros _; exact IH].
Qed.

Lemma growing_builtins sub fname b n :
  growingWalks sub → builtins sub fname = Some b → growing (b n).
Proof.
  intros (Hi & Hib & Heb & Hb & Hfa). unfold builtins, inheritedMember.
  repeat (case_match; [intros [= <-]; unfold genArgs;
                       repeat first [growing_step | case_match] |]).
  discriminate.
Qed.

Ltac visitor_cases :=
  unfold visitors;
  repeat match goal with
         | |- context [if String.eqb ?a ?b then _ else _] =>
             let E := fresh "E" in destruct (String.eqb a b) eqn:E
         end;
  cbn [mbind option_bind pre post runHook].

Lemma growing_pre sub nt n :
  growingWalks sub → growing (runHook (visitors sub nt ≫= pre) n).
Proof.
  intros (Hi & Hib & Heb & Hb & Hfa).
  visitor_cases; try (repeat first [growing_step | case_match]; fail).
  (* while-statement *)
  apply (growing_mint (λ k,
    label ("loop_start_" +:+
           js_num (nodeControlStatementId (set_nodeControlStatementId (Some k) n)))
          None ;;
    ret (set_nodeControlStatementId (Some k) n))).
  intros k. cbn. repeat growingFrom_step.
Qed.

Lemma pre_while_id sub n g n1 g1 :
  runHook (visitors sub "while-statement" ≫= pre) n g = Ok (n1, g1) →
  nodeControlStatementId n1 = Some (controlStatementId g1) ∧
  controlStatementId g1 = controlStatementId g + 1 ∧
  children n1 = children n.
Proof. cbn. intros [= <- <-]. cbn. auto. Qed.

Lemma growing_post sub nt n :
  growingWalks sub → nt ≠ "while-statement" →
  growing (runHook (visitors sub nt ≫= post) n).
Proof.
  intros Hsub Hnt. pose proof Hsub as (Hi & Hib & Heb & Hb & Hfa).
  visitor_cases;
    try (repeat first [growing_step | apply growing_storeSymbol
                      | apply growing_storeSymbols | case_match]; fail).
  - (* if-statement *)
    apply (growing_mint (λ k,
      let node := set_nodeControlStatementId (Some k) n in
      add ("bz else_" +:+ js_num (nodeControlStatementId node)) 0 1 None ;;
      let* b := walk_ifBlock sub in
      let node := set_ifBlock b node in
      add ("b end_" +:+ js_num (nodeControlStatementId node)) 0 0 None ;;
      label ("else_" +:+ js_num (nodeControlStatementId node)) None ;;
      let* b := walk_elseBlock sub in
      let node := set_elseBlock b node in
      label ("end_" +:+ js_num (nodeControlStatementId node)) None ;;
      ret node)).
    intros k. cbn. repeat growingFrom_step.
  - (* while-statement *)
    match goal with
    | H : String.eqb _ "while-statement" = true |- _ =>
        apply String.eqb_eq in H; contradiction
    end.
  - (* function-call *)
    case_match eqn:Eb.
    + eapply growing_builtins; eauto.
    + repeat growing_step.
Qed.

Lemma growingFrom_post_while sub n k :
  growingWalks sub → nodeControlStatementId n = Some k →
  growingFrom k (runHook (visitors sub "while-statement" ≫= post) n).
Proof.
  intros (Hi & Hib & Heb & Hb & Hfa) Hk. cbn. rewrite Hk. cbn.
  case_match; repeat growingFrom_step.
Qed.

Lemma internalGenerateCode_eq n :
  internalGenerateCode n
  = (let visitor := visitors (subWalks internalGenerateCode n) (nodeType n) in
     let* node1 := runHook (visitor ≫= pre) n in
     let* c := walkList internalGenerateCode (children n) in
     runHook (visitor ≫= post) (set_children c node1)).
Proof. destruct n; reflexivity. Qed.

(** Every walk grows the generator: the lines it appends define only
    labels of control statements, with ids minted during the walk. *)
Lemma internalGenerateCode_growing n : growing (internalGenerateCode n).
Proof.
  induction n as [n IH] using ASTNode_ind.
  pose proof (growing_subWalks internalGenerateCode n IH) as Hsub.
  assert (Hch : growing (walkList internalGenerateCode (children n))).
  { apply growing_walkList. unfold subnodes in IH.
    by apply Forall_app in IH as [? _]. }
  rewrite internalGenerateCode_eq. cbv zeta.
  destruct (decide (nodeType n = "while-statement")) as [Hw|Hw].
  - rewrite Hw. intros lo g n' g' Hlo H.
    apply bind_Ok in H as (n1 & g1 & H1 & H).
    apply bind_Ok in H as (c & g2 & H2 & H3).
    pose proof (growing_pre _ "while-statement" n Hsub lo g n1 g1 Hlo H1) as G1.
    apply pre_while_id in H1 as (Hid & Hctr & _).
    assert (G2 : grows lo g1 g2) by (eapply Hch; [lia | exact H2]).
    eapply grows_trans; [reflexivity | exact G1 |].
    eapply grows_trans; [reflexivity | exact G2 |].
    eapply (growingFrom_post_while _ (set_children c n1)
              (controlStatementId g1));
      [exact Hsub | exact Hid | lia | | exact H3].
    destruct G2 as (_ & _ & _ & ? & _). lia.
  - apply growing_bind; [by apply growing_pre|]. intros n1.
    apply growing_bind; [exact Hch|]. intros c.
    by apply growing_post.
Qed.

(** ** Labels of control statements *)

Lemma labelCount_app nm l1 l2 :
  labelCount nm (l1 ++ l2) = labelCount nm l1 + labelCount nm l2.
Proof. unfold labelCount. by rewrite filter_app, length_app. Qed.

Lemma labelCount_cons nm l ls :
  labelCount nm (l :: ls)
  = (if isLabel nm l then 1 else 0) + labelCount nm ls.
Proof.
  unfold labelCount. rewrite filter_cons.
  destruct (isLabel nm l); case_decide; cbn; congruence.
Qed.

Lemma control_label_inj p p' (j k : nat) :
  p ∈ controlPrefixes → p' ∈ controlPrefixes →
  p +:+ pretty j = p' +:+ pretty k → p = p' ∧ j = k.
Proof.
  unfold controlPrefixes. rewrite !elem_of_cons, !elem_of_nil.
  intros [->|[->|[->|[->|[]]]]] [->|[->|[->|[->|[]]]]] H;
    cbn in H; simplify_eq; split; try reflexivity;
    by apply (inj pretty).
Qed.

Lemma labelCount_control p (k : nat) lo hi seg :
  p ∈ controlPrefixes → Forall (controlLine lo hi) seg →
  k ≤ lo ∨ hi < k → labelCount (p +:+ pretty k) seg = 0.
Proof.
  intros Hp Hseg Hk. induction Hseg as [|l seg Hl _ IH]; [reflexivity|].
  rewrite labelCount_cons, IH.
  destruct l as [| nm c |]; cbn; try reflexivity.
  case_bool_decide as E; [|reflexivity]. exfalso.
  destruct Hl as (p' & j & Hp' & Hj & ->).
  apply control_label_inj in E as [_ ->]; auto. lia.
Qed.

Ltac eval_visitor_in H :=
  cbv beta iota zeta delta
    [visitors String.eqb Ascii.eqb Bool.eqb mbind option_bind pre post runHook]
    in H.

Lemma growing_emits {A} (m : Gen A) g a g' :
  growing m → m g = Ok (a, g') →
  ∃ seg, emits m g seg g' ∧
         Forall (controlLine (controlStatementId g) (controlStatementId g')) seg ∧
         controlStatementId g ≤ controlStatementId g'.
Proof.
  intros Hm H.
  destruct (Hm (controlStatementId g) g a g' (le_n _) H)
    as (_ & _ & _ & Hc & seg & Ho & Hl).
  exists seg. unfold emits. eauto 6.
Qed.

(** The lines of an [if-statement] node: the code of the condition,
    [bz else_k], the code of the ifBlock, [b end_k], the label [else_k],
    the code of the elseBlock when there is one, the label [end_k], for the
    id [k] minted after the condition; among them each of the two labels
    is defined once. *)
Lemma if_statement_inv (n : ASTNode) (g : CodeGenerator)
    (n' : ASTNode) (g' : CodeGenerator) :
  nodeType n = "if-statement" →
  internalGenerateCode n g = Ok (n', g') →
  ∃ condLines ifLines elseLines g1 g3 g5,
    let k := controlStatementId g1 + 1 in
    let g2 := emit [Instruction ("bz else_" +:+ pretty k) None]
                   (stackDepth (codeEmitter g1) - 1)
                   (set_controlStatementId k g1) in
    let g4 := emit [Instruction ("b end_" +:+ pretty k) None;
                    Label ("else_" +:+ pretty k) None]
                   (stackDepth (codeEmitter g3)) g3 in
    let lines :=
      condLines ++ [Instruction ("bz else_" +:+ pretty k) None] ++
      ifLines ++ [Instruction ("b end_" +:+ pretty k) None;
                  Label ("else_" +:+ pretty k) None] ++
      elseLines ++ [Label ("end_" +:+ pretty k) None] in
    emits (walkList internalGenerateCode (children n)) g condLines g1 ∧
    emits (walkRequired internalGenerateCode (ifBlock n)) g2 ifLines g3 ∧
    emits (walkOptional internalGenerateCode (elseBlock n)) g4 elseLines g5 ∧
    g' = emit [Label ("end_" +:+ pretty k) None] (stackDepth (codeEmitter g5)) g5 ∧
    nodeControlStatementId n' = Some k ∧
    controlStatementId g < k ∧
    output (codeEmitter g') = output (codeEmitter g) ++ lines ∧
    labelCount ("else_" +:+ pretty k) lines = 1 ∧
    labelCount ("end_" +:+ pretty k) lines = 1.
Proof.
  intros Hnt H.
  assert (Hrec : ∀ x, growing (internalGenerateCode x))
    by apply internalGenerateCode_growing.
  assert (HrecL : ∀ l, Forall (λ x, growing (internalGenerateCode x)) l)
    by (intros l; apply Forall_forall; auto).
  rewrite internalGenerateCode_eq in H. rewrite Hnt in H. eval_visitor_in H.
  apply bind_Ok in H as (? & ? & [= <- <-] & H).
  apply bind_Ok in H as (c & g1 & Hc & H).
  apply bind_Ok in H as ([] & ? & [= <-] & H).
  apply bind_Ok in H as (k & ? & [= <- <-] & H).
  cbn [nodeControlStatementId set_nodeControlStatementId set_ifBlock
       set_elseBlock js_num controlStatementId set_controlStatementId] in H.
  apply bind_Ok in H as ([] & g2 & [Hd ->]%add_inv & H).
  apply bind_Ok in H as (b & g3 & Hib & H).
  apply bind_Ok in H as ([] & ? & [_ ->]%add_inv & H).
  apply bind_Ok in H as ([] & ? & Hl & H).
  rewrite label_eq, emit_emit in Hl. injection Hl as <-.
  apply bind_Ok in H as (b0 & g5 & Heb & H).
  apply bind_Ok in H as ([] & ? & Hl & [= <- <-]).
  rewrite label_eq in Hl. injection Hl as <-.
  cbn [walk_ifBlock walk_elseBlock subWalks] in Hib, Heb.
  cbn [app stackDepth codeEmitter emit set_codeEmitter set_controlStatementId]
    in Hib, Heb, Hd.
  rewrite Nat.add_0_r in Hib.
  rewrite Nat.add_0_r, Nat.sub_0_r in Heb.
  apply growing_emits in Hc as (condLines & Ec & Lc & Nc);
    [|by apply growing_walkList].
  apply growing_emits in Hib as (ifLines & Ei & Li & Ni);
    [|by apply growing_walkRequired].
  apply growing_emits in Heb as (elseLines & Ee & Le & Ne);
    [|by apply growing_walkOptional].
  cbn in Li, Ni, Le, Ne.
  exists condLines, ifLines, elseLines, g1, g3, g5. cbv zeta.
  split_and!.
  - exact Ec.
  - exact Ei.
  - exact Ee.
  - reflexivity.
  - reflexivity.
  - lia.
  - destruct Ec as [_ Ec], Ei as [_ Ei], Ee as [_ Ee].
    cbn in Ei, Ee |- *. rewrite Ee, Ei, Ec.
    by rewrite <- !app_assoc.
  - rewrite !labelCount_app, !labelCount_cons.
    rewrite (labelCount_control "else_" _ _ _ condLines ltac:(set_solver) Lc)
      by lia.
    rewrite (labelCount_control "else_" _ _ _ ifLines ltac:(set_solver) Li)
      by lia.
    rewrite (labelCount_control "else_" _ _ _ elseLines ltac:(set_solver) Le)
      by lia.
    cbn. rewrite bool_decide_eq_true_2 by reflexivity.
    rewrite bool_decide_eq_false_2; [reflexivity|].
    intros E. cbn in E. simplify_eq.
  - rewrite !labelCount_app, !labelCount_cons.
    rewrite (labelCount_control "end_" _ _ _ condLines ltac:(set_solver) Lc)
      by lia.
    rewrite (labelCount_control "end_" _ _ _ ifLines ltac:(set_solver) Li)
      by lia.
    rewrite (labelCount_control "end_" _ _ _ elseLines ltac:(set_solver) Le)
      by lia.
    cbn. rewrite bool_decide_eq_false_2;
      [by rewrite bool_decide_eq_true_2 by reflexivity|].
    intros E. cbn in E. simplify_eq.
Qed.

(** ** The code of a function *)

Lemma stackDepth_emit l d g : stackDepth (codeEmitter (emit l d g)) = d.
Proof. reflexivity. Qed.

Lemma output_emit l d g :
  output (codeEmitter (emit l d g)) = output (codeEmitter g) ++ l.
Proof. reflexivity. Qed.

Ltac gen_step H :=
  let Hx := fresh "Hx" in
  let gx := fresh "g" in
  let ax := fresh "a" in
  match type of H with
  | bind (add _ _ _ _) _ _ = Ok _ =>
      apply bind_Ok in H as ([] & gx & Hx & H);
      apply add_inv in Hx as [_ ->]
  | bind (label _ _) _ _ = Ok _ =>
      apply bind_Ok in H as ([] & gx & Hx & H);
      rewrite label_eq in Hx; injection Hx as <-
  | bind (section _) _ _ = Ok _ =>
      apply bind_Ok in H as ([] & gx & Hx & H);
      rewrite section_eq in Hx; injection Hx as <-
  | bind (modify _) _ _ = Ok _ =>
      apply bind_Ok in H as ([] & gx & [= <-] & H)
  | bind (gets _) _ _ = Ok _ =>
      apply bind_Ok in H as (ax & gx & [= <- <-] & H)
  end;
  rewrite ?stackDepth_emit, ?emit_emit in H.

Section FunctionCode.

Variable tables : TableStore.

Lemma storeParams_inv sc l g u g' :
  storeParams tables sc l g = Ok (u, g') →
  ∃ syms d, lookupAll tables sc l syms ∧
            g' = emit (paramsStoreLines l syms) d g.
Proof.
  revert g. induction l as [|p l IH]; intros g; cbn [storeParams].
  - intros [= <- <-]. exists [], (stackDepth (codeEmitter g)).
    split; [constructor|]. unfold emit, paramsStoreLines; cbn.
    rewrite app_nil_r. by destruct g as [? ? ? ? []].
  - destruct (SymbolTable.get tables sc p) as [s|] eqn:Hs; [|discriminate].
    intros H. do 4 gen_step H.
    apply IH in H as (syms & d & Hl & ->).
    exists (s :: syms), d. split; [by constructor|].
    rewrite !emit_emit. reflexivity.
Qed.

Lemma storeParams_Ok sc l syms g :
  lookupAll tables sc l syms →
  ∃ d, storeParams tables sc l g = Ok (tt, emit (paramsStoreLines l syms) d g).
Proof.
  intros Hl. revert g. induction Hl as [|p s l syms Hs _ IH]; intros g;
    cbn [storeParams].
  - exists (stackDepth (codeEmitter g)). unfold emit, paramsStoreLines; cbn.
    rewrite app_nil_r. by destruct g as [? ? ? ? []].
  - rewrite Hs. rewrite !bind_add_Ok by (cbn; lia).
    match goal with
    | |- context [storeParams _ _ _ ?g1] => destruct (IH g1) as (d & ->)
    end.
    exists d. rewrite !emit_emit. reflexivity.
Qed.

Lemma lookupAll_rev sc l syms :
  lookupAll tables sc l syms → lookupAll tables sc (rev l) (rev syms).
Proof. unfold lookupAll. rewrite !rev_alt. apply Forall2_reverse. Qed.

(** What a successful [generateFunctionCode] has done. *)
Lemma generateFunctionCode_inv f g f' g' :
  generateFunctionCode tables f g = Ok (f', g') →
  ∃ sc n syms b b' d1 g2,
    scope f = Some sc ∧ SymbolTable.getNumSymbols tables sc = Ok n ∧
    lookupAll tables sc (default [] (params f)) syms ∧
    body f = Some b ∧
    internalGenerateCode b
      (emit (frameSetupLines (js_str (name f)) n ++
             setupArgumentsLines (params f) syms ++
             [SectionBreak (Some "Function body.")])
            d1 (set_curFunction (Some f) g))
    = Ok (b', g2) ∧
    g' = emit (cleanupLines (js_str (name f))) (stackDepth (codeEmitter g2)) g2 ∧
    f' = set_body (Some b') (set_params (@rev string <$> params f) f).
Proof.
  unfold generateFunctionCode. intros H.
  do 6 gen_step H.
  destruct (scope f) as [sc|] eqn:Hsc; [|discriminate].
  destruct (SymbolTable.getNumSymbols tables sc) as [n|] eqn:Hn; [|discriminate].
  cbv beta iota in H. do 8 gen_step H.
  apply bind_Ok in H as (f1 & g1 & Hp & H).
  gen_step H.
  apply bind_Ok in H as (b1 & g2 & Hb & H).
  do 5 gen_step H. injection H as <- <-.
  assert (∃ syms d1,
    lookupAll tables sc (default [] (params f)) syms ∧
    f1 = set_params (@rev string <$> params f) f ∧
    g1 = emit (frameSetupLines (js_str (name f)) n ++
               setupArgumentsLines (params f) syms) d1
              (set_curFunction (Some f) g)) as (syms & d1 & Hl & -> & ->).
  { destruct (params f) as [ps|] eqn:Hps; cbn [fmap option_fmap option_map default].
    - gen_step Hp.
      apply bind_Ok in Hp as ([] & gp & Hs & Hp).
      apply storeParams_inv in Hs as (syms & d & Hl & ->).
      injection Hp as <- <-.
      exists (rev syms), d. split.
      { apply lookupAll_rev in Hl. by rewrite rev_involutive in Hl. }
      split; [reflexivity|].
      rewrite ?emit_emit. cbn [setupArgumentsLines].
      rewrite rev_involutive, <- ?app_assoc. reflexivity.
    - injection Hp as <- <-. eexists [], _. split; [constructor|].
      split.
      { destruct f; cbn in Hps; subst; reflexivity. }
      cbn [setupArgumentsLines]. rewrite app_nil_r. reflexivity. }
  cbn [body set_params] in Hb.
  destruct (body f) as [b|] eqn:Hbody; [|discriminate].
  cbn [walkRequired] in Hb. apply bind_Ok in Hb as (b' & gb & Hb & Hr).
  injection Hr as <- <-.
  rewrite emit_emit, <- app_assoc in Hb.
  eexists sc, n, syms, b, b', _, gb.
  split_and!; try done.
  unfold cleanupLines. cbn [name set_body set_params]. f_equal. lia.
Qed.

Lemma paramsStoreLines_rev ps syms :
  length ps = length syms →
  paramsStoreLines (rev ps) (rev syms)
  = concat (rev (zip_with paramStoreLines ps syms)).
Proof.
  unfold paramsStoreLines. intros Hlen. f_equal.
  revert syms Hlen. induction ps as [|p ps IH]; intros [|s syms] Hlen;
    try discriminate; [reflexivity|].
  cbn. rewrite zip_with_app by (rewrite !length_rev; cbn in Hlen; lia).
  rewrite IH by (cbn in Hlen; lia). reflexivity.
Qed.

(** C4: when [generateFunctionCode] succeeds on a function node with the
    parameter list [ps], every parameter has been found in the function's
    scope, and the lines appended are: the label and the stack-frame
    allocation, the section header of the arguments, then for each
    parameter, the last declared first, [int <position>], [load 0], [+],
    [stores], then the section header of the body, the code of the body,
    and the cleanup. *)
Theorem C4_parameters_stored_in_reverse (f : ASTNode) (ps : list string)
    (g : CodeGenerator) (f' : ASTNode) (g' : CodeGenerator) :
  params f = Some ps →
  generateFunctionCode tables f g = Ok (f', g') →
  ∃ sc n syms b g1 bodyLines g2,
    scope f = Some sc ∧
    SymbolTable.getNumSymbols tables sc = Ok n ∧
    lookupAll tables sc ps syms ∧
    body f = Some b ∧
    output (codeEmitter g1)
    = output (codeEmitter g) ++
      frameSetupLines (js_str (name f)) n ++
      [SectionBreak (Some "Setup arguments.")] ++
      concat (rev (zip_with paramStoreLines ps syms)) ++
      [SectionBreak (Some "Function body.")] ∧
    emits (internalGenerateCode b) g1 bodyLines g2 ∧
    output (codeEmitter g')
    = output (codeEmitter g1) ++ bodyLines ++ cleanupLines (js_str (name f)).
Proof.
  intros Hps H.
  apply generateFunctionCode_inv in H
    as (sc & n & syms & b & b' & d1 & g2 & Hsc & Hn & Hl & Hb & Hg & -> & _).
  rewrite Hps in Hl, Hg. cbn [default setupArgumentsLines] in Hl, Hg.
  rewrite paramsStoreLines_rev in Hg by (eapply Forall2_length, Hl).
  pose proof Hg as Hg'.
  apply growing_emits in Hg' as (bodyLines & Hemits & _);
    [|apply internalGenerateCode_growing].
  eexists sc, n, syms, b, _, bodyLines, g2.
  split_and!; try done.
  - reflexivity.
  - destruct Hemits as [_ Ho]. rewrite output_emit, Ho.
    by rewrite <- app_assoc.
Qed.

End FunctionCode.

(** [function f(a, b) { return 1; }]: [b] is stored before [a]. *)
Lemma C4_parameters_stored_in_reverse_witness :
  params sampleFunction = Some ["a"; "b"] ∧
  ∃ f' g' sc n syms b g1 bodyLines g2,
    generateFunctionCode sampleTables sampleFunction freshGenerator
    = Ok (f', g') ∧
    scope sampleFunction = Some sc ∧
    SymbolTable.getNumSymbols sampleTables sc = Ok n ∧
    lookupAll sampleTables sc ["a"; "b"] syms ∧
    body sampleFunction = Some b ∧
    output (codeEmitter g1)
    = output (codeEmitter freshGenerator) ++
      frameSetupLines (js_str (name sampleFunction)) n ++
      [SectionBreak (Some "Setup arguments.")] ++
      concat (rev (zip_with paramStoreLines ["a"; "b"] syms)) ++
      [SectionBreak (Some "Function body.")] ∧
    emits (internalGenerateCode b) g1 bodyLines g2 ∧
    output (codeEmitter g')
    = output (codeEmitter g1) ++ bodyLines ++
      cleanupLines (js_str (name sampleFunction)).
Proof.
  split; [reflexivity|].
  destruct (generateFunctionCode sampleTables sampleFunction freshGenerator)
    as [[f' g']|e] eqn:E; [|vm_compute in E; discriminate].
  destruct (C4_parameters_stored_in_reverse sampleTables sampleFunction
              ["a"; "b"] freshGenerator f' g' eq_refl E)
    as (sc & n & syms & b & g1 & bodyLines & g2 & H).
  exists f', g', sc, n, syms, b, g1, bodyLines, g2.
  split; [reflexivity | exact H].
Defined.

(** ** Further properties of the walk *)

(** X1: a walk never touches the lines emitted before it, [functions],
    [inFunction] or [curFunction]; the control counter does not decrease;
    and every label among the lines it appends is a control label
    ([else_], [end_], [loop_start_], [loop_end_] and an id) whose id was
    minted during the walk. *)
Theorem walk_appends_fresh_control_labels (n : ASTNode) (g : CodeGenerator)
    (n' : ASTNode) (g' : CodeGenerator) :
  internalGenerateCode n g = Ok (n', g') →
  functions g' = functions g ∧
  inFunction g' = inFunction g ∧
  curFunction g' = curFunction g ∧
  controlStatementId g ≤ controlStatementId g' ∧
  ∃ seg, output (codeEmitter g') = output (codeEmitter g) ++ seg ∧
         Forall (controlLine (controlStatementId g) (controlStatementId g')) seg.
Proof.
  intros H.
  exact (internalGenerateCode_growing n (controlStatementId g) g n' g'
           (le_n _) H).
Qed.

Lemma walk_appends_fresh_control_labels_witness :
  ∃ n' g',
    internalGenerateCode sampleIf freshGenerator = Ok (n', g') ∧
    controlStatementId freshGenerator ≤ controlStatementId g' ∧
    ∃ seg, output (codeEmitter g') = output (codeEmitter freshGenerator) ++ seg ∧
           Forall (controlLine (controlStatementId freshGenerator)
                               (controlStatementId g')) seg.
Proof.
  destruct (internalGenerateCode sampleIf freshGenerator) as [[n' g']|e] eqn:E;
    [|vm_compute in E; discriminate].
  exists n', g'. split; [reflexivity|].
  destruct (walk_appends_fresh_control_labels sampleIf freshGenerator n' g' E)
    as (_ & _ & _ & Hc & Hseg).
  split; [exact Hc | exact Hseg].
Defined.

Lemma forEach_length {S} (f : ASTNode → M S ASTNode) l s l' s' :
  forEach f l s = Ok (l', s') → length l' = length l.
Proof.
  revert s l'. induction l as [|x l IH]; intros s l'; cbn.
  - by intros [= <- <-].
  - intros H. apply bind_Ok in H as (x' & s1 & _ & H).
    apply bind_Ok in H as (l'' & s2 & Hl & [= <- <-]).
    cbn. f_equal. eapply IH, Hl.
Qed.

(** X2: a [while-statement] node mints its control id [k] before its
    condition is compiled, and the lines of its compilation are: the label
    [loop_start_k], the code of the condition (the children), [bz
    loop_end_k] (declared as popping one value when there is a condition,
    none otherwise), the code of the body, [b loop_start_k], the label
    [loop_end_k]; among these lines each label is defined exactly once. *)
Theorem while_statement_code (n : ASTNode) (g : CodeGenerator)
    (n' : ASTNode) (g' : CodeGenerator) :
  nodeType n = "while-statement" →
  internalGenerateCode n g = Ok (n', g') →
  ∃ c condLines bodyLines g1 g3,
    let k := controlStatementId g + 1 in
    let g0 := emit [Label ("loop_start_" +:+ pretty k) None]
                   (stackDepth (codeEmitter g)) (set_controlStatementId k g) in
    let popped := if decide (0 < length c) then 1 else 0 in
    let g2 := emit [Instruction ("bz loop_end_" +:+ pretty k) None]
                   (stackDepth (codeEmitter g1) - popped) g1 in
    let lines :=
      [Label ("loop_start_" +:+ pretty k) None] ++ condLines ++
      [Instruction ("bz loop_end_" +:+ pretty k) None] ++ bodyLines ++
      [Instruction ("b loop_start_" +:+ pretty k) None;
       Label ("loop_end_" +:+ pretty k) None] in
    children n = Some c ∧
    emits (walkList internalGenerateCode (children n)) g0 condLines g1 ∧
    popped ≤ stackDepth (codeEmitter g1) ∧
    emits (walkRequired internalGenerateCode (body n)) g2 bodyLines g3 ∧
    g' = emit [Instruction ("b loop_start_" +:+ pretty k) None;
               Label ("loop_end_" +:+ pretty k) None]
              (stackDepth (codeEmitter g3)) g3 ∧
    nodeControlStatementId n' = Some k ∧
    output (codeEmitter g') = output (codeEmitter g) ++ lines ∧
    labelCount ("loop_start_" +:+ pretty k) lines = 1 ∧
    labelCount ("loop_end_" +:+ pretty k) lines = 1.
Proof.
  intros Hnt H.
  assert (Hrec : ∀ x, growing (internalGenerateCode x))
    by apply internalGenerateCode_growing.
  assert (HrecL : ∀ l, Forall (λ x, growing (internalGenerateCode x)) l)
    by (intros l; apply Forall_forall; auto).
  rewrite internalGenerateCode_eq in H. rewrite Hnt in H. eval_visitor_in H.
  apply bind_Ok in H as (n1 & g0 & H0 & H).
  apply bind_Ok in H0 as ([] & gm & [= <-] & H0).
  apply bind_Ok in H0 as (k & gm' & [= <- <-] & H0).
  apply bind_Ok in H0 as ([] & gl & Hl & [= <- <-]).
  rewrite label_eq in Hl. injection Hl as <-.
  apply bind_Ok in H as (c' & g1 & Hc & H).
  cbn [children set_children set_nodeControlStatementId nodeControlStatementId
       js_num controlStatementId set_controlStatementId] in H, Hc.
  destruct c' as [c'|]; [|discriminate].
  destruct (children n) as [c|] eqn:Hch; [|discriminate].
  assert (Hlen : length c' = length c).
  { cbn in Hc. apply bind_Ok in Hc as (l' & s1 & Hf & [= <- <-]).
    eapply forEach_length, Hf. }
  rewrite Hlen in H.
  apply bind_Ok in H as ([] & g2 & [Hd ->]%add_inv & H).
  apply bind_Ok in H as (b & g3 & Hb & H).
  cbn [set_body nodeControlStatementId js_num] in H.
  apply bind_Ok in H as ([] & g4 & [_ ->]%add_inv & H).
  apply bind_Ok in H as ([] & g5 & Hl & [= <- <-]).
  rewrite label_eq, emit_emit in Hl. injection Hl as <-.
  cbn [walk_body subWalks] in Hb.
  cbn [stackDepth codeEmitter emit set_codeEmitter set_controlStatementId]
    in Hc, Hb, Hd.
  rewrite Nat.add_0_r in Hb.
  rewrite Nat.add_0_r, Nat.sub_0_r.
  apply growing_emits in Hc as (condLines & Ec & Lc & Nc);
    [|by apply (growing_walkList _ (Some c))].
  apply growing_emits in Hb as (bodyLines & Eb & Lb & Nb);
    [|by apply growing_walkRequired].
  cbn in Lc, Nc, Lb, Nb.
  exists c, condLines, bodyLines, g1, g3. cbv zeta.
  split_and!.
  - reflexivity.
  - exact Ec.
  - exact Hd.
  - exact Eb.
  - reflexivity.
  - reflexivity.
  - destruct Ec as [_ Ec], Eb as [_ Eb].
    rewrite output_emit, Eb, output_emit, Ec, output_emit.
    cbn [output codeEmitter set_controlStatementId].
    by rewrite <- !app_assoc.
  - rewrite !labelCount_app, !labelCount_cons.
    rewrite (labelCount_control "loop_start_" _ _ _ condLines
               ltac:(set_solver) Lc) by lia.
    rewrite (labelCount_control "loop_start_" _ _ _ bodyLines
               ltac:(set_solver) Lb) by lia.
    cbn. rewrite bool_decide_eq_true_2 by reflexivity.
    rewrite bool_decide_eq_false_2; [reflexivity|].
    intros E. cbn in E. simplify_eq.
  - rewrite !labelCount_app, !labelCount_cons.
    rewrite (labelCount_control "loop_end_" _ _ _ condLines
               ltac:(set_solver) Lc) by lia.
    rewrite (labelCount_control "loop_end_" _ _ _ bodyLines
               ltac:(set_solver) Lb) by lia.
    cbn. rewrite bool_decide_eq_false_2;
      [by rewrite bool_decide_eq_true_2 by reflexivity|].
    intros E. cbn in E. simplify_eq.
Qed.

Lemma while_statement_code_witness :
  nodeType sampleWhile = "while-statement" ∧
  ∃ n' g',
    internalGenerateCode sampleWhile freshGenerator = Ok (n', g') ∧
    nodeControlStatementId n' = Some 1 ∧
    labelCount "loop_start_1" (output (codeEmitter g')) = 1.
Proof.
  split; [reflexivity|].
  destruct (internalGenerateCode sampleWhile freshGenerator)
    as [[n' g']|e] eqn:E; [|vm_compute in E; discriminate].
  destruct (while_statement_code sampleWhile freshGenerator n' g' eq_refl E)
    as (c & cl & bl & g1 & g3 & _ & _ & _ & _ & _ & Hk & Ho & Hc & _).
  exists n', g'. split; [reflexivity|]. split; [exact Hk|].
  rewrite Ho. exact Hc.
Defined.

(** X3: an [expr-statement] node is compiled from logical depth 0 whatever
    the depth before it: its lines are the code of its children, compiled
    from depth 0, followed by one [pop] per value that code is counted to
    leave; the depth after the statement is 0. *)
Theorem expr_statement_drains_stack (n : ASTNode) (g : CodeGenerator)
    (n' : ASTNode) (g' : CodeGenerator) :
  nodeType n = "expr-statement" →
  internalGenerateCode n g = Ok (n', g') →
  ∃ lines g1,
    emits (walkList internalGenerateCode (children n)) (emit [] 0 g) lines g1 ∧
    output (codeEmitter g')
    = output (codeEmitter g) ++ lines ++
      replicate (stackDepth (codeEmitter g1)) (Instruction "pop" None) ∧
    stackDepth (codeEmitter g') = 0.
Proof.
  intros Hnt H.
  rewrite internalGenerateCode_eq in H. rewrite Hnt in H. eval_visitor_in H.
  apply bind_Ok in H as (n1 & g0 & H0 & H).
  apply bind_Ok in H0 as ([] & gr & Hr & [= <- <-]).
  rewrite resetStack_eq in Hr. injection Hr as <-.
  apply bind_Ok in H as (c & g1 & Hc & H).
  apply bind_Ok in H as ([] & gp & Hp & [= <- <-]).
  rewrite popAll_eq in Hp. injection Hp as <-.
  pose proof Hc as Hc'.
  apply growing_emits in Hc' as (lines & Ec & _ & _).
  2:{ apply growing_walkList, Forall_forall. intros.
      apply internalGenerateCode_growing. }
  exists lines, g1. split_and!; [exact Ec | | reflexivity].
  destruct Ec as [_ Ec]. rewrite output_emit, Ec, output_emit.
  by rewrite app_nil_r, <- app_assoc.
Qed.

Lemma expr_statement_drains_stack_witness :
  nodeType (exprStatement (numberNode "2")) = "expr-statement" ∧
  ∃ n' g',
    internalGenerateCode (exprStatement (numberNode "2"))
                         (emit [] 5 freshGenerator) = Ok (n', g') ∧
    stackDepth (codeEmitter g') = 0.
Proof.
  split; [reflexivity|].
  destruct (internalGenerateCode (exprStatement (numberNode "2"))
                                 (emit [] 5 freshGenerator))
    as [[n' g']|e] eqn:E; [|vm_compute in E; discriminate].
  destruct (expr_statement_drains_stack (exprStatement (numberNode "2"))
              (emit [] 5 freshGenerator) n' g' eq_refl E)
    as (lines & g1 & _ & _ & Hd).
  exists n', g'. split; [reflexivity | exact Hd].
Defined.

(** X4: a [declare-variable] node is compiled from logical depth 0; the
    code of its initializer, when it has one, comes after the code of its
    children, and is followed by [pop] instructions only: the value of the
    initializer is dropped, no store into the variable is emitted, and the
    depth after the declaration is 0. *)
Theorem declare_variable_drops_initializer (n : ASTNode) (g : CodeGenerator)
    (n' : ASTNode) (g' : CodeGenerator) :
  nodeType n = "declare-variable" →
  internalGenerateCode n g = Ok (n', g') →
  ∃ childLines initLines g1 g2,
    emits (walkList internalGenerateCode (children n)) (emit [] 0 g)
          childLines g1 ∧
    emits (walkOptional internalGenerateCode (initializer n)) g1 initLines g2 ∧
    output (codeEmitter g')
    = output (codeEmitter g) ++ childLines ++ initLines ++
      replicate (stackDepth (codeEmitter g2)) (Instruction "pop" None) ∧
    stackDepth (codeEmitter g') = 0.
Proof.
  intros Hnt H.
  assert (HrecL : ∀ l, Forall (λ x, growing (internalGenerateCode x)) l).
  { intros l. apply Forall_forall. intros. apply internalGenerateCode_growing. }
  rewrite internalGenerateCode_eq in H. rewrite Hnt in H. eval_visitor_in H.
  apply bind_Ok in H as (n1 & g0 & H0 & H).
  apply bind_Ok in H0 as ([] & gr & Hr & [= <- <-]).
  rewrite resetStack_eq in Hr. injection Hr as <-.
  apply bind_Ok in H as (c & g1 & Hc & H).
  apply bind_Ok in H as (i & g2 & Hi & H).
  apply bind_Ok in H as ([] & gp & Hp & [= <- <-]).
  rewrite popAll_eq in Hp. injection Hp as <-.
  cbn [walk_initializer subWalks] in Hi.
  pose proof Hc as Hc'. pose proof Hi as Hi'.
  apply growing_emits in Hc' as (childLines & Ec & _ & _);
    [|by apply growing_walkList].
  apply growing_emits in Hi' as (initLines & Ei & _ & _);
    [|by apply growing_walkOptional].
  exists childLines, initLines, g1, g2.
  split_and!; [exact Ec | exact Ei | | reflexivity].
  destruct Ec as [_ Ec], Ei as [_ Ei].
  rewrite output_emit, Ei, Ec, output_emit.
  by rewrite app_nil_r, <- !app_assoc.
Qed.

Lemma declare_variable_drops_initializer_witness :
  nodeType sampleDeclaration = "declare-variable" ∧
  ∃ n' g',
    internalGenerateCode sampleDeclaration freshGenerator = Ok (n', g') ∧
    stackDepth (codeEmitter g') = 0.
Proof.
  split; [reflexivity|].
  destruct (internalGenerateCode sampleDeclaration freshGenerator)
    as [[n' g']|e] eqn:E; [|vm_compute in E; discriminate].
  destruct (declare_variable_drops_initializer sampleDeclaration
              freshGenerator n' g' eq_refl E)
    as (cl & il & g1 & g2 & _ & _ & _ & Hd).
  exists n', g'. split; [reflexivity | exact Hd].
Defined.

(** [let x = 7;] compiles to the push of the initializer and a [pop]. *)
Example declaration_code :
  emitted (internalGenerateCode sampleDeclaration freshGenerator)
  = Ok [Instruction "int 7" None; Instruction "pop" None].
Proof. vm_compute. reflexivity. Qed.

(** ** Builtins and calls *)

Lemma substring_prefix s t :
  String.substring 0 (String.length s) (s +:+ t) = s.
Proof.
  induction s as [|c s IH].
  - by destruct t.
  - change (String c s +:+ t) with (String c (s +:+ t)).
    change (String.length (String c s)) with (S (String.length s)).
    cbn [String.substring]. f_equal. exact IH.
Qed.

Lemma length_snoc s b :
  String.length (s +:+ String b EmptyString) = S (String.length s).
Proof.
  induction s as [|c s IH]; [reflexivity|].
  change (String c s +:+ String b EmptyString)
    with (String c (s +:+ String b EmptyString)).
  cbn [String.length]. f_equal. exact IH.
Qed.

(** X5: [unquote] removes the first and the last character of a string of
    two characters or more, whatever they are; it returns the empty string
    unchanged and, because [substring] swaps its bounds, a string of one
    character unchanged as well. *)
Theorem unquote_strips_first_and_last :
  (∀ a b s, unquote (String a (s +:+ String b EmptyString)) = s) ∧
  unquote EmptyString = EmptyString ∧
  (∀ a, unquote (String a EmptyString) = String a EmptyString).
Proof.
  split; [|split; reflexivity].
  intros a b s. unfold unquote, js_substring.
  cbn [String.length]. rewrite length_snoc.
  replace (1 `min` S (S (String.length s))) with 1 by lia.
  replace ((S (S (String.length s)) - 1) `min` S (S (String.length s)))
    with (S (String.length s)) by lia.
  replace (1 `min` S (String.length s)) with 1 by lia.
  replace ((1 `max` S (String.length s)) - 1) with (String.length s) by lia.
  cbn [String.substring]. apply substring_prefix.
Qed.

Lemma builtins_is_Some sub fname :
  is_Some (builtins sub fname) ↔ fname ∈ builtinNames ++ inheritedNames.
Proof.
  unfold builtins, inheritedMember, builtinNames, inheritedNames. cbn [app].
  repeat match goal with
         | |- context [String.eqb fname ?b] =>
             destruct (String.eqb_spec fname b) as [->|?];
             [split; [intros _;
                      repeat first [apply list_elem_of_here
                                   | apply list_elem_of_further]
                     | by eauto]|]
         end.
  split; [by intros [? [=]]|].
  intros H. exfalso.
  repeat (apply elem_of_cons in H as [->|H]; [congruence|]).
  by apply elem_of_nil in H.
Qed.

Lemma builtins_None sub fname :
  fname ∉ builtinNames → fname ∉ inheritedNames → builtins sub fname = None.
Proof.
  intros H H'. destruct (builtins sub fname) eqn:E; [|reflexivity].
  exfalso. assert (Hin : fname ∈ builtinNames ++ inheritedNames)
    by (apply (builtins_is_Some sub); eauto).
  apply elem_of_app in Hin as [Hin|Hin]; auto.
Qed.

(** X6: a call of a function whose name is no entry of the builtins table
    and no member of [Object.prototype] compiles its arguments first, then
    its children, then one [callsub <name>], declared as popping one value
    per argument and pushing one; the compilation only succeeds when at
    least as many values as arguments are counted on the stack at that
    point. *)
Theorem user_function_call_code (n : ASTNode) (g : CodeGenerator)
    (n' : ASTNode) (g' : CodeGenerator) :
  nodeType n = "function-call" →
  js_str (name n) ∉ builtinNames →
  js_str (name n) ∉ inheritedNames →
  internalGenerateCode n g = Ok (n', g') →
  ∃ argLines childLines g1 g2,
    let nargs := length (default [] (functionArgs n)) in
    emits (walkList internalGenerateCode (functionArgs n)) g argLines g1 ∧
    emits (walkList internalGenerateCode (children n)) g1 childLines g2 ∧
    nargs ≤ stackDepth (codeEmitter g2) ∧
    g' = emit [Instruction ("callsub " +:+ js_str (name n)) None]
              (stackDepth (codeEmitter g2) - nargs + 1) g2.
Proof.
  intros Hnt Hnb Hni H.
  assert (HrecL : ∀ l, Forall (λ x, growing (internalGenerateCode x)) l).
  { intros l. apply Forall_forall. intros. apply internalGenerateCode_growing. }
  rewrite internalGenerateCode_eq in H. rewrite Hnt in H. eval_visitor_in H.
  rewrite (builtins_None _ _ Hnb Hni) in H.
  apply bind_Ok in H as (n1 & gx & H0 & H).
  apply bind_Ok in H0 as (a & g1 & Ha & [= <- <-]).
  cbn [walk_functionArgs subWalks] in Ha.
  apply bind_Ok in H as (c & g2 & Hc & H).
  cbn [name set_children set_functionArgs functionArgs] in H.
  rewrite (builtins_None _ _ Hnb Hni) in H.
  apply bind_Ok in H as ([] & g3 & Hadd & [= <- <-]).
  apply add_inv in Hadd as [Hd ->].
  assert (Hlen : length (default [] a) = length (default [] (functionArgs n))).
  { destruct (functionArgs n) as [l|]; cbn in Ha.
    - apply bind_Ok in Ha as (l' & s1 & Hf & [= <- <-]).
      cbn. eapply forEach_length, Hf.
    - by injection Ha as <- <-. }
  assert (Hn : match a with Some a0 => length a0 | None => 0 end
               = length (default [] (functionArgs n))).
  { rewrite <- Hlen. by destruct a. }
  rewrite Hn in Hd |- *.
  pose proof Ha as Ha'. pose proof Hc as Hc'.
  apply growing_emits in Ha' as (argLines & Ea & _ & _);
    [|by apply growing_walkList].
  apply growing_emits in Hc' as (childLines & Ec & _ & _);
    [|by apply growing_walkList].
  exists argLines, childLines, g1, g2. cbv zeta.
  split_and!; [exact Ea | exact Ec | exact Hd | reflexivity].
Qed.

Lemma user_function_call_code_witness :
  nodeType sampleCall = "function-call" ∧
  (js_str (name sampleCall) ∉ builtinNames) ∧
  (js_str (name sampleCall) ∉ inheritedNames) ∧
  ∃ n' g',
    internalGenerateCode sampleCall freshGenerator = Ok (n', g') ∧
    stackDepth (codeEmitter g') = 1.
Proof.
  split; [reflexivity|].
  assert (Hnb : js_str (name sampleCall) ∉ builtinNames).
  { unfold builtinNames. cbn. rewrite !elem_of_cons, elem_of_nil.
    intros H. repeat (destruct H as [H|H]; [discriminate|]). exact H. }
  assert (Hni : js_str (name sampleCall) ∉ inheritedNames).
  { unfold inheritedNames. cbn. rewrite !elem_of_cons, elem_of_nil.
    intros H. repeat (destruct H as [H|H]; [discriminate|]). exact H. }
  split; [exact Hnb|]. split; [exact Hni|].
  destruct (internalGenerateCode sampleCall freshGenerator)
    as [[n' g']|e] eqn:E; [|vm_compute in E; discriminate].
  destruct (user_function_call_code sampleCall freshGenerator n' g'
              eq_refl Hnb Hni E)
    as (al & cl & g1 & g2 & [[a Ha] _] & [[c Hc] _] & _ & ->).
  vm_compute in Ha. injection Ha as <- <-.
  vm_compute in Hc. injection Hc as <- <-.
  eexists _, _. split; reflexivity.
Defined.

(** X7: the builtin [itxn_field] compiles none of its arguments: after the
    code of the node's children it emits the single line [itxn_field <F>],
    [F] being the [value] of the first argument without its first and last
    character, declared as popping one value; it fails with TypeError when
    there is no first argument or that argument has no [value]. *)
Theorem itxn_field_code (n : ASTNode) (g : CodeGenerator) :
  nodeType n = "function-call" →
  name n = Some "itxn_field" →
  (∀ n' g', internalGenerateCode n g = Ok (n', g') →
     ∃ arg0 rest v childLines g1,
       functionArgs n = Some (arg0 :: rest) ∧ value arg0 = Some v ∧
       emits (walkList internalGenerateCode (children n)) g childLines g1 ∧
       1 ≤ stackDepth (codeEmitter g1) ∧
       functionArgs n' = functionArgs n ∧
       g' = emit [Instruction ("itxn_field " +:+ unquote v) None]
                 (stackDepth (codeEmitter g1) - 1) g1) ∧
  (∀ c g1, walkList internalGenerateCode (children n) g = Ok (c, g1) →
     (functionArgs n = None ∨ functionArgs n = Some [] ∨
      ∃ arg0 rest, functionArgs n = Some (arg0 :: rest) ∧ value arg0 = None) →
     internalGenerateCode n g = Err TypeError).
Proof.
  intros Hnt Hname.
  assert (HrecL : ∀ l, Forall (λ x, growing (internalGenerateCode x)) l).
  { intros l. apply Forall_forall. intros. apply internalGenerateCode_growing. }
  split.
  - intros n' g' H.
    rewrite internalGenerateCode_eq in H. rewrite Hnt in H. eval_visitor_in H.
    rewrite Hname in H. cbn [js_str] in H.
    apply bind_Ok in H as (n1 & g0 & [= <- <-] & H).
    apply bind_Ok in H as (c & g1 & Hc & H).
    cbn [name set_children functionArgs] in H. rewrite Hname in H.
    cbn [js_str] in H.
    change (builtins (subWalks internalGenerateCode n) "itxn_field")
      with (Some (λ node : ASTNode,
        match functionArgs node with
        | Some (arg0 :: _) =>
            match value arg0 with
            | Some v => add ("itxn_field " +:+ unquote v) 0 1 None ;; ret node
            | None => throw TypeError
            end
        | _ => throw TypeError
        end)) in H.
    cbn beta iota in H. cbn [functionArgs set_children] in H.
    destruct (functionArgs n) as [[|arg0 rest]|] eqn:Hfa; try discriminate.
    destruct (value arg0) as [v|] eqn:Hv; [|discriminate].
    apply bind_Ok in H as ([] & g2 & Hadd & [= <- <-]).
    apply add_inv in Hadd as [Hd ->].
    pose proof Hc as Hc'.
    apply growing_emits in Hc' as (childLines & Ec & _ & _);
      [|by apply growing_walkList].
    exists arg0, rest, v, childLines, g1.
    split_and!; try done.
    + by rewrite Nat.add_0_r.
  - intros c g1 Hc Hbad.
    rewrite internalGenerateCode_eq. rewrite Hnt.
    cbv beta iota zeta delta
      [visitors String.eqb Ascii.eqb Bool.eqb mbind option_bind pre post runHook].
    rewrite Hname. cbn [js_str].
    change (builtins (subWalks internalGenerateCode n) "itxn_field")
      with (Some (λ node : ASTNode,
        match functionArgs node with
        | Some (arg0 :: _) =>
            match value arg0 with
            | Some v => add ("itxn_field " +:+ unquote v) 0 1 None ;; ret node
            | None => throw TypeError
            end
        | _ => throw TypeError
        end)).
    cbn beta iota. unfold bind at 1. unfold ret at 1.
    unfold bind at 1. rewrite Hc.
    cbn [name set_children functionArgs]. rewrite Hname. cbn [js_str].
    change (builtins (subWalks internalGenerateCode n) "itxn_field")
      with (Some (λ node : ASTNode,
        match functionArgs node with
        | Some (arg0 :: _) =>
            match value arg0 with
            | Some v => add ("itxn_field " +:+ unquote v) 0 1 None ;; ret node
            | None => throw TypeError
            end
        | _ => throw TypeError
        end)).
    cbn beta iota. cbn [functionArgs set_children].
    destruct Hbad as [-> | [-> | (arg0 & rest & -> & Hv)]]; try reflexivity.
    by rewrite Hv.
Qed.

Lemma itxn_field_code_witness :
  nodeType sampleItxnField = "function-call" ∧
  name sampleItxnField = Some "itxn_field" ∧
  emitted (internalGenerateCode sampleItxnField (emit [] 1 freshGenerator))
  = Ok [Instruction "itxn_field Amount" None].
Proof.
  split; [reflexivity|]. split; [reflexivity|].
  destruct (internalGenerateCode sampleItxnField (emit [] 1 freshGenerator))
    as [[n' g']|e] eqn:E; [|vm_compute in E; discriminate].
  destruct (proj1 (itxn_field_code sampleItxnField (emit [] 1 freshGenerator)
                     eq_refl eq_refl) n' g' E)
    as (arg0 & rest & v & cl & g1 & Hfa & Hv & [[c Hc] _] & _ & _ & ->).
  vm_compute in Hc. injection Hc as <- <-.
  injection Hfa as <- <-. injection Hv as <-.
  vm_compute. reflexivity.
Defined.

(** ** Outcomes of the function code generation *)

Lemma bind_label_eq {B} nm comment (k : unit → Gen B) g :
  bind (label nm comment) k g
  = k tt (emit [Label nm comment] (stackDepth (codeEmitter g)) g).
Proof. reflexivity. Qed.

Lemma bind_section_eq {B} title (k : unit → Gen B) g :
  bind (section title) k g
  = k tt (emit [SectionBreak title] (stackDepth (codeEmitter g)) g).
Proof. reflexivity. Qed.

Lemma bind_modify_eq {B} f (k : unit → Gen B) g :
  bind (modify f) k g = k tt (f g).
Proof. reflexivity. Qed.

Ltac fwd_step :=
  first
    [ rewrite bind_add_Ok by (rewrite ?stackDepth_emit; lia)
    | rewrite bind_label_eq
    | rewrite bind_section_eq
    | rewrite bind_modify_eq ];
  rewrite ?stackDepth_emit, ?emit_emit.

Section FunctionOutcome.

Variable tables : TableStore.

Lemma storeParams_missing sc l p g :
  p ∈ l → SymbolTable.get tables sc p = None →
  storeParams tables sc l g = Err TypeError.
Proof.
  intros Hp Hnone. revert g.
  induction l as [|q l IH]; intros g; [by apply elem_of_nil in Hp|].
  cbn [storeParams].
  destruct (SymbolTable.get tables sc q) as [s|] eqn:Hq; [|reflexivity].
  apply elem_of_cons in Hp as [->|Hp]; [congruence|].
  do 4 fwd_step. by apply IH.
Qed.

(** X8: the only ways [generateFunctionCode] fails are: a TypeError when
    the function node has no scope, when one of its parameters is not
    found from its scope, or when it has no body; and the failure of the
    body's own code.  The prologue and the cleanup never underflow the
    logical stack: when scope, parameters and body are there, the
    function's code is its prologue, what the body compiles to from there,
    and the cleanup, and the node comes back with its [params] reversed. *)
Theorem generateFunctionCode_outcome (f : ASTNode) (g : CodeGenerator) :
  (scope f = None → generateFunctionCode tables f g = Err TypeError) ∧
  (∀ sc n p,
     scope f = Some sc → SymbolTable.getNumSymbols tables sc = Ok n →
     p ∈ default [] (params f) → SymbolTable.get tables sc p = None →
     generateFunctionCode tables f g = Err TypeError) ∧
  (∀ sc n syms,
     scope f = Some sc → SymbolTable.getNumSymbols tables sc = Ok n →
     lookupAll tables sc (default [] (params f)) syms →
     body f = None →
     generateFunctionCode tables f g = Err TypeError) ∧
  (∀ sc n syms b,
     scope f = Some sc → SymbolTable.getNumSymbols tables sc = Ok n →
     lookupAll tables sc (default [] (params f)) syms →
     body f = Some b →
     ∃ d1,
       generateFunctionCode tables f g
       = match internalGenerateCode b
                 (emit (frameSetupLines (js_str (name f)) n ++
                        setupArgumentsLines (params f) syms ++
                        [SectionBreak (Some "Function body.")])
                       d1 (set_curFunction (Some f) g)) with
         | Ok (b', g2) =>
             Ok (set_body (Some b') (set_params (@rev string <$> params f) f),
                 emit (cleanupLines (js_str (name f)))
                      (stackDepth (codeEmitter g2)) g2)
         | Err e => Err e
         end).
Proof.
  split_and!.
  - intros Hsc. unfold generateFunctionCode. do 7 fwd_step.
    by rewrite Hsc.
  - intros sc n p Hsc Hn Hp Hnone. unfold generateFunctionCode.
    do 7 fwd_step. rewrite Hsc, Hn. do 7 fwd_step.
    destruct (params f) as [ps|] eqn:Hps; [|by apply elem_of_nil in Hp].
    unfold bind at 1. do 1 fwd_step.
    unfold bind at 1.
    rewrite (storeParams_missing sc (rev ps) p); [reflexivity| |exact Hnone].
    cbn [default] in Hp. rewrite rev_alt. by apply elem_of_reverse.
  - intros sc n syms Hsc Hn Hl Hb. unfold generateFunctionCode.
    do 7 fwd_step. rewrite Hsc, Hn. do 7 fwd_step.
    destruct (params f) as [ps|] eqn:Hps; cbn [default] in Hl.
    + unfold bind at 1. do 1 fwd_step. unfold bind at 1.
      apply lookupAll_rev in Hl.
      match goal with
      | |- context [storeParams _ _ _ ?g1] =>
          destruct (storeParams_Ok tables sc (rev ps) (rev syms) g1 Hl)
            as (d & ->)
      end.
      unfold ret at 1. fwd_step.
      cbn [body set_params]. by rewrite Hb.
    + unfold bind at 1. unfold ret at 1. fwd_step. by rewrite Hb.
  - intros sc n syms b Hsc Hn Hl Hb. unfold generateFunctionCode.
    do 7 fwd_step. rewrite Hsc, Hn. do 7 fwd_step.
    destruct (params f) as [ps|] eqn:Hps; cbn [default] in Hl.
    + unfold bind at 1. do 1 fwd_step. unfold bind at 1.
      apply lookupAll_rev in Hl.
      match goal with
      | |- context [storeParams _ _ _ ?g1] =>
          destruct (storeParams_Ok tables sc (rev ps) (rev syms) g1 Hl)
            as (d & ->)
      end.
      unfold ret at 1. fwd_step.
      cbn [body set_params name set_body]. rewrite Hb.
      cbn [walkRequired]. exists d.
      unfold bind at 1. unfold bind at 1.
      set (L1 := frameSetupLines (js_str (name f)) n ++
                 setupArgumentsLines (Some ps) syms ++
                 [SectionBreak (Some "Function body.")]).
      match goal with
      | |- context [internalGenerateCode b (emit ?L _ _)] =>
          tryif constr_eq L L1 then fail else change L with L1
      end.
      match goal with
      | |- context [internalGenerateCode b ?g1] =>
          destruct (internalGenerateCode b g1) as [[b' g2]|e]; [|reflexivity]
      end.
      unfold ret at 1. do 5 fwd_step.
      unfold ret. do 2 f_equal. unfold cleanupLines. f_equal. lia.
    + unfold bind at 1. unfold ret at 1. fwd_step.
      cbn [body name set_body]. rewrite Hb.
      cbn [walkRequired].
      match goal with
      | |- context [emit _ ?d0 (set_curFunction (Some f) g)] => exists d0
      end.
      unfold bind at 1. unfold bind at 1.
      set (L1 := frameSetupLines (js_str (name f)) n ++
                 setupArgumentsLines None syms ++
                 [SectionBreak (Some "Function body.")]).
      match goal with
      | |- context [internalGenerateCode b (emit ?L _ _)] =>
          tryif constr_eq L L1 then fail else change L with L1
      end.
      match goal with
      | |- context [internalGenerateCode b ?g1] =>
          destruct (internalGenerateCode b g1) as [[b' g2]|e]; [|reflexivity]
      end.
      unfold ret at 1. do 5 fwd_step.
      unfold ret. f_equal. f_equal.
      * destruct f; cbn in *; subst; reflexivity.
      * unfold cleanupLines. f_equal. lia.
Qed.

End FunctionOutcome.

Lemma generateFunctionCode_outcome_witness :
  scope undeclaredParamFunction = Some 1 ∧
  SymbolTable.getNumSymbols sampleTables 1 = Ok 2 ∧
  SymbolTable.get sampleTables 1 "zz" = None ∧
  generateFunctionCode sampleTables undeclaredParamFunction freshGenerator
  = Err TypeError.
Proof.
  split; [reflexivity|]. split; [vm_compute; reflexivity|].
  split; [vm_compute; reflexivity|].
  apply (proj1 (proj2 (generateFunctionCode_outcome sampleTables
                         undeclaredParamFunction freshGenerator))
           1 2 "zz").
  - reflexivity.
  - vm_compute. reflexivity.
  - apply list_elem_of_here.
  - vm_compute. reflexivity.
Defined.

(** ** The early generator [genCode] *)

Lemma Index_Node_ind (P : Index.Node → Prop) :
  (∀ n, Forall P (default [] (Index.children n)) → P n) → ∀ n, P n.
Proof.
  intros step. fix IH 1. intros n. apply step.
  destruct n as [nt ch op v fn ai st]. cbn [Index.children].
  destruct ch as [l|]; cbn; [|constructor].
  induction l as [|x l IHl]; constructor; [apply IH | apply IHl].
Qed.

Lemma genCode_eq n output :
  Index.genCode n output
  = match match Index.children n with
          | Some c => genCodeList c output
          | None => Ok output
          end with
    | Err e => Err e
    | Ok output =>
        if String.eqb (Index.nodeType n) "operator" then
          Ok (output ++ [js_str (Index.opcode n)])
        else if String.eqb (Index.nodeType n) "literal" then
          Ok (output ++ [js_str (Index.opcode n) +:+ " " +:+
                         js_str (Index.value n)])
        else if String.eqb (Index.nodeType n) "txn" then
          Ok (output ++ ["txn " +:+ js_str (Index.fieldName n)])
        else if String.eqb (Index.nodeType n) "arg" then
          Ok (output ++ ["arg " +:+ js_str (Index.argIndex n)])
        else if String.eqb (Index.nodeType n) "block" then
          Ok output
        else if String.eqb (Index.nodeType n) "statement" then
          if bool_decide (Index.stmtType n = Some "expr") then Ok output
          else if bool_decide (Index.stmtType n = Some "return") then
            Ok (output ++ ["return"])
          else Err (UnexpectedStatementType (js_str (Index.stmtType n)))
        else Err (UnexpectedNodeType (Index.nodeType n))
    end.
Proof.
  destruct n as [nt ch op v fn ai st]. cbn [Index.genCode Index.children].
  destruct ch as [c|]; [|reflexivity].
  assert (E : ∀ l out,
    (fix loop (l : list Index.Node) (output : list string)
       : Result (list string) :=
       match l with
       | [] => Ok output
       | child :: l' =>
           match Index.genCode child output with
           | Ok output0 => loop l' output0
           | Err e => Err e
           end
       end) l out = genCodeList l out).
  { induction l as [|x l IHl]; intros out; cbn; [reflexivity|].
    destruct (Index.genCode x out); [apply IHl | reflexivity]. }
  simpl. rewrite E. reflexivity.
Qed.

(** The own line of a node is appended when the node is known. *)
Lemma genCode_own n output :
  Index.genCode n output
  = match match Index.children n with
          | Some c => genCodeList c output
          | None => Ok output
          end with
    | Err e => Err e
    | Ok output =>
        if knownNode n then Ok (output ++ ownLines n)
        else if String.eqb (Index.nodeType n) "statement"
        then Err (UnexpectedStatementType (js_str (Index.stmtType n)))
        else Err (UnexpectedNodeType (Index.nodeType n))
    end.
Proof.
  rewrite genCode_eq.
  destruct (match Index.children n with
            | Some c => genCodeList c output
            | None => Ok output
            end) as [out|e]; [|reflexivity].
  unfold knownNode, ownLines.
  destruct (String.eqb_spec (Index.nodeType n) "operator") as [E|_];
    [rewrite E; reflexivity|].
  destruct (String.eqb_spec (Index.nodeType n) "literal") as [E|_];
    [rewrite E; reflexivity|].
  destruct (String.eqb_spec (Index.nodeType n) "txn") as [E|_];
    [rewrite E; reflexivity|].
  destruct (String.eqb_spec (Index.nodeType n) "arg") as [E|_];
    [rewrite E; reflexivity|].
  destruct (String.eqb_spec (Index.nodeType n) "block") as [E|_];
    [rewrite E; cbn; by rewrite app_nil_r|].
  destruct (String.eqb_spec (Index.nodeType n) "statement") as [E|_];
    [|reflexivity].
  cbn. repeat case_bool_decide; cbn; try reflexivity; try congruence.
  by rewrite app_nil_r.
Qed.

Lemma genCode_lines (n : Index.Node) (output : list string) :
  (wellFormed n = true →
   Index.genCode n output = Ok (output ++ postOrderLines n)) ∧
  (wellFormed n = false → ∃ e,
   Index.genCode n output = Err e ∧
   ∃ s, e = UnexpectedNodeType s ∨ e = UnexpectedStatementType s).
Proof.
  revert output. induction n as [n IH] using Index_Node_ind. intros output.
  assert (HL : ∀ l out, Forall (λ n, ∀ output,
      (wellFormed n = true →
       Index.genCode n output = Ok (output ++ postOrderLines n)) ∧
      (wellFormed n = false → ∃ e,
       Index.genCode n output = Err e ∧
       ∃ s, e = UnexpectedNodeType s ∨ e = UnexpectedStatementType s)) l →
    (forallb wellFormed l = true →
     genCodeList l out = Ok (out ++ concat (map postOrderLines l))) ∧
    (forallb wellFormed l = false → ∃ e,
     genCodeList l out = Err e ∧
     ∃ s, e = UnexpectedNodeType s ∨ e = UnexpectedStatementType s)).
  { intros l out Hl. revert out.
    induction Hl as [|x l Hx _ IHl]; intros out; cbn.
    - split; [intros _; by rewrite app_nil_r | discriminate].
    - destruct (Hx out) as [Hok Herr].
      destruct (wellFormed x) eqn:Ex; cbn.
      + rewrite (Hok eq_refl). destruct (IHl (out ++ postOrderLines x))
          as [Hok' Herr'].
        split.
        * intros Hw. rewrite (Hok' Hw). by rewrite <- app_assoc.
        * exact Herr'.
      + split; [discriminate|]. intros _.
        destruct (Herr eq_refl) as (e & -> & He). eauto. }
  rewrite genCode_own.
  assert (Hwf : wellFormed n
                = knownNode n &&
                  match Index.children n with
                  | Some c => forallb wellFormed c
                  | None => true
                  end)
    by (destruct n; reflexivity).
  assert (Hpo : postOrderLines n
                = match Index.children n with
                  | Some c => concat (map postOrderLines c)
                  | None => []
                  end ++ ownLines n)
    by (destruct n; reflexivity).
  rewrite Hwf, Hpo.
  destruct (Index.children n) as [c|] eqn:Hc; cbn [default] in *.
  - destruct (HL c output IH) as [Hok Herr].
    destruct (forallb wellFormed c) eqn:Ec.
    + rewrite (Hok eq_refl). rewrite andb_true_r.
      destruct (knownNode n) eqn:Ek.
      * split; [intros _; by rewrite <- app_assoc | discriminate].
      * split; [discriminate|]. intros _.
        destruct (String.eqb (Index.nodeType n) "statement"); eauto.
    + destruct (Herr eq_refl) as (e & -> & He). rewrite andb_false_r.
      split; [discriminate | eauto].
  - rewrite andb_true_r.
    destruct (knownNode n) eqn:Ek.
    + split; [reflexivity | discriminate].
    + split; [discriminate|]. intros _.
      destruct (String.eqb (Index.nodeType n) "statement"); eauto.
Qed.

(** X9: [genCode] emits the lines of a tree in post-order, each node's
    own line after all the lines of its children; it only appends to the
    array it is given, and it succeeds exactly on the trees all of whose
    nodes have a type it knows, a statement being an expression statement
    or a return statement. *)
Theorem genCode_post_order (n : Index.Node) (output : list string) :
  (wellFormed n = true →
   Index.genCode n output = Ok (output ++ postOrderLines n)) ∧
  (wellFormed n = false → ∃ e,
   Index.genCode n output = Err e ∧
   ∃ s, e = UnexpectedNodeType s ∨ e = UnexpectedStatementType s).
Proof. apply genCode_lines. Qed.

Lemma genCode_post_order_witness :
  wellFormed sampleExpression = true ∧
  Index.genCode sampleExpression ["x"] = Ok ["x"; "int 1"; "int 1"; "+"].
Proof.
  split; [reflexivity|].
  exact (proj1 (genCode_post_order sampleExpression ["x"]) eq_refl).
Defined.

(** X10: [compileExpression] returns what the parser, called with the
    start rule [expression], and [genCode] make of the input: the error of
    the parser when it fails; on a tree all of whose nodes [genCode] knows,
    the lines of the tree in post-order joined by CR-LF pairs, with no
    pragma line before them and no pair after the last; on any other tree
    the error of [genCode]. *)
Theorem compileExpression_output
    (parseExpression : string → Result Index.Node) (input : string) :
  match parseExpression input with
  | Err e => compileExpression parseExpression input = Err e
  | Ok ast =>
      if wellFormed ast then
        compileExpression parseExpression input
        = Ok (join Index.CRLF (postOrderLines ast))
      else
        ∃ s, compileExpression parseExpression input
             = Err (UnexpectedNodeType s) ∨
             compileExpression parseExpression input
             = Err (UnexpectedStatementType s)
  end.
Proof.
  unfold compileExpression.
  destruct (parseExpression input) as [ast|e]; [|reflexivity].
  destruct (wellFormed ast) eqn:Hw.
  - by rewrite (proj1 (genCode_lines ast []) Hw).
  - destruct (proj2 (genCode_lines ast []) Hw) as (e & -> & s & [->| ->]);
      exists s; auto.
Qed.

(** [1 + 1] compiles to three lines, without the pragma. *)
Example compileExpression_sample :
  compileExpression sampleExpressionParser "1 + 1"
  = Ok ("int 1" +:+ Index.CRLF +:+ "int 1" +:+ Index.CRLF +:+ "+").
Proof. reflexivity. Qed.

(** ** The resolver *)

Lemma internalResolveSymbols_eq n t :
  internalResolveSymbols n t
  = (let sub :=
       {| resolve_body := λ t,
            walkRequired (λ n, internalResolveSymbols n t) (body n);
          resolve_ifBlock := λ t,
            walkRequired (λ n, internalResolveSymbols n t) (ifBlock n);
          resolve_elseBlock := λ t,
            walkOptional (λ n, internalResolveSymbols n t) (elseBlock n) |} in
     let* c := walkList (λ n, internalResolveSymbols n t) (children n) in
     let node := set_children c n in
     match nodeHandlers sub (nodeType node) with
     | Some nodeHandler => nodeHandler node t
     | None => ret node
     end).
Proof. destruct n; reflexivity. Qed.

Ltac inv_M H :=
  repeat match type of H with
         | bind _ _ _ = Ok _ =>
             let a := fresh "a" in
             let s := fresh "s" in
             let Hm := fresh "Hm" in
             apply bind_Ok in H as (a & s & Hm & H)
         | (if ?b then _ else _) _ = Ok _ => destruct b eqn:?
         | match ?x with _ => _ end _ = Ok _ => destruct x eqn:?
         | throw _ _ = Ok _ => discriminate H
         end.

(** X11: wherever the resolver goes, it leaves the type, the name and the
    parameters of a node as they are, never attaches a [symbols] list, and
    does not descend into [initializer], [assignee] or [functionArgs], nor
    into the [body] of a node that is no function declaration: these come
    back unchanged, so the names used in a loop body, an initializer or a
    call argument are never bound.  A scope is attached to function
    declarations only, a symbol to declarations, variable accesses and
    assignments only. *)
Theorem resolver_leaves_unvisited_attributes (n : ASTNode) (t : TableRef)
    (store : TableStore) (n' : ASTNode) (store' : TableStore) :
  internalResolveSymbols n t store = Ok (n', store') →
  nodeType n' = nodeType n ∧ name n' = name n ∧ params n' = params n ∧
  symbols n' = symbols n ∧
  initializer n' = initializer n ∧ assignee n' = assignee n ∧
  functionArgs n' = functionArgs n ∧
  (nodeType n ≠ "function-declaration" →
     body n' = body n ∧ scope n' = scope n) ∧
  (nodeType n ∉ ["declare-variable"; "declare-constant"; "access-variable";
                  "assignment-statement"] →
     symbol n' = symbol n).
Proof.
  intros H. rewrite internalResolveSymbols_eq in H. cbv zeta in H.
  apply bind_Ok in H as (c & s1 & Hc & H).
  cbn [nodeType set_children] in H. unfold nodeHandlers in H.
  repeat match type of H with
         | context [String.eqb (nodeType n) ?s] =>
             destruct (String.eqb_spec (nodeType n) s) as [E|?]
         end.
  all: try unfold declareHandler in H; try unfold assignmentHandler in H.
  all: inv_M H; injection H as <- <-; cbn.
  all: split_and!; try reflexivity; try done.
  all: intros Hn; exfalso; apply Hn; rewrite E.
  all: repeat first [apply list_elem_of_here | apply list_elem_of_further].
Qed.

Lemma resolver_leaves_unvisited_attributes_witness :
  ∃ n' store',
    resolveSymbols whileWithAssignment [] = Ok (n', store') ∧
    body n' = body whileWithAssignment.
Proof.
  destruct (resolveSymbols whileWithAssignment []) as [[n' store']|e] eqn:E;
    [|vm_compute in E; discriminate].
  exists n', store'. split; [reflexivity|].
  unfold resolveSymbols in E.
  apply bind_Ok in E as (t & s0 & _ & E).
  destruct (resolver_leaves_unvisited_attributes _ _ _ _ _ E)
    as (_ & _ & _ & _ & _ & _ & _ & Hb & _).
  apply Hb. discriminate.
Defined.

Lemma define_inv store t nm kind s store' :
  SymbolTable.define store t nm kind = Ok (s, store') →
  ∃ tbl, store !! t = Some tbl ∧ entries tbl !! nm = None ∧
         s = Symbol.mk nm kind (size (entries tbl) + 1)
                       (bool_decide (parent tbl = None)) ∧
         store' = <[t := mkSymbolTable (<[nm := s]> (entries tbl)) (parent tbl)]>
                    store.
Proof.
  unfold SymbolTable.define.
  destruct (store !! t) as [tbl|] eqn:Ht; [|discriminate].
  destruct (entries tbl !! nm) eqn:Hn; [discriminate|].
  intros [= <- <-]. eauto.
Qed.

Lemma store_lookup_insert (store : TableStore) (t : TableRef)
    (x : SymbolTable) :
  t < length store → (<[t := x]> store : list SymbolTable) !! t = Some x.
Proof. intros. by apply list_lookup_insert_eq. Qed.

(** X12: when the handler of [declare-variable] or [declare-constant]
    succeeds, the name was not defined in the current table; the symbol it
    attaches carries that name and the declared kind, is what a lookup of
    the name from that table now returns, and its position is the number
    of symbols the table now holds; and any later declaration of the same
    name in the same table, variable or constant, fails with
    DuplicateDefinition naming it. *)
Theorem declaration_defines_once (kind : SymbolType) (n : ASTNode)
    (t : TableRef) (store : TableStore) (n' : ASTNode) (store' : TableStore) :
  declareHandler kind n t store = Ok (n', store') →
  ∃ s,
    n' = set_symbol (Some s) n ∧
    Symbol.name s = js_str (name n) ∧ Symbol.type s = kind ∧
    SymbolTable.isDefinedLocally store t (js_str (name n)) = false ∧
    SymbolTable.get store' t (js_str (name n)) = Some s ∧
    SymbolTable.getNumSymbols store' t = Ok (Symbol.position s) ∧
    ∀ kind2 n2, name n2 = name n →
      declareHandler kind2 n2 t store'
      = Err (DuplicateDefinition (js_str (name n))).
Proof.
  unfold declareHandler. intros H.
  apply bind_Ok in H as (d & s0 & [= <- <-] & H).
  destruct (SymbolTable.isDefinedLocally store t (js_str (name n))) eqn:Hd;
    [discriminate|].
  apply bind_Ok in H as (s & s1 & Hdef & [= <- <-]).
  apply define_inv in Hdef as (tbl & Ht & Hn & Hs & ->).
  assert (Hlt : t < length store) by (eapply lookup_lt_Some, Ht).
  pose proof (store_lookup_insert store t
                (mkSymbolTable (<[js_str (name n) := s]> (entries tbl))
                               (parent tbl)) Hlt) as Hlk.
  exists s. split_and!; try (subst s; reflexivity).
  - unfold SymbolTable.get. unfold TableStore in *. rewrite length_insert.
    destruct (length store) as [|k] eqn:Hk; [lia|].
    cbn [SymbolTable.get_chain].
    unfold TableStore, TableRef in *.
    rewrite Hlk. cbn [entries].
    by rewrite lookup_insert_eq.
  - unfold SymbolTable.getNumSymbols.
    unfold TableStore, TableRef in *.
    rewrite Hlk. cbn [entries].
    rewrite map_size_insert_None by exact Hn. subst s. cbn [Symbol.position].
    f_equal. lia.
  - intros kind2 n2 Hname. rewrite Hname. unfold bind, gets.
    unfold SymbolTable.isDefinedLocally.
    unfold TableStore, TableRef in *.
    rewrite Hlk. cbn [entries].
    rewrite lookup_insert_eq. rewrite bool_decide_eq_true_2 by eauto.
    reflexivity.
Qed.

Lemma declaration_defines_once_witness :
  ∃ n' store',
    declareHandler Variable_ (declareVariableNode "y") 0 sampleTables
    = Ok (n', store') ∧
    declareHandler Constant_ (declareConstantNode "y") 0 store'
    = Err (DuplicateDefinition "y").
Proof.
  destruct (declareHandler Variable_ (declareVariableNode "y") 0 sampleTables)
    as [[n' store']|e] eqn:E; [|vm_compute in E; discriminate].
  exists n', store'. split; [reflexivity|].
  destruct (declaration_defines_once _ _ _ _ _ _ E)
    as (s & _ & _ & _ & _ & _ & _ & Hdup).
  exact (Hdup Constant_ (declareConstantNode "y") eq_refl).
Defined.

(** X13: the resolver never reads the parameter list of a node: with any
    other list in its place it builds the same tables, raises the same
    error, and returns the same annotated node up to that list.  In
    particular the scope it attaches to a function declaration holds the
    names its body declares, not its parameters. *)
Theorem resolver_ignores_parameters (n : ASTNode) (ps : option (list string))
    (t : TableRef) (store : TableStore) :
  internalResolveSymbols (set_params ps n) t store
  = match internalResolveSymbols n t store with
    | Ok (n', store') => Ok (set_params ps n', store')
    | Err e => Err e
    end.
Proof.
  rewrite !internalResolveSymbols_eq. cbv zeta.
  cbn [children body ifBlock elseBlock set_params nodeType set_children].
  unfold bind at 1 2.
  destruct (walkList (λ n0, internalResolveSymbols n0 t) (children n) store)
    as [[c s1]|e]; [|reflexivity].
  unfold nodeHandlers.
  repeat match goal with
         | |- context [String.eqb (nodeType n) ?s] =>
             destruct (String.eqb (nodeType n) s)
         end;
    try reflexivity;
    unfold declareHandler, assignmentHandler, bind, gets, ret, throw,
      newSymbolTable, define;
    cbn [name assignee set_params set_children set_scope body ifBlock elseBlock];
    repeat (case_match; try reflexivity; simplify_eq).
Qed.

(** ** The collection pass *)

Lemma collectFunctions_acc node : ∀ ref acc,
  collectFunctions node ref acc = acc ++ collectFunctions node ref [].
Proof.
  induction node as [node IH] using ASTNode_ind. intros ref acc.
  unfold subnodes in IH. apply Forall_app in IH as [IH _].
  destruct node as [nt ch nm vl op ar nia nir ps bd ini asg ifb elb fa sc sy sys ncs];
    cbn [collectFunctions children nodeType default] in *.
  destruct ch as [c|]; cbn [default] in *.
  - match goal with
    | |- context [?f c 0 acc] => set (loop := f)
    end.
    assert (Hloop : ∀ l i acc,
              Forall (λ n, ∀ ref acc, collectFunctions n ref acc
                                      = acc ++ collectFunctions n ref []) l →
              loop l i acc = acc ++ loop l i []).
    { clear. induction l as [|x l IHl]; intros i acc Hl.
      - cbn. by rewrite app_nil_r.
      - inversion Hl as [|? ? Hx Hl']; subst. cbn [loop]. fold loop.
        rewrite (IHl _ (collectFunctions x (ref ++ [i]) acc)) by exact Hl'.
        rewrite (IHl _ (collectFunctions x (ref ++ [i]) [])) by exact Hl'.
        rewrite (Hx _ acc). by rewrite <- app_assoc. }
    rewrite (Hloop c 0 acc IH).
    destruct (String.eqb nt "function-declaration"); by rewrite <- ?app_assoc.
  - destruct (String.eqb nt "function-declaration"); by rewrite ?app_nil_r.
Qed.

Lemma collectFunctions_eq (node : ASTNode) (ref : NodeRef)
    (acc : list NodeRef) :
  collectFunctions node ref acc
  = acc ++
    concat (imap (λ i c, collectFunctions c (ref ++ [i]) [])
                 (default [] (children node))) ++
    (if String.eqb (nodeType node) "function-declaration" then [ref] else []).
Proof.
  rewrite collectFunctions_acc. f_equal.
  destruct node as [nt ch nm vl op ar nia nir ps bd ini asg ifb elb fa sc sy sys ncs];
    cbn [collectFunctions children nodeType default] in *.
  destruct ch as [c|]; cbn [default] in *.
  - match goal with
    | |- context [?f c 0 []] => set (loop := f)
    end.
    assert (Hloop : ∀ l i,
              loop l i []
              = concat (imap (λ j c, collectFunctions c (ref ++ [i + j]) []) l)).
    { assert (Hacc : ∀ l i acc, loop l i acc = acc ++ loop l i []).
      { clear. induction l as [|x l IHl]; intros i acc.
        - cbn. by rewrite app_nil_r.
        - cbn [loop]. fold loop.
          rewrite (IHl _ (collectFunctions x (ref ++ [i]) acc)).
          rewrite (IHl _ (collectFunctions x (ref ++ [i]) [])).
          rewrite (collectFunctions_acc x _ acc). by rewrite <- app_assoc. }
      induction l as [|x l IHl]; intros i; [reflexivity|].
      cbn [loop]. fold loop. rewrite Hacc, IHl, imap_cons. cbn [concat].
      rewrite Nat.add_0_r. f_equal. f_equal.
      apply imap_ext. intros j y _. cbn. do 3 f_equal. lia. }
    rewrite (Hloop c 0). cbn [Nat.add]. unfold id.
    destruct (String.eqb nt "function-declaration"); by rewrite ?app_nil_r.
  - destruct (String.eqb nt "function-declaration"); reflexivity.
Qed.

(** X14: the collection pass lists the function declarations in post-order
    of the [children] lists: what was collected before stays in front, then
    come the declarations under the first child, the second, and so on, and
    last the node itself when it is a function declaration.  The
    substructures that are no children ([body], [ifBlock], [elseBlock],
    [initializer], [assignee], [functionArgs]) are not searched. *)
Theorem collectFunctions_post_order (node : ASTNode) (ref : NodeRef)
    (acc : list NodeRef) :
  collectFunctions node ref acc
  = acc ++
    concat (imap (λ i c, collectFunctions c (ref ++ [i]) [])
                 (default [] (children node))) ++
    (if String.eqb (nodeType node) "function-declaration" then [ref] else []).
Proof. apply collectFunctions_eq. Qed.

Lemma elem_of_concat {A} (x : A) (ls : list (list A)) :
  x ∈ concat ls ↔ ∃ l, l ∈ ls ∧ x ∈ l.
Proof.
  induction ls as [|l ls IH]; cbn [concat].
  - split; [by intros ?%elem_of_nil | by intros (? & ?%elem_of_nil & _)].
  - rewrite elem_of_app, IH. split.
    + intros [H | (l' & H1 & H2)];
        [exists l; split; [left | done] | exists l'; split; [by right | done]].
    + intros (l' & [-> | H1]%elem_of_cons & H2); [by left | right; eauto].
Qed.

Lemma NoDup_concat_imap {A B} (f : nat → A → list B) (l : list A) :
  (∀ i x, l !! i = Some x → NoDup (f i x)) →
  (∀ i j x y r, i ≠ j → l !! i = Some x → l !! j = Some y →
                r ∈ f i x → r ∉ f j y) →
  NoDup (concat (imap f l)).
Proof.
  revert f. induction l as [|a l IH]; intros f Hnd Hdisj; [constructor|].
  rewrite imap_cons. cbn [concat]. apply NoDup_app. split_and!.
  - exact (Hnd 0 a eq_refl).
  - intros r Hr (l' & (j & y & -> & Hj)%elem_of_lookup_imap & Hin)%elem_of_concat.
    exact (Hdisj 0 (S j) a y r ltac:(lia) eq_refl Hj Hr Hin).
  - apply IH.
    + intros i x Hi. exact (Hnd (S i) x Hi).
    + intros i j x y r Hij Hi Hj. exact (Hdisj (S i) (S j) x y r ltac:(lia) Hi Hj).
Qed.

Lemma lookupNode_cons root i p :
  lookupNode root (i :: p)
  = (c ← children root; child ← c !! i; lookupNode child p).
Proof. reflexivity. Qed.

Lemma collectFunctions_paths (node : ASTNode) (ref : NodeRef) :
  NoDup (collectFunctions node ref []) ∧
  ∀ r, r ∈ collectFunctions node ref [] ↔
       ∃ p f, r = ref ++ p ∧ lookupNode node p = Some f ∧
              nodeType f = "function-declaration".
Proof.
  revert ref. induction node as [node IH] using ASTNode_ind. intros ref.
  unfold subnodes in IH. apply Forall_app in IH as [IH _].
  rewrite Forall_lookup in IH.
  assert (Hmem : ∀ r, r ∈ collectFunctions node ref [] ↔
       ∃ p f, r = ref ++ p ∧ lookupNode node p = Some f ∧
              nodeType f = "function-declaration").
  { intros r. rewrite collectFunctions_eq. cbn [app].
    rewrite elem_of_app, elem_of_concat. split.
    - intros [(l & (i & c & -> & Hi)%elem_of_lookup_imap & Hr) | Hr].
      + apply (IH i c Hi) in Hr as (p & f & -> & Hp & Hf).
        exists (i :: p), f. rewrite <- app_assoc. split; [done|].
        split; [|done]. rewrite lookupNode_cons.
        destruct (children node) as [cs|]; [|done]. cbn in Hi |- *.
        by rewrite Hi.
      + destruct (String.eqb_spec (nodeType node) "function-declaration")
          as [E|E]; [|by apply elem_of_nil in Hr].
        apply list_elem_of_singleton in Hr as ->.
        exists [], node. by rewrite app_nil_r.
    - intros (p & f & -> & Hp & Hf). destruct p as [|i p].
      + right. injection Hp as <-. rewrite Hf. cbn.
        rewrite app_nil_r. apply list_elem_of_here.
      + left. rewrite lookupNode_cons in Hp.
        destruct (children node) as [cs|]; [|done]. cbn in Hp.
        destruct (cs !! i) as [c|] eqn:Hi; [|done]. cbn in Hp.
        exists (collectFunctions c (ref ++ [i]) []). split.
        * apply elem_of_lookup_imap. eauto.
        * apply (IH i c Hi). exists p, f. by rewrite <- app_assoc. }
  split; [|exact Hmem].
  rewrite collectFunctions_eq. cbn [app]. apply NoDup_app. split_and!.
  - apply NoDup_concat_imap.
    + intros i c Hi. by apply (IH i c Hi).
    + intros i j x y r Hij Hi Hj Hr Hr'.
      apply (IH i x Hi) in Hr as (p & _ & -> & _).
      apply (IH j y Hj) in Hr' as (p' & _ & Heq & _).
      rewrite <- !app_assoc in Heq. apply app_inv_head in Heq.
      by injection Heq.
  - intros r (l & (i & c & -> & Hi)%elem_of_lookup_imap & Hr)%elem_of_concat Hr'.
    apply (IH i c Hi) in Hr as (p & _ & -> & _).
    destruct (String.eqb (nodeType node) "function-declaration");
      [|by apply elem_of_nil in Hr'].
    apply list_elem_of_singleton in Hr'.
    rewrite <- (app_nil_r ref) in Hr' at 2. rewrite <- app_assoc in Hr'.
    by apply app_inv_head in Hr'.
  - destruct (String.eqb (nodeType node) "function-declaration");
      [apply NoDup_singleton | constructor].
Qed.


(** ** What a walk does to the tree *)

Ltac inv_hook H :=
  repeat match type of H with
         | bind _ _ _ = Ok _ =>
             let a := fresh "a" in
             let s := fresh "s" in
             let Hm := fresh "Hm" in
             apply bind_Ok in H as (a & s & Hm & H)
         | (if ?b then _ else _) _ = Ok _ => destruct b eqn:?
         | match ?x with _ => _ end _ = Ok _ => destruct x eqn:?
         | throw _ _ = Ok _ => discriminate H
         | ret _ _ = Ok _ => injection H as <- <-
         end.

Lemma genArgs_inv sub n g n' g' :
  genArgs sub n g = Ok (n', g') → ∃ a, n' = set_functionArgs a n.
Proof. unfold genArgs. intros Hrun. inv_hook Hrun. eauto. Qed.

Lemma builtins_children sub fname b n g n' g' :
  builtins sub fname = Some b → b n g = Ok (n', g') →
  children n' = children n.
Proof.
  unfold builtins, inheritedMember.
  repeat (case_match;
          [intros [= <-] Hrun; inv_hook Hrun;
           repeat match goal with
                  | Hg : genArgs _ _ _ = Ok _ |- _ =>
                      apply genArgs_inv in Hg as [? ->]
                  end;
           reflexivity |]).
  discriminate.
Qed.

Lemma pre_children sub nt n g n' g' :
  runHook (visitors sub nt ≫= pre) n g = Ok (n', g') →
  children n' = children n.
Proof.
  visitor_cases; intros Hrun; inv_hook Hrun; reflexivity.
Qed.

Lemma post_children sub nt n g n' g' :
  runHook (visitors sub nt ≫= post) n g = Ok (n', g') →
  children n' = children n.
Proof.
  visitor_cases; intros Hrun; inv_hook Hrun; try reflexivity;
    try (cbn; congruence).
  all: eapply builtins_children; eauto.
Qed.

Lemma forEach_Forall2 {S} (f : ASTNode → M S ASTNode) l s l' s' :
  forEach f l s = Ok (l', s') →
  Forall2 (λ x y, ∃ s1 s2, f x s1 = Ok (y, s2)) l l'.
Proof.
  revert s l'. induction l as [|x l IH]; intros s l'; cbn.
  - intros [= <- <-]. constructor.
  - intros H. apply bind_Ok in H as (x' & s1 & Hx & H).
    apply bind_Ok in H as (l'' & s2 & Hl & [= <- <-]).
    constructor; [eauto | eapply IH, Hl].
Qed.

Lemma internalGenerateCode_keepsFunctions n : ∀ g n' g',
  internalGenerateCode n g = Ok (n', g') → keepsFunctions n n'.
Proof.
  induction n as [n IH] using ASTNode_ind. intros g n' g' H.
  unfold subnodes in IH. apply Forall_app in IH as [IH _].
  rewrite Forall_lookup in IH.
  rewrite internalGenerateCode_eq in H. cbv zeta in H.
  apply bind_Ok in H as (n1 & g1 & Hpre & H).
  apply bind_Ok in H as (c & g2 & Hc & Hpost).
  assert (Hch : children n' = c).
  { apply post_children in Hpost. by rewrite Hpost. }
  intros [|i p] f Hf.
  - injection Hf as <-. exists n'. split; [reflexivity|]. intros Hfd.
    rewrite Hfd in Hpre, Hpost. injection Hpre as <- <-.
    injection Hpost as <- _. eauto.
  - rewrite lookupNode_cons in Hf |- *. rewrite Hch.
    destruct (children n) as [cs|]; [|done]. cbn in Hf, Hc, IH.
    apply bind_Ok in Hc as (cs' & g3 & Hcs & [= <- <-]). cbn.
    destruct (cs !! i) as [child|] eqn:Hi; [|done]. cbn in Hf.
    apply forEach_Forall2 in Hcs.
    destruct (Forall2_lookup_l _ _ _ _ _ Hcs Hi) as (child' & Hi' & s1 & s2 & Hrun).
    rewrite Hi'. cbn. exact (IH i child Hi _ _ _ Hrun p f Hf).
Qed.

(** ** References into a tree that is mutated *)

Lemma set_children_id n : set_children (children n) n = n.
Proof. by destruct n. Qed.

Lemma set_children_set_children c c' n :
  set_children c (set_children c' n) = set_children c n.
Proof. reflexivity. Qed.

Lemma lookupNode_updateNode_eq cur r new old :
  lookupNode cur r = Some old →
  lookupNode (updateNode cur r new) r = Some new.
Proof.
  revert cur. induction r as [|i r IH]; intros cur; [done|].
  rewrite lookupNode_cons. cbn [updateNode].
  destruct (children cur) as [cs|]; [|done]. cbn.
  destruct (cs !! i) as [child|] eqn:Hi; [|done]. cbn. intros H.
  rewrite list_lookup_insert_eq by (eapply lookup_lt_Some, Hi). cbn.
  by apply IH.
Qed.

Lemma lookupNode_updateNode_ne cur r0 new old r f :
  lookupNode cur r0 = Some old → children new = children old → r ≠ r0 →
  lookupNode cur r = Some f →
  ∃ c, lookupNode (updateNode cur r0 new) r = Some (set_children c f).
Proof.
  intros Hold Hch. revert cur r Hold.
  induction r0 as [|i0 r0 IH]; intros cur r Hold Hne Hf.
  - injection Hold as <-. destruct r as [|i r]; [done|]. cbn [updateNode].
    rewrite lookupNode_cons in Hf |- *. rewrite Hch, Hf.
    exists (children f). by rewrite set_children_id.
  - rewrite lookupNode_cons in Hold. cbn [updateNode].
    destruct (children cur) as [cs|] eqn:Hcs; [|done]. cbn in Hold.
    destruct (cs !! i0) as [child|] eqn:Hi0; [|done]. cbn in Hold.
    destruct r as [|i r].
    + injection Hf as <-. eexists. reflexivity.
    + rewrite lookupNode_cons in Hf |- *. rewrite Hcs in Hf. cbn in Hf |- *.
      destruct (decide (i = i0)) as [->|Hi].
      * rewrite Hi0 in Hf. cbn in Hf.
        rewrite list_lookup_insert_eq by (eapply lookup_lt_Some, Hi0). cbn.
        apply IH; [done | congruence | done].
      * rewrite list_lookup_insert_ne by done.
        destruct (cs !! i) as [x|]; [|done]. cbn in Hf |- *. rewrite Hf.
        exists (children f). by rewrite set_children_id.
Qed.

(** ** The function pass *)

Section FunctionPass.

Variable tables : TableStore.

Lemma functionBlock_set_children c f blk :
  functionBlock tables (set_children c f) blk ↔ functionBlock tables f blk.
Proof. reflexivity. Qed.

Lemma generateFunctionCode_block f g f' g' :
  inFunction g = true →
  generateFunctionCode tables f g = Ok (f', g') →
  ∃ blk b',
    functionBlock tables f blk ∧
    output (codeEmitter g') = output (codeEmitter g) ++ blk ∧
    functions g' = functions g ∧ inFunction g' = true ∧
    f' = set_body (Some b') (set_params (@rev string <$> params f) f).
Proof.
  intros Hin H.
  apply generateFunctionCode_inv in H
    as (sc & n & syms & b & b' & d1 & g2 & Hsc & Hn & Hl & Hb & Hrun & -> & ->).
  pose proof (internalGenerateCode_growing b 0 _ _ _ (Nat.le_0_l _) Hrun)
    as (Hfs & Hinf & _ & _ & seg & Hout & _).
  exists (functionLines (js_str (name f)) n (params f) syms seg), b'.
  split_and!.
  - exists sc, n, syms, b, seg. split_and!; try done.
    eexists _, b', g2. split_and!; [| |exact Hrun|exact Hout]; done.
  - rewrite output_emit, Hout, output_emit. unfold functionLines.
    by rewrite <- !app_assoc.
  - cbn. by rewrite Hfs.
  - cbn. by rewrite Hinf.
  - reflexivity.
Qed.

Lemma generateFunctions_inv refs : ∀ cur g ast' g',
  NoDup refs → inFunction g = true →
  (∀ r, r ∈ refs → is_Some (lookupNode cur r)) →
  generateFunctions tables refs cur g = Ok (ast', g') →
  ∃ blocks,
    output (codeEmitter g') = output (codeEmitter g) ++ concat blocks ∧
    Forall2 (λ r blk, ∃ f, lookupNode cur r = Some f ∧
                           functionBlock tables f blk) refs blocks ∧
    functions g' = functions g ∧ inFunction g' = true ∧
    (∀ r f, r ∈ refs → lookupNode cur r = Some f →
            ∃ f', lookupNode ast' r = Some f' ∧ generatedFunction f f') ∧
    (∀ r f, r ∉ refs → lookupNode cur r = Some f →
            ∃ c, lookupNode ast' r = Some (set_children c f)).
Proof.
  induction refs as [|r0 refs IH]; intros cur g ast' g' Hnd Hin Hres H.
  - injection H as <- <-. exists []. cbn. rewrite app_nil_r.
    split_and!; try done.
    + intros ? ? Hr. by apply elem_of_nil in Hr.
    + intros r f _ Hf. exists (children f). by rewrite set_children_id.
  - cbn [generateFunctions] in H.
    destruct (lookupNode cur r0) as [f0|] eqn:Hf0; [|discriminate].
    apply bind_Ok in H as (f0' & g1 & Hgen & H).
    apply generateFunctionCode_block in Hgen
      as (blk & b' & Hblk & Hout & Hfs & Hin1 & Hf0'); [|exact Hin].
    apply NoDup_cons in Hnd as [Hr0 Hnd].
    assert (Hch : children f0' = children f0) by (by subst f0').
    assert (Hstep : ∀ r f, r ≠ r0 → lookupNode cur r = Some f →
              ∃ c, lookupNode (updateNode cur r0 f0') r = Some (set_children c f)).
    { intros r f Hne Hf. by eapply lookupNode_updateNode_ne. }
    apply IH in H as (blocks & Hout' & Hbl & Hfs' & Hin' & Hdone & Hrest);
      [|done|done|].
    2:{ intros r Hr. destruct (Hres r) as [f Hf]; [by right|].
        destruct (Hstep r f) as [c Hc]; [by intros ->|done|]. eauto. }
    exists (blk :: blocks). split_and!.
    + rewrite Hout', Hout. cbn [concat]. by rewrite <- app_assoc.
    + constructor; [eauto|].
      apply Forall2_same_length_lookup. split; [by eapply Forall2_length|].
      intros i r blk' Hi Hi'.
      destruct (Forall2_lookup_lr _ _ _ _ _ _ Hbl Hi Hi') as (f1 & Hf1 & Hb1).
      destruct (Hres r) as [f Hf]; [right; by eapply list_elem_of_lookup_2|].
      destruct (Hstep r f) as [c Hc];
        [intros ->; apply Hr0; by eapply list_elem_of_lookup_2 | done |].
      rewrite Hc in Hf1. injection Hf1 as <-.
      exists f. split; [done|]. by apply functionBlock_set_children in Hb1.
    + congruence.
    + done.
    + intros r f [->|Hr]%elem_of_cons Hf.
      * rewrite Hf0 in Hf. injection Hf as <-.
        destruct (Hrest r0 f0') as [c Hc];
          [done | by eapply lookupNode_updateNode_eq |].
        eexists. split; [exact Hc|]. subst f0'. by eexists _, _.
      * destruct (Hstep r f) as [c Hc]; [by intros -> | done |].
        destruct (Hdone r _ Hr Hc) as (f' & Hf' & c' & b & ->).
        eexists. split; [exact Hf'|]. by eexists _, _.
    + intros r f [Hne Hr]%not_elem_of_cons Hf.
      destruct (Hstep r f) as [c Hc]; [done | done |].
      destruct (Hrest r _ Hr Hc) as [c' Hc']. eauto.
Qed.

End FunctionPass.

(** ** The whole generator *)

Section GenerateCode.

Variable MAX_SCRATCH : nat.
Variable tables : TableStore.

Lemma generateCode_inv ast g ast' g' :
  generateCode MAX_SCRATCH tables ast g = Ok (ast', g') →
  let refs := collectFunctions ast [] [] in
  let g0 := set_functions refs
              (set_curFunction None (set_inFunction false g)) in
  ∃ d0 ast1 g1,
    internalGenerateCode ast
      (emit (if decide (0 < length refs) then bootstrapLines MAX_SCRATCH else [])
            d0 g0) = Ok (ast1, g1) ∧
    if decide (0 < length refs) then
      ∃ g2,
        generateFunctions tables refs ast1
          (set_inFunction true
             (emit [Instruction "b program_end" None]
                   (stackDepth (codeEmitter g1)) g1)) = Ok (ast', g2) ∧
        g' = emit [SectionBreak None; Label "program_end" None]
                  (stackDepth (codeEmitter g2)) g2
    else ast' = ast1 ∧ g' = g1.
Proof.
  unfold generateCode. intros H. cbv zeta.
  do 5 gen_step H. cbn [functions set_functions] in H.
  apply bind_Ok in H as ([] & gb & Hboot & H).
  apply bind_Ok in H as (ast1 & g1 & Hwalk & H).
  gen_step H.
  pose proof (internalGenerateCode_growing ast 0 _ _ _ (Nat.le_0_l _) Hwalk)
    as (Hfs & _).
  assert (Hgb : ∃ d0, gb = emit (if decide (0 < length (collectFunctions ast [] []))
                                 then bootstrapLines MAX_SCRATCH else []) d0
                     (set_functions (collectFunctions ast [] [])
                        (set_curFunction None (set_inFunction false g)))).
  { destruct (decide (0 < length (collectFunctions ast [] []))).
    - do 3 gen_step Hboot. rewrite section_eq in Hboot.
      injection Hboot as <-. rewrite emit_emit. eexists. reflexivity.
    - injection Hboot as <-. exists (stackDepth (codeEmitter g)).
      unfold emit, set_codeEmitter, set_functions. cbn. rewrite app_nil_r.
      by destruct g as [? ? ? ? []]. }
  destruct Hgb as [d0 ->]. rewrite Hfs in H. cbn [functions emit set_codeEmitter set_functions] in H.
  exists d0, ast1, g1. split; [exact Hwalk|].
  destruct (decide (0 < length (collectFunctions ast [] []))).
  - do 2 gen_step H.
    apply bind_Ok in H as (ast2 & g2 & Hgen & H).
    do 2 gen_step H. injection H as <- <-.
    rewrite Nat.sub_0_r, Nat.add_0_r in Hgen.
    exists g2. split; [exact Hgen | reflexivity].
  - by injection H as <- <-.
Qed.

Lemma generateCode_shape (ast : ASTNode) (g : CodeGenerator)
    (ast' : ASTNode) (g' : CodeGenerator) :
  generateCode MAX_SCRATCH tables ast g = Ok (ast', g') →
  functions g' = collectFunctions ast [] [] ∧
  ∃ globals k,
    Forall (controlLine (controlStatementId g) k) globals ∧
    (∃ g0 ast1 g1,
       inFunction g0 = false ∧ curFunction g0 = None ∧
       internalGenerateCode ast g0 = Ok (ast1, g1) ∧
       output (codeEmitter g1) = output (codeEmitter g0) ++ globals) ∧
    match collectFunctions ast [] [] with
    | [] =>
        inFunction g' = false ∧
        output (codeEmitter g') = output (codeEmitter g) ++ globals
    | refs =>
        inFunction g' = true ∧
        ∃ blocks,
          Forall2 (λ r blk, ∃ f, lookupNode ast r = Some f ∧
                                 functionBlock tables f blk) refs blocks ∧
          output (codeEmitter g')
          = output (codeEmitter g) ++ bootstrapLines MAX_SCRATCH ++ globals ++
            [Instruction "b program_end" None] ++ concat blocks ++
            [SectionBreak None; Label "program_end" None]
    end.
Proof.
  intros H. apply generateCode_inv in H as (d0 & ast1 & g1 & Hwalk & H).
  cbv zeta in H.
  pose proof (collectFunctions_paths ast []) as [Hnd Hmem].
  pose proof (internalGenerateCode_keepsFunctions _ _ _ _ Hwalk) as Hkeep.
  assert (grows (controlStatementId g) _ g1)
    as (Hfs & Hinf & _ & _ & globals & Hout & Hctl)
    by (eapply internalGenerateCode_growing; [|exact Hwalk]; cbn; lia).
  cbn [functions inFunction emit set_codeEmitter set_functions
       set_curFunction set_inFunction] in Hfs, Hinf.
  set (refs := collectFunctions ast [] []) in *.
  destruct (decide (0 < length refs)) as [Hlen|Hlen].
  - destruct H as (g2 & Hgen & ->).
    apply generateFunctions_inv in Hgen
      as (blocks & Hout2 & Hbl & Hfs2 & Hin2 & _ & _); [|done|done|].
    2:{ intros r (p & f & -> & Hp & Hf)%Hmem.
        destruct (Hkeep p f Hp) as (f' & Hf' & _). by exists f'. }
    split; [cbn; by rewrite Hfs2|].
    exists globals, (controlStatementId g1).
    split; [exact Hctl|]. split.
    { eexists _, ast1, g1. split_and!; [| |exact Hwalk|exact Hout]; done. }
    destruct refs as [|r0 refs'] eqn:Hrefs; [cbn in Hlen; lia|].
    split; [done|]. exists blocks. split.
    + apply Forall2_same_length_lookup. split; [by eapply Forall2_length|].
      intros i r blk Hi Hi'.
      destruct (Forall2_lookup_lr _ _ _ _ _ _ Hbl Hi Hi') as (f1 & Hf1 & Hb1).
      destruct (Hmem r) as [(p & f & -> & Hp & Hf) _];
        [by eapply list_elem_of_lookup_2|].
      destruct (Hkeep p f Hp) as (f' & Hf' & Hc). cbn [app] in Hf1.
      rewrite Hf' in Hf1. injection Hf1 as <-.
      destruct (Hc Hf) as [c ->].
      exists f. split; [done|]. by apply functionBlock_set_children in Hb1.
    + rewrite output_emit, Hout2. cbn [output codeEmitter set_inFunction].
      rewrite output_emit, Hout, output_emit. cbn [output codeEmitter].
      by rewrite <- !app_assoc.
  - destruct H as [-> ->]. split; [exact Hfs|].
    exists globals, (controlStatementId g1). split; [exact Hctl|]. split.
    { eexists _, ast1, g1. split_and!; [| |exact Hwalk|exact Hout]; done. }
    destruct refs as [|r0 refs']; [|cbn in Hlen; lia].
    split; [exact Hinf|]. rewrite Hout, output_emit. cbn.
    by rewrite app_nil_r.
Qed.

(** X16: the output of a successful [generateCode].  [functions] ends up
    holding the collected references.  Without a function declaration the
    output is the code of the walk of the tree and nothing else.  With one,
    it is: the bootstrap of the stack pointer, the code of the walk of the
    tree (generated outside any function, and whose only labels are those
    of control statements), [b program_end], one block per collected
    function, in collection order, built from the name, scope, parameters
    and body of the declaration as it was in the tree handed in, then a
    blank line and the label [program_end]. *)
Theorem generateCode_layout (ast : ASTNode) (g : CodeGenerator)
    (ast' : ASTNode) (g' : CodeGenerator) :
  generateCode MAX_SCRATCH tables ast g = Ok (ast', g') →
  functions g' = collectFunctions ast [] [] ∧
  ∃ globals k,
    Forall (controlLine (controlStatementId g) k) globals ∧
    (∃ g0 ast1 g1,
       inFunction g0 = false ∧ curFunction g0 = None ∧
       internalGenerateCode ast g0 = Ok (ast1, g1) ∧
       output (codeEmitter g1) = output (codeEmitter g0) ++ globals) ∧
    match collectFunctions ast [] [] with
    | [] =>
        inFunction g' = false ∧
        output (codeEmitter g') = output (codeEmitter g) ++ globals
    | refs =>
        inFunction g' = true ∧
        ∃ blocks,
          Forall2 (λ r blk, ∃ f, lookupNode ast r = Some f ∧
                                 functionBlock tables f blk) refs blocks ∧
          output (codeEmitter g')
          = output (codeEmitter g) ++ bootstrapLines MAX_SCRATCH ++ globals ++
            [Instruction "b program_end" None] ++ concat blocks ++
            [SectionBreak None; Label "program_end" None]
    end.
Proof. apply generateCode_shape. Qed.

Lemma generateCode_mutation (ast : ASTNode) (g : CodeGenerator)
    (ast' : ASTNode) (g' : CodeGenerator) (r : NodeRef) (f : ASTNode) :
  generateCode MAX_SCRATCH tables ast g = Ok (ast', g') →
  lookupNode ast r = Some f →
  nodeType f = "function-declaration" →
  ∃ f', lookupNode ast' r = Some f' ∧
        params f' = @rev string <$> params f ∧
        nodeType f' = nodeType f ∧ name f' = name f ∧ scope f' = scope f.
Proof.
  intros H Hr Hf. apply generateCode_inv in H as (d0 & ast1 & g1 & Hwalk & H).
  cbv zeta in H.
  pose proof (collectFunctions_paths ast []) as [Hnd Hmem].
  pose proof (internalGenerateCode_keepsFunctions _ _ _ _ Hwalk) as Hkeep.
  assert (Hin : r ∈ collectFunctions ast [] []) by (apply Hmem; by exists r, f).
  destruct (decide (0 < length (collectFunctions ast [] []))) as [Hlen|Hlen].
  2:{ destruct (collectFunctions ast [] []); [by apply elem_of_nil in Hin|].
      cbn in Hlen. lia. }
  destruct H as (g2 & Hgen & ->).
  apply generateFunctions_inv in Hgen
    as (blocks & _ & _ & _ & _ & Hdone & _); [|done|done|].
  2:{ intros r' (p & f0 & -> & Hp & Hf0)%Hmem.
      destruct (Hkeep p f0 Hp) as (f' & Hf' & _). by exists f'. }
  destruct (Hkeep r f Hr) as (f1 & Hf1 & Hc). destruct (Hc Hf) as [c ->].
  destruct (Hdone r _ Hin Hf1) as (f' & Hf' & c' & b & ->).
  eexists. split; [exact Hf'|]. split_and!; reflexivity.
Qed.

(** X17: [generateCode] mutates the tree it is handed: every function
    declaration that a path through the [children] lists reaches sits at
    the same path afterwards with its parameter list reversed, and with its
    type, name and scope as before. *)
Theorem generateCode_reverses_params (ast : ASTNode) (g : CodeGenerator)
    (ast' : ASTNode) (g' : CodeGenerator) (r : NodeRef) (f : ASTNode) :
  generateCode MAX_SCRATCH tables ast g = Ok (ast', g') →
  lookupNode ast r = Some f →
  nodeType f = "function-declaration" →
  ∃ f', lookupNode ast' r = Some f' ∧
        params f' = @rev string <$> params f ∧
        nodeType f' = nodeType f ∧ name f' = name f ∧ scope f' = scope f.
Proof. apply generateCode_mutation. Qed.

End GenerateCode.

Lemma generateCode_layout_witness :
  ∃ ast' g',
    generateCode 255 sampleTables sampleProgram freshGenerator = Ok (ast', g') ∧
    functions g' = collectFunctions sampleProgram [] [].
Proof.
  destruct (generateCode 255 sampleTables sampleProgram freshGenerator)
    as [[ast' g']|e] eqn:E; [|vm_compute in E; discriminate].
  exists ast', g'. split; [reflexivity|].
  exact (proj1 (generateCode_layout 255 sampleTables _ _ _ _ E)).
Defined.

Lemma generateCode_reverses_params_witness :
  ∃ ast' g' f',
    generateCode 255 sampleTables sampleProgram freshGenerator = Ok (ast', g') ∧
    lookupNode ast' [0] = Some f' ∧ params f' = Some ["b"; "a"].
Proof.
  destruct (generateCode 255 sampleTables sampleProgram freshGenerator)
    as [[ast' g']|e] eqn:E; [|vm_compute in E; discriminate].
  destruct (generateCode_reverses_params 255 sampleTables sampleProgram
              freshGenerator ast' g' [0] sampleFunction E eq_refl eq_refl)
    as (f' & Hf' & Hp & _).
  exists ast', g', f'. split; [reflexivity|]. split; [exact Hf' | exact Hp].
Defined.

(** ** The tables the resolver builds *)

Lemma extends_refl store : extends store store.
Proof. split; [done|]. intros t tbl H. by exists tbl. Qed.

Lemma extends_trans s1 s2 s3 : extends s1 s2 → extends s2 s3 → extends s1 s3.
Proof.
  intros [H1 H1'] [H2 H2']. split; [lia|]. intros t tbl Ht.
  destruct (H1' t tbl Ht) as (tbl2 & Ht2 & Hp2 & He2).
  destruct (H2' t tbl2 Ht2) as (tbl3 & Ht3 & Hp3 & He3).
  exists tbl3. split_and!; [done | congruence | by etrans].
Qed.

Lemma extending_ret {A} (a : A) : extending (ret a).
Proof. intros s a' s' [= <- <-]. apply extends_refl. Qed.

Lemma extending_throw {A} e : extending (@throw _ A e).
Proof. intros s a s' H. discriminate H. Qed.

Lemma extending_gets {A} (f : TableStore → A) : extending (gets f).
Proof. intros s a s' [= <- <-]. apply extends_refl. Qed.

Lemma extending_bind {A B} (m : Res A) (k : A → Res B) :
  extending m → (∀ a, extending (k a)) → extending (bind m k).
Proof.
  intros Hm Hk s b s' H. apply bind_Ok in H as (a & s1 & H1 & H2).
  eapply extends_trans; [eapply Hm, H1 | eapply Hk, H2].
Qed.

Lemma extending_forEach (rec : ASTNode → Res ASTNode) l :
  Forall (λ n, extending (rec n)) l → extending (forEach rec l).
Proof.
  induction 1 as [|x l Hx Hl IH]; cbn; [apply extending_ret|].
  apply extending_bind; [exact Hx|]. intros x'.
  apply extending_bind; [exact IH|]. intros l'. apply extending_ret.
Qed.

Lemma extending_walkList (rec : ASTNode → Res ASTNode) l :
  Forall (λ n, extending (rec n)) (default [] l) → extending (walkList rec l).
Proof.
  destruct l as [l|]; cbn; [|intros _; apply extending_ret].
  intros H. apply extending_bind; [by apply extending_forEach|].
  intros l'. apply extending_ret.
Qed.

Lemma extending_walkRequired (rec : ASTNode → Res ASTNode) x :
  Forall (λ n, extending (rec n)) (option_list x) →
  extending (walkRequired rec x).
Proof.
  destruct x as [n|]; cbn; [|intros _; apply extending_throw].
  intros H. apply Forall_cons in H as [H _].
  apply extending_bind; [exact H|]. intros n'. apply extending_ret.
Qed.

Lemma extending_walkOptional (rec : ASTNode → Res ASTNode) x :
  Forall (λ n, extending (rec n)) (option_list x) →
  extending (walkOptional rec x).
Proof.
  destruct x as [n|]; cbn; [|intros _; apply extending_ret].
  intros H. apply Forall_cons in H as [H _].
  apply extending_bind; [exact H|]. intros n'. apply extending_ret.
Qed.

Lemma extending_newSymbolTable p : extending (newSymbolTable p).
Proof.
  intros s t s' [= <- <-]. split; [rewrite length_app; lia|].
  intros t tbl Ht. exists tbl. split_and!; [|done|done].
  by apply lookup_app_l_Some.
Qed.

Lemma extending_define t nm kind : extending (define t nm kind).
Proof.
  intros s sym s' H. apply define_inv in H as (tbl & Ht & Hn & _ & ->).
  unfold extends, TableStore, TableRef in *.
  split; [by rewrite length_insert|].
  intros t0 tbl0 Ht0. destruct (decide (t0 = t)) as [->|Hne].
  - rewrite list_lookup_insert_eq by (eapply lookup_lt_Some, Ht).
    eexists. split; [reflexivity|]. cbn.
    rewrite Ht in Ht0. injection Ht0 as <-.
    split; [done|]. by apply insert_subseteq.
  - rewrite list_lookup_insert_ne by done. by exists tbl0.
Qed.

Lemma extending_declareHandler kind n t : extending (declareHandler kind n t).
Proof.
  unfold declareHandler. apply extending_bind; [apply extending_gets|].
  intros []; [apply extending_throw|].
  apply extending_bind; [apply extending_define|]. intros s.
  apply extending_ret.
Qed.

Lemma extending_assignmentHandler n t : extending (assignmentHandler n t).
Proof.
  unfold assignmentHandler.
  repeat first [ apply extending_ret | apply extending_throw
               | apply extending_gets
               | apply extending_bind; [|intros ?]
               | case_match ].
Qed.

Lemma internalResolveSymbols_extending n : ∀ t,
  extending (internalResolveSymbols n t).
Proof.
  induction n as [n IH] using ASTNode_ind. intros t.
  unfold subnodes in IH.
  apply Forall_app in IH as [Hch IH].
  apply Forall_app in IH as [Hbody IH].
  apply Forall_app in IH as [_ IH].
  apply Forall_app in IH as [_ IH].
  apply Forall_app in IH as [Hif IH].
  apply Forall_app in IH as [Helse _].
  rewrite internalResolveSymbols_eq. cbv zeta.
  apply extending_bind.
  { apply extending_walkList. eapply Forall_impl; [exact Hch|]. auto. }
  intros c. cbn [nodeType set_children]. unfold nodeHandlers.
  repeat match goal with
         | |- context [String.eqb (nodeType n) ?s] =>
             destruct (String.eqb (nodeType n) s)
         end;
    try apply extending_ret;
    try apply extending_declareHandler; try apply extending_assignmentHandler.
  - apply extending_bind; [apply extending_newSymbolTable|]. intros sc.
    apply extending_bind; [|intros ?; apply extending_ret].
    apply extending_walkRequired. eapply Forall_impl; [exact Hbody|]. auto.
  - repeat first [ apply extending_ret | apply extending_throw
                 | apply extending_gets
                 | apply extending_bind; [|intros ?]
                 | case_match ].
  - apply extending_bind.
    { apply extending_walkRequired. eapply Forall_impl; [exact Hif|]. auto. }
    intros b. apply extending_bind; [|intros ?; apply extending_ret].
    apply extending_walkOptional. eapply Forall_impl; [exact Helse|]. auto.
Qed.

(** X18: the resolver only adds to the symbol tables: after a successful
    resolution every table that existed is still at its place with the
    same parent, and holds every symbol it held before, unchanged; so a
    name that was defined locally in a table stays so. *)
Theorem resolver_only_adds (n : ASTNode) (t : TableRef) (store : TableStore)
    (n' : ASTNode) (store' : TableStore) :
  internalResolveSymbols n t store = Ok (n', store') →
  extends store store' ∧
  ∀ t0 nm, SymbolTable.isDefinedLocally store t0 nm = true →
           SymbolTable.isDefinedLocally store' t0 nm = true.
Proof.
  intros H. apply internalResolveSymbols_extending in H.
  split; [exact H|]. intros t0 nm. unfold SymbolTable.isDefinedLocally.
  destruct (store !! t0) as [tbl|] eqn:Ht; [|discriminate].
  destruct H as [_ H]. destruct (H t0 tbl Ht) as (tbl' & Ht' & _ & Hsub).
  unfold TableStore, TableRef in *. rewrite Ht'.
  intros [s Hs]%bool_decide_eq_true. apply bool_decide_eq_true.
  exists s. by eapply lookup_weaken.
Qed.

Lemma resolver_only_adds_witness :
  ∃ n' store',
    internalResolveSymbols (declareVariableNode "y") 1 sampleTables
    = Ok (n', store') ∧
    SymbolTable.isDefinedLocally store' 1 "a" = true.
Proof.
  destruct (internalResolveSymbols (declareVariableNode "y") 1 sampleTables)
    as [[n' store']|e] eqn:E; [|vm_compute in E; discriminate].
  exists n', store'. split; [reflexivity|].
  apply (proj2 (resolver_only_adds _ _ _ _ _ E)). vm_compute. reflexivity.
Defined.

(** X19: a function declaration is resolved after its children; it gets a
    new, empty table whose parent is the table in force, the table becomes
    the scope of the node, and the body is resolved in it: whatever the
    body declares lands in the new table, and at the end the scope is still
    a child of the table in force.  The table starts empty: the parameters
    are not defined in it. *)
Theorem function_declaration_scope (n : ASTNode) (t : TableRef)
    (store : TableStore) (n' : ASTNode) (store' : TableStore) :
  nodeType n = "function-declaration" →
  internalResolveSymbols n t store = Ok (n', store') →
  ∃ c store1 b b',
    walkList (λ n, internalResolveSymbols n t) (children n) store
    = Ok (c, store1) ∧
    body n = Some b ∧
    internalResolveSymbols b (length store1)
      (store1 ++ [mkSymbolTable ∅ (Some t)]) = Ok (b', store') ∧
    n' = set_body (Some b') (set_scope (Some (length store1)) (set_children c n)) ∧
    ∃ tbl, store' !! length store1 = Some tbl ∧ parent tbl = Some t.
Proof.
  intros Hnt H. rewrite internalResolveSymbols_eq in H. cbv zeta in H.
  apply bind_Ok in H as (c & store1 & Hc & H).
  cbn [nodeType set_children] in H. rewrite Hnt in H. cbn in H.
  apply bind_Ok in H as (b1 & s2 & Hb & [= <- <-]).
  destruct (body n) as [b|] eqn:Hbody; [|discriminate].
  cbn in Hb. apply bind_Ok in Hb as (b' & s3 & Hb & [= <- <-]).
  exists c, store1, b, b'. split_and!; try done.
  apply internalResolveSymbols_extending in Hb as [_ Hb].
  destruct (Hb (length store1) (mkSymbolTable ∅ (Some t)))
    as (tbl & Htbl & Hp & _).
  { unfold TableStore. by rewrite lookup_app_r, Nat.sub_diag. }
  by exists tbl.
Qed.

Lemma function_declaration_scope_witness :
  ∃ n' store',
    internalResolveSymbols functionWithLocal 0 sampleTables = Ok (n', store') ∧
    scope n' = Some 2 ∧
    SymbolTable.isDefinedLocally store' 2 "y" = true ∧
    SymbolTable.isDefinedLocally store' 0 "y" = false.
Proof.
  destruct (internalResolveSymbols functionWithLocal 0 sampleTables)
    as [[n' store']|e] eqn:E; [|vm_compute in E; discriminate].
  destruct (function_declaration_scope functionWithLocal 0 sampleTables
              n' store' eq_refl E)
    as (c & store1 & b & b' & Hc & Hb & Hrun & -> & _).
  injection Hc as <- <-. injection Hb as <-.
  eexists _, store'. split; [reflexivity|]. split; [reflexivity|].
  vm_compute in Hrun. injection Hrun as <- <-. split; vm_compute; reflexivity.
Defined.

(** ** Labels are defined once *)

Lemma labelCount_nil nm : labelCount nm [] = 0.
Proof. reflexivity. Qed.

Lemma labelCount_noLabel nm seg : Forall noLabel seg → labelCount nm seg = 0.
Proof.
  induction 1 as [|l seg Hl _ IH]; [reflexivity|].
  rewrite labelCount_cons, IH. by destruct l.
Qed.

Lemma labelCount_pos nm seg :
  0 < labelCount nm seg → ∃ c, Label nm c ∈ seg.
Proof.
  induction seg as [|l seg IH].
  { unfold labelCount. rewrite filter_nil. cbn. lia. }
  rewrite labelCount_cons. intros H. destruct (isLabel nm l) eqn:E.
  - destruct l as [| nm' c |]; try discriminate. cbn in E.
    apply bool_decide_eq_true in E as ->. exists c. by left.
  - destruct (IH H) as [c' Hc]. exists c'. by right.
Qed.

Lemma tidySeg_noLabel lo hi seg : Forall noLabel seg → tidySeg lo hi seg.
Proof.
  intros H. split.
  - eapply Forall_impl; [exact H|]. by intros [].
  - intros nm. rewrite labelCount_noLabel by done. lia.
Qed.

Lemma tidySeg_app lo mid hi s1 s2 :
  lo ≤ mid → mid ≤ hi → tidySeg lo mid s1 → tidySeg mid hi s2 →
  tidySeg lo hi (s1 ++ s2).
Proof.
  intros H1 H2 [F1 D1] [F2 D2]. split.
  - apply Forall_app. split; (eapply Forall_impl; [eassumption|]);
      intros l; apply controlLine_mono; lia.
  - intros nm. rewrite labelCount_app.
    destruct (decide (0 < labelCount nm s1)) as [Hpos|Hz].
    + apply labelCount_pos in Hpos as [c Hc].
      rewrite Forall_forall in F1. apply F1 in Hc as (p & j & Hp & Hj & ->).
      rewrite (labelCount_control p j mid hi s2 Hp F2) by lia.
      specialize (D1 (p +:+ pretty j)). lia.
    + specialize (D2 nm). lia.
Qed.

Lemma tidy_ret {A} (a : A) : tidy (ret a).
Proof.
  intros g a' g' [= <- <-]. split; [done|]. exists [].
  rewrite app_nil_r. split; [done|]. by apply tidySeg_noLabel.
Qed.

Lemma tidy_throw {A} e : tidy (@throw _ A e).
Proof. intros g a g' H. discriminate H. Qed.

Lemma tidy_gets {A} (f : CodeGenerator → A) : tidy (gets f).
Proof.
  intros g a' g' [= <- <-]. split; [done|]. exists [].
  rewrite app_nil_r. split; [done|]. by apply tidySeg_noLabel.
Qed.

Lemma tidy_bind {A B} (m : Gen A) (k : A → Gen B) :
  tidy m → (∀ a, tidy (k a)) → tidy (bind m k).
Proof.
  intros Hm Hk g b g' H. apply bind_Ok in H as (a & g1 & H1 & H2).
  destruct (Hm _ _ _ H1) as (C1 & s1 & O1 & T1).
  destruct (Hk _ _ _ _ H2) as (C2 & s2 & O2 & T2).
  split; [lia|]. exists (s1 ++ s2). split.
  - by rewrite O2, O1, app_assoc.
  - by eapply tidySeg_app.
Qed.

Lemma tidy_emit_noLabel l d g :
  Forall noLabel l →
  controlStatementId g ≤ controlStatementId (emit l d g) ∧
  ∃ seg, output (codeEmitter (emit l d g)) = output (codeEmitter g) ++ seg ∧
         tidySeg (controlStatementId g) (controlStatementId (emit l d g)) seg.
Proof.
  intros H. split; [done|]. exists l. split; [done|]. by apply tidySeg_noLabel.
Qed.

Lemma tidy_add text pushed popped comment :
  tidy (add text pushed popped comment).
Proof.
  intros g [] g' [_ ->]%add_inv. apply tidy_emit_noLabel. by repeat constructor.
Qed.

Lemma tidy_section title : tidy (section title).
Proof.
  intros g [] g'. rewrite section_eq. intros [= <-].
  apply tidy_emit_noLabel. by repeat constructor.
Qed.

Lemma tidy_resetStack : tidy resetStack.
Proof.
  intros g [] g'. rewrite resetStack_eq. intros [= <-].
  apply tidy_emit_noLabel. constructor.
Qed.

Lemma tidy_popAll : tidy popAll.
Proof.
  intros g [] g'. rewrite popAll_eq. intros [= <-].
  apply tidy_emit_noLabel. apply Forall_replicate. exact I.
Qed.

Lemma tidy_forEach (rec : ASTNode → Gen ASTNode) l :
  Forall (λ x, tidy (rec x)) l → tidy (forEach rec l).
Proof.
  induction 1 as [|x l Hx Hl IH]; cbn.
  - apply tidy_ret.
  - apply tidy_bind; [exact Hx|]. intros x'.
    apply tidy_bind; [exact IH|]. intros l'. apply tidy_ret.
Qed.

Lemma tidy_walkList (rec : ASTNode → Gen ASTNode) l :
  Forall (λ x, tidy (rec x)) (default [] l) → tidy (walkList rec l).
Proof.
  destruct l as [l|]; cbn; [|intros _; apply tidy_ret].
  intros H. apply tidy_bind; [by apply tidy_forEach|].
  intros l'. apply tidy_ret.
Qed.

Lemma tidy_walkRequired (rec : ASTNode → Gen ASTNode) x :
  Forall (λ n, tidy (rec n)) (option_list x) → tidy (walkRequired rec x).
Proof.
  destruct x as [n|]; cbn; [|intros _; apply tidy_throw].
  intros H. apply Forall_cons in H as [H _].
  apply tidy_bind; [exact H|]. intros n'. apply tidy_ret.
Qed.

Lemma tidy_walkOptional (rec : ASTNode → Gen ASTNode) x :
  Forall (λ n, tidy (rec n)) (option_list x) → tidy (walkOptional rec x).
Proof.
  destruct x as [n|]; cbn; [|intros _; apply tidy_ret].
  intros H. apply Forall_cons in H as [H _].
  apply tidy_bind; [exact H|]. intros n'. apply tidy_ret.
Qed.

Lemma tidy_subWalks (rec : ASTNode → Gen ASTNode) n :
  Forall (λ x, tidy (rec x)) (subnodes n) → tidyWalks (subWalks rec n).
Proof.
  unfold subnodes. rewrite !Forall_app.
  intros (Hc & Hb & Hi & Ha & Hib & Heb & Hfa).
  unfold tidyWalks. split_and!; cbn.
  - by apply tidy_walkOptional.
  - by apply tidy_walkRequired.
  - by apply tidy_walkOptional.
  - by apply tidy_walkRequired.
  - by apply tidy_walkList.
Qed.

Ltac tidy_step :=
  first
    [ assumption
    | apply tidy_ret | apply tidy_throw | apply tidy_gets
    | apply tidy_add | apply tidy_section
    | apply tidy_resetStack | apply tidy_popAll
    | apply tidy_bind; [|intros ?] ].

Lemma tidy_storeSymbol s : tidy (storeSymbol s).
Proof. unfold storeSymbol. case_match; repeat tidy_step. Qed.

Lemma tidy_storeSymbols l : tidy (storeSymbols l).
Proof.
  induction l as [|s l IH]; cbn; [apply tidy_ret|].
  apply tidy_bind; [apply tidy_storeSymbol | intros _; exact IH].
Qed.

Lemma tidy_builtins sub fname b n :
  tidyWalks sub → builtins sub fname = Some b → tidy (b n).
Proof.
  intros (Hi & Hib & Heb & Hb & Hfa). unfold builtins, inheritedMember.
  repeat (case_match; [intros [= <-]; unfold genArgs;
                       repeat first [tidy_step | case_match] |]).
  discriminate.
Qed.

Lemma tidySeg_mono lo hi lo' hi' seg :
  lo' ≤ lo → hi ≤ hi' → tidySeg lo hi seg → tidySeg lo' hi' seg.
Proof.
  intros ? ? [F D]. split; [|exact D].
  eapply Forall_impl; [exact F|]. intros l. by apply controlLine_mono.
Qed.

Lemma tidy_pre sub nt n :
  tidyWalks sub → nt ≠ "while-statement" →
  tidy (runHook (visitors sub nt ≫= pre) n).
Proof.
  intros (Hi & Hib & Heb & Hb & Hfa) Hnt.
  visitor_cases; try (repeat first [tidy_step | case_match]; fail).
  match goal with
  | H : String.eqb _ "while-statement" = true |- _ =>
      apply String.eqb_eq in H; contradiction
  end.
Qed.

Lemma tidy_post sub nt n :
  tidyWalks sub → nt ≠ "while-statement" → nt ≠ "if-statement" →
  tidy (runHook (visitors sub nt ≫= post) n).
Proof.
  intros Hsub Hnt Hnt'. pose proof Hsub as (Hi & Hib & Heb & Hb & Hfa).
  visitor_cases;
    try (repeat first [tidy_step | apply tidy_storeSymbol
                      | apply tidy_storeSymbols | case_match]; fail).
  - match goal with
    | H : String.eqb _ "if-statement" = true |- _ =>
        apply String.eqb_eq in H; contradiction
    end.
  - match goal with
    | H : String.eqb _ "while-statement" = true |- _ =>
        apply String.eqb_eq in H; contradiction
    end.
  - case_match eqn:Eb.
    + eapply tidy_builtins; eauto.
    + repeat tidy_step.
Qed.

(** The lines of a statement that defines two labels with its own id [k]
    around lines that define other labels. *)
Lemma distinct_with_own p1 p2 (k : nat) lo hi inner lines :
  p1 ∈ controlPrefixes → p2 ∈ controlPrefixes → p1 ≠ p2 →
  tidySeg lo hi inner → k ≤ lo ∨ hi < k →
  (∀ nm, labelCount nm lines
         = labelCount nm inner +
           (if bool_decide (p1 +:+ pretty k = nm) then 1 else 0) +
           (if bool_decide (p2 +:+ pretty k = nm) then 1 else 0)) →
  distinctLabels lines.
Proof.
  intros H1 H2 Hne [F D] Hk Hcount nm. rewrite Hcount.
  repeat case_bool_decide; subst.
  - exfalso. match goal with H : _ = _ |- _ =>
      apply control_label_inj in H as [? _]; auto end.
  - rewrite (labelCount_control p1 k lo hi inner H1 F Hk). lia.
  - rewrite (labelCount_control p2 k lo hi inner H2 F Hk). lia.
  - specialize (D nm). lia.
Qed.

Lemma internalGenerateCode_tidy n : tidy (internalGenerateCode n).
Proof.
  induction n as [n IH] using ASTNode_ind.
  pose proof (tidy_subWalks internalGenerateCode n IH) as Hsub.
  assert (Hch : tidy (walkList internalGenerateCode (children n))).
  { apply tidy_walkList. unfold subnodes in IH.
    by apply Forall_app in IH as [? _]. }
  destruct (decide (nodeType n = "while-statement")) as [Hw|Hw];
    [|destruct (decide (nodeType n = "if-statement")) as [Hi|Hi]].
  - (* while-statement *)
    intros g n' g' H.
    rewrite internalGenerateCode_eq in H. rewrite Hw in H. eval_visitor_in H.
    apply bind_Ok in H as (n1 & g0 & H0 & H).
    apply bind_Ok in H0 as ([] & gm & [= <-] & H0).
    apply bind_Ok in H0 as (k & gm' & [= <- <-] & H0).
    apply bind_Ok in H0 as ([] & gl & Hl & [= <- <-]).
    rewrite label_eq in Hl. injection Hl as <-.
    apply bind_Ok in H as (c' & g1 & Hc & H).
    cbn [children set_children set_nodeControlStatementId nodeControlStatementId
         js_num controlStatementId set_controlStatementId] in H, Hc.
    destruct c' as [c'|]; [|discriminate].
    apply bind_Ok in H as ([] & g2 & [Hd ->]%add_inv & H).
    apply bind_Ok in H as (b & g3 & Hb & H).
    cbn [set_body nodeControlStatementId js_num] in H.
    apply bind_Ok in H as ([] & g4 & [_ ->]%add_inv & H).
    apply bind_Ok in H as ([] & g5 & Hl & [= <- <-]).
    rewrite label_eq, emit_emit in Hl. injection Hl as <-.
    cbn [walk_body subWalks] in Hb.
    destruct Hsub as (_ & _ & _ & Hbody & _). cbn [walk_body subWalks] in Hbody.
    destruct (Hch _ _ _ Hc) as (Cc & condLines & Oc & Tc).
    destruct (Hbody _ _ _ Hb) as (Cb & bodyLines & Ob & Tb).
    cbn [stackDepth codeEmitter emit set_codeEmitter set_controlStatementId
         controlStatementId output] in Cc, Oc, Tc, Cb, Ob, Tb.
    set (k := controlStatementId g + 1) in *.
    split; [cbn; lia|].
    exists ([Label ("loop_start_" +:+ pretty k) None] ++ condLines ++
            [Instruction ("bz loop_end_" +:+ pretty k) None] ++ bodyLines ++
            [Instruction ("b loop_start_" +:+ pretty k) None;
             Label ("loop_end_" +:+ pretty k) None]).
    split.
    { rewrite output_emit, Ob, Oc. by rewrite <- !app_assoc. }
    cbn [controlStatementId emit set_codeEmitter].
    assert (Tin : tidySeg k (controlStatementId g3) (condLines ++ bodyLines)).
    { eapply tidySeg_app; [| |exact Tc|exact Tb]; lia. }
    split.
    + destruct Tin as [Fin _]. apply Forall_app in Fin as [Fc Fb].
      repeat first [apply Forall_app; split | apply Forall_cons; split
                   | apply Forall_nil]; try exact I.
      * exists "loop_start_", k. split; [set_solver|]. split; [lia|done].
      * eapply Forall_impl; [exact Fc|]. intros l. apply controlLine_mono; lia.
      * eapply Forall_impl; [exact Fb|]. intros l. apply controlLine_mono; lia.
      * exists "loop_end_", k. split; [set_solver|]. split; [lia|done].
    + eapply (distinct_with_own "loop_start_" "loop_end_" k);
        [set_solver | set_solver | done | exact Tin | lia |].
      intros nm. rewrite !labelCount_app, !labelCount_cons, !labelCount_nil.
      cbn [isLabel]. repeat case_bool_decide; lia.
  - (* if-statement *)
    intros g n' g' H.
    rewrite internalGenerateCode_eq in H. rewrite Hi in H. eval_visitor_in H.
    apply bind_Ok in H as (? & ? & [= <- <-] & H).
    apply bind_Ok in H as (c & g1 & Hc & H).
    apply bind_Ok in H as ([] & ? & [= <-] & H).
    apply bind_Ok in H as (k0 & ? & [= <- <-] & H).
    cbn [nodeControlStatementId set_nodeControlStatementId set_ifBlock
         set_elseBlock js_num controlStatementId set_controlStatementId] in H.
    apply bind_Ok in H as ([] & g2 & [Hd ->]%add_inv & H).
    apply bind_Ok in H as (b & g3 & Hib & H).
    apply bind_Ok in H as ([] & ? & [_ ->]%add_inv & H).
    apply bind_Ok in H as ([] & ? & Hl & H).
    rewrite label_eq, emit_emit in Hl. injection Hl as <-.
    apply bind_Ok in H as (b0 & g5 & Heb & H).
    apply bind_Ok in H as ([] & ? & Hl & [= <- <-]).
    rewrite label_eq in Hl. injection Hl as <-.
    destruct Hsub as (_ & Hifb & Helb & _ & _).
    destruct (Hch _ _ _ Hc) as (Cc & condLines & Oc & Tc).
    destruct (Hifb _ _ _ Hib) as (Ci & ifLines & Oi & Ti).
    destruct (Helb _ _ _ Heb) as (Ce & elseLines & Oe & Te).
    cbn [stackDepth codeEmitter emit set_codeEmitter set_controlStatementId
         controlStatementId output] in Ci, Oi, Ti, Ce, Oe, Te.
    set (k := controlStatementId g1 + 1) in *.
    split; [cbn; lia|].
    exists (condLines ++ [Instruction ("bz else_" +:+ pretty k) None] ++
            ifLines ++ [Instruction ("b end_" +:+ pretty k) None;
                        Label ("else_" +:+ pretty k) None] ++
            elseLines ++ [Label ("end_" +:+ pretty k) None]).
    split.
    { rewrite output_emit, Oe, Oi, Oc. by rewrite <- !app_assoc. }
    cbn [controlStatementId emit set_codeEmitter].
    assert (Tie : tidySeg k (controlStatementId g5) (ifLines ++ elseLines)).
    { eapply tidySeg_app; [| |exact Ti|exact Te]; lia. }
    assert (Tc' : ∀ nm, labelCount nm condLines + labelCount nm (ifLines ++ elseLines) ≤ 1).
    { intros nm. rewrite <- labelCount_app.
      assert (T : tidySeg (controlStatementId g) (controlStatementId g5)
                    (condLines ++ ifLines ++ elseLines)).
      { eapply (tidySeg_app _ (controlStatementId g1)); [lia|lia|exact Tc|].
        eapply tidySeg_mono; [| |exact Tie]; lia. }
      apply T. }
    split.
    + destruct Tc as [Fc _], Tie as [Fie _]. apply Forall_app in Fie as [Fi Fe].
      repeat first [apply Forall_app; split | apply Forall_cons; split
                   | apply Forall_nil]; try exact I.
      * eapply Forall_impl; [exact Fc|]. intros l. apply controlLine_mono; lia.
      * eapply Forall_impl; [exact Fi|]. intros l. apply controlLine_mono; lia.
      * exists "else_", k. split; [set_solver|]. split; [lia|done].
      * eapply Forall_impl; [exact Fe|]. intros l. apply controlLine_mono; lia.
      * exists "end_", k. split; [set_solver|]. split; [lia|done].
    + intros nm. rewrite !labelCount_app, !labelCount_cons, !labelCount_nil.
      cbn [isLabel].
      specialize (Tc' nm). rewrite labelCount_app in Tc'.
      destruct Tc as [Fc _], Tie as [Fie _]. apply Forall_app in Fie as [Fi Fe].
      repeat case_bool_decide; subst.
      * exfalso. match goal with H : _ +:+ _ = _ +:+ _ |- _ =>
          apply control_label_inj in H as [? _]; [done|set_solver|set_solver] end.
      * rewrite (labelCount_control "else_" k _ _ condLines ltac:(set_solver) Fc) by lia.
        rewrite (labelCount_control "else_" k _ _ ifLines ltac:(set_solver) Fi) by lia.
        rewrite (labelCount_control "else_" k _ _ elseLines ltac:(set_solver) Fe) by lia.
        lia.
      * rewrite (labelCount_control "end_" k _ _ condLines ltac:(set_solver) Fc) by lia.
        rewrite (labelCount_control "end_" k _ _ ifLines ltac:(set_solver) Fi) by lia.
        rewrite (labelCount_control "end_" k _ _ elseLines ltac:(set_solver) Fe) by lia.
        lia.
      * lia.
  - (* the other nodes *)
    rewrite internalGenerateCode_eq. cbv zeta.
    apply tidy_bind; [by apply tidy_pre|]. intros n1.
    apply tidy_bind; [exact Hch|]. intros c.
    by apply tidy_post.
Qed.

(** ** Control labels and the labels of functions *)

Lemma lastChar_cons c s : s ≠ "" → lastChar (String c s) = lastChar s.
Proof. by destruct s. Qed.

Lemma lastChar_app s t : t ≠ "" → lastChar (s +:+ t) = lastChar t.
Proof.
  intros Ht. induction s as [|c s IH]; [reflexivity|].
  change (String c s +:+ t) with (String c (s +:+ t)).
  rewrite lastChar_cons; [exact IH|].
  destruct s; [exact Ht | discriminate].
Qed.

Lemma lastChar_pretty_N_go x : ∀ s,
  s ≠ "" → lastChar (pretty_N_go x s) = lastChar s.
Proof.
  induction (N.lt_wf_0 x) as [x _ IH]. intros s Hs.
  destruct (decide (x = 0%N)) as [->|Hx]; [by rewrite pretty_N_go_0|].
  rewrite pretty_N_go_step by lia.
  rewrite IH; [by apply lastChar_cons | | discriminate].
  apply N.div_lt; lia.
Qed.

Lemma isDigit_pretty_N_char d : isDigit (pretty_N_char d) = true.
Proof. unfold pretty_N_char. by repeat case_match. Qed.

Lemma lastChar_pretty (j : nat) :
  ∃ c, lastChar (pretty j) = Some c ∧ isDigit c = true.
Proof.
  unfold pretty, pretty_nat, pretty, pretty_N.
  case_decide as Hz; [by eexists|].
  rewrite pretty_N_go_step by lia.
  rewrite lastChar_pretty_N_go by discriminate.
  eexists. split; [reflexivity|]. apply isDigit_pretty_N_char.
Qed.

Lemma lastChar_control p (j : nat) :
  ∃ c, lastChar (p +:+ pretty j) = Some c ∧ isDigit c = true.
Proof.
  destruct (lastChar_pretty j) as (c & Hc & Hd).
  exists c. split; [|exact Hd]. rewrite lastChar_app; [exact Hc|].
  intros E. by rewrite E in Hc.
Qed.

Lemma control_not_name p (j : nat) nm c :
  lastChar nm = Some c → isDigit c = false → nm ≠ p +:+ pretty j.
Proof.
  intros Hl Hd E. destruct (lastChar_control p j) as (c' & Hc' & Hd').
  rewrite <- E, Hl in Hc'. injection Hc' as <-. congruence.
Qed.

Lemma control_not_cleanup p (j : nat) x : p +:+ pretty j ≠ x +:+ "-cleanup".
Proof.
  intros E. destruct (lastChar_control p j) as (c & Hc & Hd).
  rewrite E, lastChar_app in Hc by discriminate.
  injection Hc as <-. discriminate Hd.
Qed.

Lemma control_not_program_end p (j : nat) : p +:+ pretty j ≠ "program_end".
Proof.
  intros E. destruct (lastChar_control p j) as (c & Hc & Hd).
  rewrite E in Hc. injection Hc as <-. discriminate Hd.
Qed.

Lemma mintedOnce_tidy p j lo hi seg :
  p ∈ controlPrefixes → tidySeg lo hi seg → mintedOnce p j lo hi seg.
Proof.
  intros Hp [F D]. split; [apply D|]. intros Hj.
  by apply (labelCount_control p j lo hi).
Qed.

Lemma mintedOnce_noLabel p j lo hi seg :
  Forall noLabel seg → mintedOnce p j lo hi seg.
Proof.
  intros H. unfold mintedOnce. rewrite labelCount_noLabel by done.
  split; [lia|done].
Qed.

Lemma mintedOnce_app p j lo mid hi s1 s2 :
  lo ≤ mid → mid ≤ hi →
  mintedOnce p j lo mid s1 → mintedOnce p j mid hi s2 →
  mintedOnce p j lo hi (s1 ++ s2).
Proof.
  unfold mintedOnce. intros ? ? [A1 Z1] [A2 Z2]. rewrite labelCount_app.
  split.
  - destruct (decide (j ≤ mid)); [rewrite Z2 by lia | rewrite Z1 by lia]; lia.
  - intros Hj. rewrite Z1, Z2 by lia. reflexivity.
Qed.

Lemma noLabel_paramsStoreLines ps syms :
  Forall noLabel (paramsStoreLines ps syms).
Proof.
  unfold paramsStoreLines. revert syms.
  induction ps as [|p ps IH]; intros [|s syms]; cbn; try constructor;
    try exact I.
  repeat (constructor; [exact I|]). apply IH.
Qed.

Lemma noLabel_setupArgumentsLines ps syms :
  Forall noLabel (setupArgumentsLines ps syms).
Proof.
  destruct ps as [ps|]; cbn; [|constructor].
  constructor; [exact I|]. apply noLabel_paramsStoreLines.
Qed.

Section FunctionLabels.

Variable tables : TableStore.
Variable p : string.
Variable j : nat.
Hypothesis Hp : p ∈ controlPrefixes.

Lemma generateFunctionCode_labels f g f' g' :
  js_str (name f) ≠ p +:+ pretty j →
  generateFunctionCode tables f g = Ok (f', g') →
  controlStatementId g ≤ controlStatementId g' ∧
  ∃ L, output (codeEmitter g') = output (codeEmitter g) ++ L ∧
       mintedOnce p j (controlStatementId g) (controlStatementId g') L.
Proof.
  intros Hname H.
  apply generateFunctionCode_inv in H
    as (sc & n & syms & b & b' & d1 & g2 & Hsc & Hn & Hl & Hb & Hrun & -> & ->).
  destruct (internalGenerateCode_tidy b _ _ _ Hrun) as (C & seg & O & T).
  cbn [controlStatementId emit set_codeEmitter set_curFunction] in C, T |- *.
  split; [exact C|].
  exists (functionLines (js_str (name f)) n (params f) syms seg). split.
  { rewrite output_emit, O, output_emit. unfold functionLines.
    by rewrite <- !app_assoc. }
  unfold functionLines.
  assert (Hframe : mintedOnce p j (controlStatementId g) (controlStatementId g)
                     (frameSetupLines (js_str (name f)) n)).
  { unfold mintedOnce, frameSetupLines.
    rewrite !labelCount_cons, labelCount_nil. cbn [isLabel].
    rewrite bool_decide_eq_false_2 by done. split; [lia|done]. }
  assert (Hclean : mintedOnce p j (controlStatementId g2) (controlStatementId g2)
                     (cleanupLines (js_str (name f)))).
  { unfold mintedOnce, cleanupLines.
    rewrite !labelCount_cons, labelCount_nil. cbn [isLabel].
    rewrite bool_decide_eq_false_2; [split; [lia|done]|].
    intros E. symmetry in E. by apply control_not_cleanup in E. }
  apply (mintedOnce_app _ _ _ (controlStatementId g)); [lia|lia|exact Hframe|].
  apply (mintedOnce_app _ _ _ (controlStatementId g)); [lia|lia| |].
  { apply mintedOnce_noLabel, noLabel_setupArgumentsLines. }
  apply (mintedOnce_app _ _ _ (controlStatementId g)); [lia|lia| |].
  { apply mintedOnce_noLabel. by repeat constructor. }
  apply (mintedOnce_app _ _ _ (controlStatementId g2)); [lia|lia| |exact Hclean].
  by apply mintedOnce_tidy.
Qed.

Lemma generateFunctions_labels refs : ∀ cur g ast' g',
  NoDup refs →
  (∀ r, r ∈ refs → is_Some (lookupNode cur r)) →
  (∀ r f, r ∈ refs → lookupNode cur r = Some f →
          js_str (name f) ≠ p +:+ pretty j) →
  generateFunctions tables refs cur g = Ok (ast', g') →
  controlStatementId g ≤ controlStatementId g' ∧
  ∃ L, output (codeEmitter g') = output (codeEmitter g) ++ L ∧
       mintedOnce p j (controlStatementId g) (controlStatementId g') L.
Proof.
  induction refs as [|r0 refs IH]; intros cur g ast' g' Hnd Hres Hnames H.
  - injection H as <- <-. split; [done|]. exists []. rewrite app_nil_r.
    split; [done|]. by apply mintedOnce_noLabel.
  - cbn [generateFunctions] in H.
    destruct (lookupNode cur r0) as [f0|] eqn:Hf0; [|discriminate].
    apply bind_Ok in H as (f0' & g1 & Hgen & H).
    pose proof Hgen as Hinv.
    apply generateFunctionCode_inv in Hinv
      as (_ & _ & _ & _ & b' & _ & _ & _ & _ & _ & _ & _ & _ & Hf0').
    apply generateFunctionCode_labels in Hgen as (C0 & L0 & O0 & M0);
      [|apply (Hnames r0); [by left|done]].
    apply NoDup_cons in Hnd as [Hr0 Hnd].
    assert (Hch : children f0' = children f0) by (by subst f0').
    assert (Hstep : ∀ r f, r ≠ r0 → lookupNode cur r = Some f →
              ∃ c, lookupNode (updateNode cur r0 f0') r = Some (set_children c f)).
    { intros r f Hne Hf. by eapply lookupNode_updateNode_ne. }
    apply IH in H as (C1 & L1 & O1 & M1); [|done| |].
    + split; [lia|]. exists (L0 ++ L1). split.
      * by rewrite O1, O0, app_assoc.
      * by eapply mintedOnce_app.
    + intros r Hr. destruct (Hres r) as [f Hf]; [by right|].
      destruct (Hstep r f) as [c Hc]; [by intros ->|done|]. eauto.
    + intros r f' Hr Hf'. destruct (Hres r) as [f Hf]; [by right|].
      destruct (Hstep r f) as [c Hc]; [by intros ->|done|].
      rewrite Hc in Hf'. injection Hf' as <-. cbn [name set_children].
      apply (Hnames r); [by right|done].
Qed.

Lemma generateCode_labels MAX_SCRATCH ast g ast' g' :
  (∀ r f, lookupNode ast r = Some f →
          nodeType f = "function-declaration" →
          js_str (name f) ≠ p +:+ pretty j) →
  generateCode MAX_SCRATCH tables ast g = Ok (ast', g') →
  ∃ L, output (codeEmitter g') = output (codeEmitter g) ++ L ∧
       labelCount (p +:+ pretty j) L ≤ 1.
Proof.
  intros Hnames H.
  apply generateCode_inv in H as (d0 & ast1 & g1 & Hwalk & H). cbv zeta in H.
  pose proof (collectFunctions_paths ast []) as [Hnd Hmem].
  pose proof (internalGenerateCode_keepsFunctions _ _ _ _ Hwalk) as Hkeep.
  destruct (internalGenerateCode_tidy ast _ _ _ Hwalk) as (C & globals & O & T).
  cbn [controlStatementId emit set_codeEmitter set_functions set_curFunction
       set_inFunction] in C, T.
  rewrite output_emit in O. cbn [output codeEmitter set_functions
    set_curFunction set_inFunction] in O.
  apply (mintedOnce_tidy p j) in T; [|exact Hp].
  destruct (decide (0 < length (collectFunctions ast [] []))) as [Hlen|Hlen].
  - destruct H as (g2 & Hgen & ->).
    apply generateFunctions_labels in Hgen as (C2 & L & O2 & M); [|done| |].
    + cbn [controlStatementId emit set_codeEmitter set_inFunction] in C2, M.
      rewrite output_emit.
      cbn [output codeEmitter set_inFunction emit set_codeEmitter] in O2.
      eexists. split.
      { rewrite O2, O, <- !app_assoc. reflexivity. }
      rewrite !labelCount_app, !labelCount_cons, !labelCount_nil.
      cbn [isLabel].
      rewrite (labelCount_noLabel _ (bootstrapLines MAX_SCRATCH))
        by (by repeat constructor).
      rewrite bool_decide_eq_false_2
        by (intros E; symmetry in E; by apply control_not_program_end in E).
      pose proof (mintedOnce_app p j _ _ _ _ _ C C2 T M) as [Hle _].
      rewrite labelCount_app in Hle. lia.
    + intros r (q & f & -> & Hq & Hf)%Hmem.
      destruct (Hkeep q f Hq) as (f' & Hf' & _). by exists f'.
    + intros r f' (q & f & -> & Hq & Hf)%Hmem Hf'.
      destruct (Hkeep q f Hq) as (f1 & Hf1 & Hc). cbn [app] in Hf'.
      rewrite Hf1 in Hf'. injection Hf' as <-.
      destruct (Hc Hf) as [c ->]. cbn [name set_children]. by eapply Hnames.
  - destruct H as [-> ->]. exists globals. split.
    + rewrite O. by rewrite app_nil_r.
    + apply T.
Qed.

End FunctionLabels.

(** ** The if statement in the whole output *)

(** C7 (as amended): an [if-statement] node mints a fresh control id [k],
    one above the counter as its condition leaves it, and the lines its
    compilation appends are, in this order: the code of the condition,
    [bz else_k], the code of the ifBlock, [b end_k], the label [else_k],
    the code of the elseBlock when there is one, the label [end_k].  Each
    of the two labels is defined exactly once among these lines, exactly
    once among the lines of any walk that contains them, and exactly once
    in the whole output of a [generateCode] that contains them, provided no
    function declaration of the program is named [else_k] or [end_k]:
    function names are emitted as labels as they are. *)
Theorem C7_if_statement_code (n : ASTNode) (g : CodeGenerator)
    (n' : ASTNode) (g' : CodeGenerator) :
  nodeType n = "if-statement" →
  internalGenerateCode n g = Ok (n', g') →
  ∃ condLines ifLines elseLines g1 g3 g5,
    let k := controlStatementId g1 + 1 in
    let g2 := emit [Instruction ("bz else_" +:+ pretty k) None]
                   (stackDepth (codeEmitter g1) - 1)
                   (set_controlStatementId k g1) in
    let g4 := emit [Instruction ("b end_" +:+ pretty k) None;
                    Label ("else_" +:+ pretty k) None]
                   (stackDepth (codeEmitter g3)) g3 in
    let lines :=
      condLines ++ [Instruction ("bz else_" +:+ pretty k) None] ++
      ifLines ++ [Instruction ("b end_" +:+ pretty k) None;
                  Label ("else_" +:+ pretty k) None] ++
      elseLines ++ [Label ("end_" +:+ pretty k) None] in
    emits (walkList internalGenerateCode (children n)) g condLines g1 ∧
    emits (walkRequired internalGenerateCode (ifBlock n)) g2 ifLines g3 ∧
    emits (walkOptional internalGenerateCode (elseBlock n)) g4 elseLines g5 ∧
    g' = emit [Label ("end_" +:+ pretty k) None] (stackDepth (codeEmitter g5)) g5 ∧
    nodeControlStatementId n' = Some k ∧
    controlStatementId g < k ∧
    output (codeEmitter g') = output (codeEmitter g) ++ lines ∧
    labelCount ("else_" +:+ pretty k) lines = 1 ∧
    labelCount ("end_" +:+ pretty k) lines = 1 ∧
    (∀ m G m' G' before after,
       internalGenerateCode m G = Ok (m', G') →
       output (codeEmitter g) = output (codeEmitter G) ++ before →
       output (codeEmitter G') = output (codeEmitter g') ++ after →
       labelCount ("else_" +:+ pretty k) (before ++ lines ++ after) = 1 ∧
       labelCount ("end_" +:+ pretty k) (before ++ lines ++ after) = 1) ∧
    (∀ MAX_SCRATCH tables ast G ast' G' before after,
       generateCode MAX_SCRATCH tables ast G = Ok (ast', G') →
       output (codeEmitter g) = output (codeEmitter G) ++ before →
       output (codeEmitter G') = output (codeEmitter g') ++ after →
       (∀ r f, lookupNode ast r = Some f →
               nodeType f = "function-declaration" →
               js_str (name f) ≠ "else_" +:+ pretty k ∧
               js_str (name f) ≠ "end_" +:+ pretty k) →
       labelCount ("else_" +:+ pretty k) (before ++ lines ++ after) = 1 ∧
       labelCount ("end_" +:+ pretty k) (before ++ lines ++ after) = 1).
Proof.
  intros Hnt H.
  destruct (if_statement_inv n g n' g' Hnt H)
    as (cl & il & el & g1 & g3 & g5 & H1 & H2 & H3 & H4 & H5 & H6 & Ho & Hc1 & Hc2).
  exists cl, il, el, g1, g3, g5. cbv zeta in *.
  set (k := controlStatementId g1 + 1) in *.
  set (lines := cl ++ _) in *.
  assert (Hseg : ∀ (G G' : CodeGenerator) before after seg,
            output (codeEmitter g) = output (codeEmitter G) ++ before →
            output (codeEmitter G') = output (codeEmitter g') ++ after →
            output (codeEmitter G') = output (codeEmitter G) ++ seg →
            seg = before ++ lines ++ after).
  { intros G G' before after seg Hb Ha Oseg.
    rewrite Ha, Ho, Hb, <- !app_assoc in Oseg. by apply app_inv_head in Oseg. }
  split_and!; try assumption.
  - intros m G m' G' before after Hm Hb Ha.
    destruct (internalGenerateCode_tidy m _ _ _ Hm) as (_ & seg & Oseg & _ & D).
    rewrite (Hseg _ _ _ _ _ Hb Ha Oseg) in D.
    pose proof (D ("else_" +:+ pretty k)) as Hle1.
    pose proof (D ("end_" +:+ pretty k)) as Hle2.
    rewrite !labelCount_app in Hle1, Hle2. split; rewrite !labelCount_app; lia.
  - intros MAX_SCRATCH tables ast G ast' G' before after Hm Hb Ha Hnames.
    assert (He1 : "else_" ∈ controlPrefixes) by apply list_elem_of_here.
    assert (He2 : "end_" ∈ controlPrefixes)
      by apply list_elem_of_further, list_elem_of_here.
    destruct (generateCode_labels tables "else_" k
                He1 MAX_SCRATCH ast G ast' G') as (L1 & OL1 & Hle1);
      [intros r f Hr Hf; by apply (Hnames r f) | exact Hm |].
    destruct (generateCode_labels tables "end_" k
                He2 MAX_SCRATCH ast G ast' G') as (L2 & OL2 & Hle2);
      [intros r f Hr Hf; by apply (Hnames r f) | exact Hm |].
    rewrite (Hseg _ _ _ _ _ Hb Ha OL1) in Hle1.
    rewrite (Hseg _ _ _ _ _ Hb Ha OL2) in Hle2.
    rewrite !labelCount_app in Hle1, Hle2. split; rewrite !labelCount_app; lia.
Qed.

(** [if (1) { 2; } else { 3; }] after a function declaration: the
    statement mints an id [k], and the whole output of [generateCode]
    defines [else_k] once. *)
Lemma C7_if_statement_code_witness :
  nodeType sampleIf = "if-statement" ∧
  ∃ n' g' k ast' G',
    internalGenerateCode sampleIf generatorAtIf = Ok (n', g') ∧
    nodeControlStatementId n' = Some k ∧
    generateCode 255 sampleTables programWithIf freshGenerator
    = Ok (ast', G') ∧
    labelCount ("else_" +:+ pretty k) (output (codeEmitter G')) = 1.
Proof.
  split; [reflexivity|].
  destruct (internalGenerateCode sampleIf generatorAtIf) as [[n' g']|e] eqn:E;
    [|vm_compute in E; discriminate].
  destruct (generateCode 255 sampleTables programWithIf freshGenerator)
    as [[ast' G']|e] eqn:E2; [|vm_compute in E2; discriminate].
  destruct (C7_if_statement_code sampleIf generatorAtIf n' g' eq_refl E)
    as (cl & il & el & g1 & g3 & g5 & _ & _ & _ & _ & Hk & _ & Ho & _ & _ & _ & Hall).
  exists n', g', (controlStatementId g1 + 1), ast', G'.
  split; [reflexivity|]. split; [exact Hk|]. split; [reflexivity|].
  assert (Hafter : ∃ after, output (codeEmitter G')
                            = output (codeEmitter g') ++ after).
  { exists (drop (length (output (codeEmitter g'))) (output (codeEmitter G'))).
    pose proof E as E'. pose proof E2 as E2'. vm_compute in E', E2'.
    injection E' as _ <-. injection E2' as _ <-. vm_compute. reflexivity. }
  destruct Hafter as [after Hafter].
  destruct (Hall 255 sampleTables programWithIf freshGenerator ast' G'
              (bootstrapLines 255) after E2 eq_refl Hafter) as [H1 _].
  { intros r f Hr Hf.
    pose proof (proj2 (collectFunctions_paths programWithIf []) r) as Hiff.
    assert (Hin : r ∈ collectFunctions programWithIf [] []).
    { apply Hiff. exists r, f. split; [reflexivity|]. split; assumption. }
    change (r ∈ [[0]]) in Hin.
    apply list_elem_of_singleton in Hin as ->. injection Hr as <-.
    split; eapply (control_not_name _ _ "f"); reflexivity. }
  rewrite Hafter, Ho.
  change (output (codeEmitter generatorAtIf)) with (bootstrapLines 255).
  rewrite <- app_assoc. exact H1.
Defined.

(** C7, counterexample: in [function else_1() {} if (1) {}] the
    if-statement mints the id 1 and the output defines the label [else_1]
    twice, for the statement and for the function. *)
Lemma C7_counterexample :
  ∃ lines,
    emitted (generateCode 255 sampleTables collidingProgram
               freshGenerator) = Ok lines ∧
    Instruction "bz else_1" None ∈ lines ∧
    labelCount "else_1" lines = 2.
Proof.
  eexists. split; [vm_compute; reflexivity|]. split; [|vm_compute; reflexivity].
  repeat first [apply list_elem_of_here | apply list_elem_of_further].
Qed.

(** ** Calls that the builtins table answers by inheritance *)

Lemma function_call_eq n g :
  nodeType n = "function-call" →
  internalGenerateCode n g
  = (let* node1 :=
       match builtins (subWalks internalGenerateCode n) (js_str (name n)) with
       | None =>
           let* a := walkList internalGenerateCode (functionArgs n) in
           ret (set_functionArgs a n)
       | Some _ => ret n
       end in
     let* c := walkList internalGenerateCode (children n) in
     match builtins (subWalks internalGenerateCode n) (js_str (name node1)) with
     | Some builtin => builtin (set_children c node1)
     | None =>
         add ("callsub " +:+ js_str (name node1)) 1
             (match functionArgs node1 with
              | Some a => length a
              | None => 0
              end) None ;;
         ret (set_children c node1)
     end) g.
Proof.
  intros Hnt. rewrite internalGenerateCode_eq, Hnt. reflexivity.
Qed.

(** X20: the lookup of a call's name in the builtins table also finds the
    members the table inherits from [Object.prototype], and takes them for
    builtins.  A call of [toString] or [constructor] therefore compiles to
    the code of the node's children alone: its arguments are not compiled
    and no [callsub] is emitted.  A call of one of the other ten inherited
    names fails with a TypeError once the children are compiled. *)
Theorem inherited_member_call (n : ASTNode) (g : CodeGenerator) :
  nodeType n = "function-call" →
  (js_str (name n) = "toString" ∨ js_str (name n) = "constructor" →
   internalGenerateCode n g
   = (let* c := walkList internalGenerateCode (children n) in
      ret (set_children c n)) g) ∧
  (js_str (name n) ∈ drop 2 inheritedNames →
   ∀ c g1, walkList internalGenerateCode (children n) g = Ok (c, g1) →
           internalGenerateCode n g = Err TypeError).
Proof.
  intros Hnt.
  assert (Hret : ∀ nm, nm = "toString" ∨ nm = "constructor" →
            builtins (subWalks internalGenerateCode n) nm
            = Some (λ node : ASTNode, ret node)).
  { by intros nm [->| ->]. }
  assert (Hthrow : ∀ nm, nm ∈ drop 2 inheritedNames →
            builtins (subWalks internalGenerateCode n) nm
            = Some (λ node : ASTNode, throw TypeError)).
  { intros nm Hnm. unfold inheritedNames in Hnm. cbn [drop] in Hnm.
    repeat (apply elem_of_cons in Hnm as [->|Hnm]; [reflexivity|]).
    by apply elem_of_nil in Hnm. }
  split.
  - intros Hname. rewrite (function_call_eq n g Hnt). unfold bind.
    rewrite (Hret _ Hname). unfold ret at 1.
    destruct (walkList internalGenerateCode (children n) g)
      as [[c g1]|e]; [|reflexivity].
    by rewrite (Hret _ Hname).
  - intros Hname c g1 Hc. rewrite (function_call_eq n g Hnt). unfold bind.
    rewrite (Hthrow _ Hname). unfold ret at 1. rewrite Hc.
    by rewrite (Hthrow _ Hname).
Qed.

Lemma inherited_member_call_witness :
  nodeType sampleInheritedCall = "function-call" ∧
  emitted (internalGenerateCode sampleInheritedCall freshGenerator) = Ok [].
Proof.
  split; [reflexivity|].
  rewrite (proj1 (inherited_member_call sampleInheritedCall freshGenerator
                    eq_refl) (or_introl eq_refl)).
  reflexivity.
Defined.

(** ** The accounting of the local store sequence *)

(** X21: for a local symbol the generator declares the store sequence to
    the emitter with a net effect of two values pushed ([+] is declared as
    pushing two and popping one), while on the machine the sequence leaves
    the compute stack as long as it found it: after an assignment to a
    local the depth the emitter counts is two above the depth of the
    stack. *)
Theorem local_store_accounting (s : Symbol.t) (g : CodeGenerator) :
  Symbol.isGlobal s = false →
  ∃ g', storeSymbol s g = Ok (tt, g') ∧
        output (codeEmitter g') = output (codeEmitter g) ++ opLines (storeOps s) ∧
        stackDepth (codeEmitter g') = stackDepth (codeEmitter g) + 2 ∧
        ∀ m m', run (storeOps s) m = Some m' →
                length (computeStack m') = length (computeStack m).
Proof.
  intros Hs. eexists. rewrite storeSymbol_lines, Hs.
  split_and!; [reflexivity | reflexivity | reflexivity |].
  intros m m' (v & rest & -> & -> & _)%run_storeOps. reflexivity.
Qed.

Lemma local_store_accounting_witness :
  ∃ g', storeSymbol localA (emit [Instruction "int 7" None] 1 freshGenerator)
        = Ok (tt, g') ∧
        stackDepth (codeEmitter g') = 3 ∧
        ∃ m', run (storeOps localA) sampleMachine = Some m' ∧
              length (computeStack m') = 1.
Proof.
  destruct (local_store_accounting localA
              (emit [Instruction "int 7" None] 1 freshGenerator) eq_refl)
    as (g' & Hg' & _ & Hd & Hm).
  exists g'. split; [exact Hg'|]. split; [exact Hd|].
  destruct (run (storeOps localA) sampleMachine) as [m'|] eqn:E;
    [|vm_compute in E; discriminate].
  exists m'. split; [reflexivity|]. exact (Hm sampleMachine m' E).
Defined.

(** ** The two passes of the generator *)




(** ** The parameter list across two runs *)

Lemma concat_lookup {A} (ls : list (list A)) i l :
  ls !! i = Some l →
  concat ls = concat (take i ls) ++ l ++ concat (drop (S i) ls).
Proof.
  intros H. rewrite <- (take_drop_middle ls i l H) at 1.
  by rewrite concat_app.
Qed.

Lemma lookupAll_fun tables sc ps syms syms' :
  lookupAll tables sc ps syms → lookupAll tables sc ps syms' → syms = syms'.
Proof.
  unfold lookupAll. intros H. revert syms'.
  induction H as [|p s ps syms Hp _ IH]; intros syms' H'.
  - by inversion H'.
  - inversion H' as [|? s' ? syms2 Hp' Hrest]; subst.
    f_equal; [congruence | by apply IH].
Qed.

Section TwoRuns.

Variable MAX_SCRATCH : nat.
Variable tables : TableStore.

(** The block of the function declaration at [r] in a successful run. *)
Lemma generateCode_block_of ast g ast' g' r f :
  generateCode MAX_SCRATCH tables ast g = Ok (ast', g') →
  lookupNode ast r = Some f → nodeType f = "function-declaration" →
  ∃ before after blk,
    functionBlock tables f blk ∧
    output (codeEmitter g') = output (codeEmitter g) ++ before ++ blk ++ after.
Proof.
  intros H Hr Hf.
  destruct (generateCode_shape MAX_SCRATCH tables ast g ast' g' H)
    as (_ & globals & k & _ & _ & Hshape).
  destruct (collectFunctions_paths ast []) as [_ Hmem].
  assert (Hin : r ∈ collectFunctions ast [] []) by (apply Hmem; by exists r, f).
  destruct (collectFunctions ast [] []) as [|r0 refs] eqn:Hrefs;
    [by apply elem_of_nil in Hin|].
  destruct Hshape as (_ & blocks & Hbl & Hout).
  apply list_elem_of_lookup_1 in Hin as [i Hi].
  destruct (Forall2_lookup_l _ _ _ _ _ Hbl Hi) as (blk & Hblk & f0 & Hf0 & Hfb).
  rewrite Hr in Hf0. injection Hf0 as <-.
  exists (bootstrapLines MAX_SCRATCH ++ globals ++
          [Instruction "b program_end" None] ++ concat (take i blocks)),
         (concat (drop (S i) blocks) ++
          [SectionBreak None; Label "program_end" None]), blk.
  split; [exact Hfb|]. rewrite Hout, (concat_lookup blocks i blk Hblk).
  by rewrite <- !app_assoc.
Qed.

(** C9: [generateCode] reverses the parameter list of every collected
    function declaration in place.  After a first run the node holds the
    list reversed, and the block the run emitted stores the parameters
    last declared first.  A second run on the tree the first one left
    emits, for the same function, the stores in the opposite order, first
    declared first, and leaves the list as it was at the start. *)
Theorem C9_params_reversed_in_place (ast : ASTNode) (g : CodeGenerator)
    (ast' : ASTNode) (g' : CodeGenerator) (r : NodeRef) (f : ASTNode)
    (ps : list string) :
  generateCode MAX_SCRATCH tables ast g = Ok (ast', g') →
  lookupNode ast r = Some f →
  nodeType f = "function-declaration" →
  params f = Some ps →
  ∃ f' sc n syms,
    lookupNode ast' r = Some f' ∧ params f' = Some (rev ps) ∧
    nodeType f' = nodeType f ∧ name f' = name f ∧
    scope f = Some sc ∧ scope f' = Some sc ∧
    SymbolTable.getNumSymbols tables sc = Ok n ∧
    lookupAll tables sc ps syms ∧
    (∃ before after,
       output (codeEmitter g')
       = output (codeEmitter g) ++ before ++
         frameSetupLines (js_str (name f)) n ++
         [SectionBreak (Some "Setup arguments.")] ++
         paramsStoreLines (rev ps) (rev syms) ++
         [SectionBreak (Some "Function body.")] ++ after) ∧
    ∀ g2 ast'' g'',
      generateCode MAX_SCRATCH tables ast' g2 = Ok (ast'', g'') →
      (∃ before after,
         output (codeEmitter g'')
         = output (codeEmitter g2) ++ before ++
           frameSetupLines (js_str (name f)) n ++
           [SectionBreak (Some "Setup arguments.")] ++
           paramsStoreLines ps syms ++
           [SectionBreak (Some "Function body.")] ++ after) ∧
      ∃ f'', lookupNode ast'' r = Some f'' ∧ params f'' = Some ps.
Proof.
  intros H Hr Hf Hps.
  destruct (generateCode_mutation MAX_SCRATCH tables ast g ast' g' r f H Hr Hf)
    as (f' & Hr' & Hps' & Hnt' & Hnm' & Hsc').
  destruct (generateCode_block_of ast g ast' g' r f H Hr Hf)
    as (before & after & blk & Hfb & Hout).
  destruct Hfb as (sc & n & syms & b & bodyLines & Hsc & Hn & Hl & Hb & _ & ->).
  rewrite Hps in Hl, Hps', Hout.
  cbn [default fmap option_fmap option_map] in Hl, Hps'. unfold id in Hl.
  exists f', sc, n, syms.
  split_and!; try done; [congruence| |].
  - exists before, (bodyLines ++ cleanupLines (js_str (name f)) ++ after).
    rewrite Hout. unfold functionLines. cbn [setupArgumentsLines].
    rewrite <- !app_assoc. reflexivity.
  - intros g2 ast'' g'' H2.
    destruct (generateCode_mutation MAX_SCRATCH tables ast' g2 ast'' g'' r f'
                H2 Hr' ltac:(congruence))
      as (f'' & Hr'' & Hps'' & _).
    destruct (generateCode_block_of ast' g2 ast'' g'' r f' H2 Hr'
                ltac:(congruence))
      as (before2 & after2 & blk2 & Hfb2 & Hout2).
    destruct Hfb2 as (sc2 & n2 & syms2 & b2 & bodyLines2 & Hsc2 & Hn2 & Hl2 &
                      Hb2 & _ & ->).
    rewrite Hps' in Hl2, Hps'', Hout2.
    cbn [default fmap option_fmap option_map] in Hl2, Hps''.
    rewrite rev_involutive in Hps''.
    assert (sc2 = sc) as -> by congruence.
    assert (n2 = n) as -> by congruence.
    assert (rev syms2 = syms) as Hsyms.
    { apply (lookupAll_fun tables sc ps); [|exact Hl].
      pose proof (lookupAll_rev tables _ _ _ Hl2) as Hl3.
      unfold id in Hl3. by rewrite rev_involutive in Hl3. }
    split; [|eauto].
    exists before2, (bodyLines2 ++ cleanupLines (js_str (name f')) ++ after2).
    rewrite Hout2. unfold functionLines. cbn [setupArgumentsLines].
    rewrite rev_involutive, Hsyms, Hnm', <- !app_assoc. reflexivity.
Qed.

End TwoRuns.

Lemma C9_params_reversed_in_place_witness :
  ∃ ast' g' f',
    generateCode 255 sampleTables sampleProgram freshGenerator = Ok (ast', g') ∧
    lookupNode ast' [0] = Some f' ∧ params f' = Some ["b"; "a"].
Proof.
  destruct (generateCode 255 sampleTables sampleProgram freshGenerator)
    as [[ast' g']|e] eqn:E; [|vm_compute in E; discriminate].
  destruct (C9_params_reversed_in_place 255 sampleTables sampleProgram
              freshGenerator ast' g' [0] sampleFunction ["a"; "b"]
              E eq_refl eq_refl eq_refl)
    as (f' & sc & n & syms & Hf' & Hp & _).
  exists ast', g', f'. split; [reflexivity|]. split; [exact Hf' | exact Hp].
Defined.

(** ** The label [program_end] *)

Lemma labelCount_plain nm lo hi seg :
  (∀ p (j : nat), p ∈ controlPrefixes → nm ≠ p +:+ pretty j) →
  Forall (controlLine lo hi) seg → labelCount nm seg = 0.
Proof.
  intros Hnm H. induction H as [|l seg Hl _ IH]; [reflexivity|].
  rewrite labelCount_cons, IH. destruct l as [| nm' c |]; cbn; try reflexivity.
  case_bool_decide as E; [|reflexivity]. exfalso.
  destruct Hl as (p & j & Hp & _ & ->). by apply (Hnm p j).
Qed.

Section PlainLabel.

Variable tables : TableStore.
Variable nm : string.
Hypothesis Hplain : ∀ p (j : nat), p ∈ controlPrefixes → nm ≠ p +:+ pretty j.
Hypothesis Hnocleanup : ∀ x, nm ≠ x +:+ "-cleanup".

Lemma generateFunctionCode_plain f g f' g' :
  js_str (name f) ≠ nm →
  generateFunctionCode tables f g = Ok (f', g') →
  ∃ L, output (codeEmitter g') = output (codeEmitter g) ++ L ∧
       labelCount nm L = 0.
Proof.
  intros Hname H.
  apply generateFunctionCode_inv in H
    as (sc & n & syms & b & b' & d1 & g2 & Hsc & Hn & Hl & Hb & Hrun & -> & ->).
  destruct (internalGenerateCode_tidy b _ _ _ Hrun) as (_ & seg & O & F & _).
  exists (functionLines (js_str (name f)) n (params f) syms seg). split.
  { rewrite output_emit, O, output_emit. unfold functionLines.
    by rewrite <- !app_assoc. }
  unfold functionLines, frameSetupLines, cleanupLines.
  rewrite !labelCount_app, !labelCount_cons, !labelCount_nil. cbn [isLabel].
  rewrite (labelCount_noLabel _ _ (noLabel_setupArgumentsLines _ _)).
  rewrite (labelCount_plain nm _ _ seg Hplain F).
  rewrite !bool_decide_eq_false_2; [reflexivity | | done].
  intros E. by apply (Hnocleanup (js_str (name f))).
Qed.

Lemma generateFunctions_plain refs : ∀ cur g ast' g',
  NoDup refs →
  (∀ r, r ∈ refs → is_Some (lookupNode cur r)) →
  (∀ r f, r ∈ refs → lookupNode cur r = Some f → js_str (name f) ≠ nm) →
  generateFunctions tables refs cur g = Ok (ast', g') →
  ∃ L, output (codeEmitter g') = output (codeEmitter g) ++ L ∧
       labelCount nm L = 0.
Proof.
  induction refs as [|r0 refs IH]; intros cur g ast' g' Hnd Hres Hnames H.
  - injection H as <- <-. exists []. by rewrite app_nil_r.
  - cbn [generateFunctions] in H.
    destruct (lookupNode cur r0) as [f0|] eqn:Hf0; [|discriminate].
    apply bind_Ok in H as (f0' & g1 & Hgen & H).
    pose proof Hgen as Hinv.
    apply generateFunctionCode_inv in Hinv
      as (_ & _ & _ & _ & b' & _ & _ & _ & _ & _ & _ & _ & _ & Hf0').
    apply generateFunctionCode_plain in Hgen as (L0 & O0 & M0);
      [|apply (Hnames r0); [by left|done]].
    apply NoDup_cons in Hnd as [Hr0 Hnd].
    assert (Hch : children f0' = children f0) by (by subst f0').
    assert (Hstep : ∀ r f, r ≠ r0 → lookupNode cur r = Some f →
              ∃ c, lookupNode (updateNode cur r0 f0') r = Some (set_children c f)).
    { intros r f Hne Hf. by eapply lookupNode_updateNode_ne. }
    apply IH in H as (L1 & O1 & M1); [|done| |].
    + exists (L0 ++ L1). split.
      * by rewrite O1, O0, app_assoc.
      * by rewrite labelCount_app, M0, M1.
    + intros r Hr. destruct (Hres r) as [f Hf]; [by right|].
      destruct (Hstep r f) as [c Hc]; [by intros ->|done|]. eauto.
    + intros r f' Hr Hf'. destruct (Hres r) as [f Hf]; [by right|].
      destruct (Hstep r f) as [c Hc]; [by intros ->|done|].
      rewrite Hc in Hf'. injection Hf' as <-. cbn [name set_children].
      apply (Hnames r); [by right|done].
Qed.

End PlainLabel.

Lemma program_end_plain p (j : nat) :
  p ∈ controlPrefixes → "program_end" ≠ p +:+ pretty j.
Proof. intros _ E. symmetry in E. by apply control_not_program_end in E. Qed.

Lemma program_end_no_cleanup x : "program_end" ≠ x +:+ "-cleanup".
Proof.
  intros E. apply (f_equal lastChar) in E.
  rewrite lastChar_app in E by discriminate. discriminate E.
Qed.

(** C2 (as amended): when [generateCode] has collected at least one
    function declaration, what it appends starts with the bootstrap of the
    stack pointer, a section break followed by [int <MAX_SCRATCH>] and
    [store 0]; the code of every collected function comes after the
    unconditional [b program_end]; the last line is the label
    [program_end], and no other line defines that label unless a collected
    function is named [program_end].  When no function declaration was
    collected, what it appends is the code of the walk of the tree and
    nothing else, and no line defines [program_end]. *)
Theorem C2_program_layout (MAX_SCRATCH : nat) (tables : TableStore)
    (ast : ASTNode) (g : CodeGenerator) (ast' : ASTNode) (g' : CodeGenerator) :
  generateCode MAX_SCRATCH tables ast g = Ok (ast', g') →
  ∃ globals,
    (∃ g0 ast1 g1,
       internalGenerateCode ast g0 = Ok (ast1, g1) ∧
       output (codeEmitter g1) = output (codeEmitter g0) ++ globals) ∧
    labelCount "program_end" globals = 0 ∧
    match collectFunctions ast [] [] with
    | [] => output (codeEmitter g') = output (codeEmitter g) ++ globals
    | refs =>
        ∃ blocks,
          Forall2 (λ r blk, ∃ f, lookupNode ast r = Some f ∧
                                 functionBlock tables f blk) refs blocks ∧
          output (codeEmitter g')
          = output (codeEmitter g) ++
            [SectionBreak (Some "Function data stack setup.");
             Instruction ("int " +:+ pretty MAX_SCRATCH)
                         (Some "Initial stack pointer.");
             Instruction "store 0" (Some "Set stack_pointer");
             SectionBreak None] ++
            globals ++ [Instruction "b program_end" None] ++ concat blocks ++
            [SectionBreak None; Label "program_end" None] ∧
          ((∀ r f, lookupNode ast r = Some f →
                   nodeType f = "function-declaration" →
                   js_str (name f) ≠ "program_end") →
           labelCount "program_end"
             ([SectionBreak (Some "Function data stack setup.");
               Instruction ("int " +:+ pretty MAX_SCRATCH)
                           (Some "Initial stack pointer.");
               Instruction "store 0" (Some "Set stack_pointer");
               SectionBreak None] ++
              globals ++ [Instruction "b program_end" None] ++
              concat blocks ++
              [SectionBreak None; Label "program_end" None]) = 1)
    end.
Proof.
  intros H.
  apply generateCode_inv in H as (d0 & ast1 & g1 & Hw & H). cbv zeta in H.
  destruct (collectFunctions_paths ast []) as [Hnd Hmem].
  pose proof (internalGenerateCode_keepsFunctions _ _ _ _ Hw) as Hkeep.
  destruct (internalGenerateCode_tidy ast _ _ _ Hw)
    as (_ & globals & Oseg & Hctl & _).
  exists globals. split; [eauto|].
  split; [exact (labelCount_plain _ _ _ _ program_end_plain Hctl)|].
  rewrite output_emit in Oseg.
  cbn [output codeEmitter set_functions set_curFunction set_inFunction] in Oseg.
  destruct (collectFunctions ast [] []) as [|r0 refs] eqn:Hrefs.
  - cbn [length] in H, Oseg.
    destruct (decide (0 < 0)) as [?|_]; [lia|].
    destruct H as [-> ->]. rewrite Oseg. by rewrite app_nil_r.
  - cbn [length] in H, Oseg.
    destruct (decide (0 < S (length refs))) as [_|?]; [|lia].
    destruct H as (g2 & Hgen & ->).
    assert (Hres : ∀ r, r ∈ r0 :: refs → is_Some (lookupNode ast1 r)).
    { intros r (q & f & -> & Hq & Hf)%Hmem.
      destruct (Hkeep q f Hq) as (f' & Hf' & _). by exists f'. }
    pose proof Hgen as Hgen2.
    apply generateFunctions_inv in Hgen
      as (blocks & Oblocks & Hbl & _); [|done|done|done].
    exists blocks. split_and!.
    + apply Forall2_same_length_lookup. split; [by eapply Forall2_length|].
      intros i r blk Hi Hi'.
      destruct (Forall2_lookup_lr _ _ _ _ _ _ Hbl Hi Hi') as (f1 & Hf1 & Hb1).
      destruct (Hmem r) as [(q & f & -> & Hq & Hf) _];
        [by eapply list_elem_of_lookup_2|].
      destruct (Hkeep q f Hq) as (f' & Hf' & Hc). cbn [app] in Hf1.
      rewrite Hf' in Hf1. injection Hf1 as <-.
      destruct (Hc Hf) as [c ->].
      exists f. split; [done|]. by apply functionBlock_set_children in Hb1.
    + rewrite output_emit, Oblocks.
      cbn [output codeEmitter set_inFunction]. rewrite output_emit, Oseg.
      unfold bootstrapLines. by rewrite <- !app_assoc.
    + intros Hnames.
      apply (generateFunctions_plain tables "program_end" program_end_plain
               program_end_no_cleanup) in Hgen2 as (L & OL & HL);
        [|done|done|].
      * rewrite Oblocks in OL. apply app_inv_head in OL.
        rewrite !labelCount_app, !labelCount_cons, !labelCount_nil, OL, HL.
        rewrite (labelCount_plain _ _ _ _ program_end_plain Hctl).
        reflexivity.
      * intros r f' (q & f & -> & Hq & Hf)%Hmem Hf'.
        destruct (Hkeep q f Hq) as (f1 & Hf1 & Hc). cbn [app] in Hf'.
        rewrite Hf1 in Hf'. injection Hf' as <-.
        destruct (Hc Hf) as [c ->]. cbn [name set_children]. by eapply Hnames.
Qed.

(** C2, counterexample: in [function program_end() { }] the label
    [program_end] is defined twice, by the function and at the end of the
    output. *)
Lemma C2_counterexample :
  ∃ lines,
    emitted (generateCode 255 sampleTables programEndProgram freshGenerator)
    = Ok lines ∧
    labelCount "program_end" lines = 2.
Proof. eexists. split; vm_compute; reflexivity. Qed.

Lemma C2_program_layout_witness :
  ∃ ast' g',
    generateCode 255 sampleTables sampleProgram freshGenerator = Ok (ast', g') ∧
    labelCount "program_end" (output (codeEmitter g')) = 1.
Proof.
  destruct (generateCode 255 sampleTables sampleProgram freshGenerator)
    as [[ast' g']|e] eqn:E; [|vm_compute in E; discriminate].
  exists ast', g'. split; [reflexivity|].
  destruct (C2_program_layout 255 sampleTables sampleProgram freshGenerator
              ast' g' E) as (globals & _ & Hg & Hshape).
  change (collectFunctions sampleProgram [] []) with [[0]] in Hshape.
  destruct Hshape as (blocks & _ & -> & Hb).
  change (output (codeEmitter freshGenerator)) with (@nil Line).
  cbn [app]. cbn [app] in Hb. apply Hb.
  intros r f Hr Hf.
  pose proof (proj2 (collectFunctions_paths sampleProgram []) r) as Hiff.
  assert (Hin : r ∈ collectFunctions sampleProgram [] []).
  { apply Hiff. exists r, f. split; [reflexivity|]. split; assumption. }
  change (r ∈ [[0]]) in Hin.
  apply list_elem_of_singleton in Hin as ->. injection Hr as <-.
  discriminate.
Defined.

(** ** The annotations of the resolver and the assignment visitor *)











(** ** The globals pass and the bodies of the functions *)

Lemma eraseFunctionBodies_eq n :
  eraseFunctionBodies n
  = mkASTNode
      (nodeType n)
      (option_map (map eraseFunctionBodies) (children n))
      (name n) (value n) (opcode n) (args n) (numItemsAdded n)
      (numItemsRemoved n) (params n)
      (if String.eqb (nodeType n) "function-declaration" then None
       else option_map eraseFunctionBodies (body n))
      (option_map eraseFunctionBodies (initializer n))
      (option_map eraseFunctionBodies (assignee n))
      (option_map eraseFunctionBodies (ifBlock n))
      (option_map eraseFunctionBodies (elseBlock n))
      (option_map (map eraseFunctionBodies) (functionArgs n))
      (scope n) (symbol n) (symbols n) (nodeControlStatementId n).
Proof. by destruct n. Qed.

Lemma erase_nodeType n : nodeType (eraseFunctionBodies n) = nodeType n.
Proof. by destruct n. Qed.
Lemma erase_name n : name (eraseFunctionBodies n) = name n.
Proof. by destruct n. Qed.
Lemma erase_value n : value (eraseFunctionBodies n) = value n.
Proof. by destruct n. Qed.
Lemma erase_opcode n : opcode (eraseFunctionBodies n) = opcode n.
Proof. by destruct n. Qed.
Lemma erase_args n : args (eraseFunctionBodies n) = args n.
Proof. by destruct n. Qed.
Lemma erase_numItemsAdded n :
  numItemsAdded (eraseFunctionBodies n) = numItemsAdded n.
Proof. by destruct n. Qed.
Lemma erase_numItemsRemoved n :
  numItemsRemoved (eraseFunctionBodies n) = numItemsRemoved n.
Proof. by destruct n. Qed.
Lemma erase_symbol n : symbol (eraseFunctionBodies n) = symbol n.
Proof. by destruct n. Qed.
Lemma erase_symbols n : symbols (eraseFunctionBodies n) = symbols n.
Proof. by destruct n. Qed.
Lemma erase_nodeControlStatementId n :
  nodeControlStatementId (eraseFunctionBodies n) = nodeControlStatementId n.
Proof. by destruct n. Qed.
Lemma erase_children n :
  children (eraseFunctionBodies n)
  = option_map (map eraseFunctionBodies) (children n).
Proof. by destruct n. Qed.
Lemma erase_functionArgs n :
  functionArgs (eraseFunctionBodies n)
  = option_map (map eraseFunctionBodies) (functionArgs n).
Proof. by destruct n. Qed.
Lemma erase_initializer n :
  initializer (eraseFunctionBodies n)
  = option_map eraseFunctionBodies (initializer n).
Proof. by destruct n. Qed.
Lemma erase_ifBlock n :
  ifBlock (eraseFunctionBodies n) = option_map eraseFunctionBodies (ifBlock n).
Proof. by destruct n. Qed.
Lemma erase_elseBlock n :
  elseBlock (eraseFunctionBodies n)
  = option_map eraseFunctionBodies (elseBlock n).
Proof. by destruct n. Qed.
Lemma erase_body n :
  nodeType n ≠ "function-declaration" →
  body (eraseFunctionBodies n) = option_map eraseFunctionBodies (body n).
Proof.
  intros H. rewrite eraseFunctionBodies_eq. cbn.
  by destruct (String.eqb_spec (nodeType n) "function-declaration").
Qed.

Lemma erase_set_children c n :
  eraseFunctionBodies (set_children c n)
  = set_children (option_map (map eraseFunctionBodies) c) (eraseFunctionBodies n).
Proof. by destruct n. Qed.
Lemma erase_set_functionArgs c n :
  eraseFunctionBodies (set_functionArgs c n)
  = set_functionArgs (option_map (map eraseFunctionBodies) c)
                     (eraseFunctionBodies n).
Proof. by destruct n. Qed.
Lemma erase_set_initializer b n :
  eraseFunctionBodies (set_initializer b n)
  = set_initializer (option_map eraseFunctionBodies b) (eraseFunctionBodies n).
Proof. by destruct n. Qed.
Lemma erase_set_ifBlock b n :
  eraseFunctionBodies (set_ifBlock b n)
  = set_ifBlock (option_map eraseFunctionBodies b) (eraseFunctionBodies n).
Proof. by destruct n. Qed.
Lemma erase_set_elseBlock b n :
  eraseFunctionBodies (set_elseBlock b n)
  = set_elseBlock (option_map eraseFunctionBodies b) (eraseFunctionBodies n).
Proof. by destruct n. Qed.
Lemma erase_set_symbols l n :
  eraseFunctionBodies (set_symbols l n) = set_symbols l (eraseFunctionBodies n).
Proof. by destruct n. Qed.
Lemma erase_set_nodeControlStatementId k n :
  eraseFunctionBodies (set_nodeControlStatementId k n)
  = set_nodeControlStatementId k (eraseFunctionBodies n).
Proof. by destruct n. Qed.
Lemma erase_set_body b n :
  nodeType n ≠ "function-declaration" →
  eraseFunctionBodies (set_body b n)
  = set_body (option_map eraseFunctionBodies b) (eraseFunctionBodies n).
Proof.
  intros H. rewrite (eraseFunctionBodies_eq (set_body b n)),
    (eraseFunctionBodies_eq n). cbn.
  by destruct (String.eqb_spec (nodeType n) "function-declaration").
Qed.

Create Rewrite HintDb erase.
#[local] Hint Rewrite erase_nodeType erase_name erase_value erase_opcode
  erase_args erase_numItemsAdded erase_numItemsRemoved erase_symbol
  erase_symbols erase_nodeControlStatementId erase_children
  erase_functionArgs erase_initializer erase_ifBlock erase_elseBlock
  erase_set_children erase_set_functionArgs erase_set_initializer
  erase_set_ifBlock erase_set_elseBlock erase_set_symbols
  erase_set_nodeControlStatementId : erase.

Lemma sim_ret {A} (e : A → A) a b : b = e a → sim e (ret b) (ret a).
Proof. by intros -> g. Qed.

Lemma sim_throw {A} (e : A → A) x : sim e (throw x) (throw x).
Proof. by intros g. Qed.

Lemma sim_bind {A B} (e1 : A → A) (e : B → B) (m1 m2 : Gen A)
    (k1 k2 : A → Gen B) :
  sim e1 m1 m2 →
  (∀ g a g', m2 g = Ok (a, g') → sim e (k1 (e1 a)) (k2 a)) →
  sim e (bind m1 k1) (bind m2 k2).
Proof.
  intros Hm Hk g. unfold bind. rewrite Hm.
  destruct (m2 g) as [[a g']|x] eqn:E; cbn; [|reflexivity].
  by apply (Hk g a g').
Qed.

Lemma sim_bind_same {X B} (e : B → B) (m : Gen X) (k1 k2 : X → Gen B) :
  (∀ x, sim e (k1 x) (k2 x)) → sim e (bind m k1) (bind m k2).
Proof.
  intros Hk g. unfold bind.
  destruct (m g) as [[a g']|x]; [apply Hk | reflexivity].
Qed.

Lemma sim_forEach (rec : ASTNode → Gen ASTNode) l :
  Forall (λ x, sim eraseFunctionBodies (rec (eraseFunctionBodies x)) (rec x)) l →
  sim (map eraseFunctionBodies)
      (forEach rec (map eraseFunctionBodies l)) (forEach rec l).
Proof.
  induction 1 as [|x l Hx _ IH]; cbn; [by apply sim_ret|].
  apply (sim_bind eraseFunctionBodies); [exact Hx|]. intros _ x' _ _.
  apply (sim_bind (map eraseFunctionBodies)); [exact IH|]. intros _ l' _ _.
  by apply sim_ret.
Qed.

Lemma sim_walkList (rec : ASTNode → Gen ASTNode) l :
  Forall (λ x, sim eraseFunctionBodies (rec (eraseFunctionBodies x)) (rec x))
         (default [] l) →
  sim (option_map (map eraseFunctionBodies))
      (walkList rec (option_map (map eraseFunctionBodies) l)) (walkList rec l).
Proof.
  destruct l as [l|]; cbn; intros H; [|by apply sim_ret].
  apply (sim_bind (map eraseFunctionBodies)); [by apply sim_forEach|].
  intros _ l' _ _. by apply sim_ret.
Qed.

Lemma sim_walkRequired (rec : ASTNode → Gen ASTNode) x :
  Forall (λ x, sim eraseFunctionBodies (rec (eraseFunctionBodies x)) (rec x))
         (option_list x) →
  sim (option_map eraseFunctionBodies)
      (walkRequired rec (option_map eraseFunctionBodies x)) (walkRequired rec x).
Proof.
  destruct x as [x|]; cbn; intros H; [|by apply sim_throw].
  apply Forall_cons in H as [H _].
  apply (sim_bind eraseFunctionBodies); [exact H|].
  intros _ x' _ _. by apply sim_ret.
Qed.

Lemma sim_walkOptional (rec : ASTNode → Gen ASTNode) x :
  Forall (λ x, sim eraseFunctionBodies (rec (eraseFunctionBodies x)) (rec x))
         (option_list x) →
  sim (option_map eraseFunctionBodies)
      (walkOptional rec (option_map eraseFunctionBodies x)) (walkOptional rec x).
Proof.
  destruct x as [x|]; cbn; intros H; [|by apply sim_ret].
  apply Forall_cons in H as [H _].
  apply (sim_bind eraseFunctionBodies); [exact H|].
  intros _ x' _ _. by apply sim_ret.
Qed.

Lemma sim_subWalks (rec : ASTNode → Gen ASTNode) n :
  Forall (λ x, sim eraseFunctionBodies (rec (eraseFunctionBodies x)) (rec x))
         (subnodes n) →
  simWalks (nodeType n) (subWalks rec (eraseFunctionBodies n)) (subWalks rec n).
Proof.
  unfold subnodes. rewrite !Forall_app.
  intros (Hc & Hb & Hi & Ha & Hib & Heb & Hfa).
  unfold simWalks. split_and!; cbn [subWalks walk_initializer walk_ifBlock
    walk_elseBlock walk_body walk_functionArgs].
  - rewrite erase_initializer. by apply sim_walkOptional.
  - rewrite erase_ifBlock. by apply sim_walkRequired.
  - rewrite erase_elseBlock. by apply sim_walkOptional.
  - intros Hn. rewrite erase_body by done. by apply sim_walkRequired.
  - rewrite erase_functionArgs. by apply sim_walkList.
Qed.

Lemma sim_genArgs sub1 sub2 n :
  sim (option_map (map eraseFunctionBodies))
      (walk_functionArgs sub1) (walk_functionArgs sub2) →
  sim eraseFunctionBodies (genArgs sub1 (eraseFunctionBodies n)) (genArgs sub2 n).
Proof.
  intros H. unfold genArgs. eapply sim_bind; [exact H|].
  intros _ a _ _. apply sim_ret. by rewrite erase_set_functionArgs.
Qed.

Ltac sim_step :=
  autorewrite with erase;
  first
    [ apply sim_throw
    | apply sim_ret; autorewrite with erase; reflexivity
    | apply sim_bind_same; intros ?
    | eapply sim_bind;
      [first [eassumption | by apply sim_genArgs] | intros _ ? _ _; cbv beta] ].

Lemma sim_builtins nt sub1 sub2 fname :
  simWalks nt sub1 sub2 →
  match builtins sub1 fname, builtins sub2 fname with
  | Some b1, Some b2 =>
      ∀ n, sim eraseFunctionBodies (b1 (eraseFunctionBodies n)) (b2 n)
  | None, None => True
  | _, _ => False
  end.
Proof.
  intros (Hi & Hib & Heb & Hb & Hfa). unfold builtins, inheritedMember.
  repeat match goal with
         | |- context [if String.eqb ?a ?b then _ else _] =>
             destruct (String.eqb a b)
         end.
  all: try exact I.
  all: intros n; repeat sim_step.
  rewrite erase_functionArgs.
  destruct (functionArgs n) as [[|a l]|]; cbn [option_map map];
    try apply sim_throw.
  rewrite erase_value. destruct (value a); repeat sim_step.
Qed.

Lemma pre_nodeType sub nt n g n1 g1 :
  runHook (visitors sub nt ≫= pre) n g = Ok (n1, g1) → nodeType n1 = nodeType n.
Proof.
  revert g n1 g1. visitor_cases; intros g n1 g1 H.
  all: inv_M H; try (injection H as <- <-); try reflexivity.
Qed.

Lemma sim_pre nt sub1 sub2 n :
  simWalks nt sub1 sub2 →
  sim eraseFunctionBodies
      (runHook (visitors sub1 nt ≫= pre) (eraseFunctionBodies n))
      (runHook (visitors sub2 nt ≫= pre) n).
Proof.
  intros Hsub. pose proof Hsub as (Hi & Hib & Heb & Hb & Hfa).
  visitor_cases; try (repeat sim_step; fail).
  (* function-call *)
  rewrite erase_name.
  pose proof (sim_builtins nt sub1 sub2 (js_str (name n)) Hsub) as Hbi.
  destruct (builtins sub1 (js_str (name n))), (builtins sub2 (js_str (name n)));
    try done; repeat sim_step.
Qed.

Lemma sim_post nt sub1 sub2 n :
  simWalks nt sub1 sub2 → nodeType n = nt →
  sim eraseFunctionBodies
      (runHook (visitors sub1 nt ≫= post) (eraseFunctionBodies n))
      (runHook (visitors sub2 nt ≫= post) n).
Proof.
  intros Hsub Hnt. pose proof Hsub as (Hi & Hib & Heb & Hb & Hfa).
  visitor_cases; try (repeat first [sim_step | case_match]; fail).
  - (* access-variable *)
    rewrite erase_symbol.
    destruct (symbol n) as [s|]; [destruct (Symbol.isGlobal s)|];
      repeat sim_step.
  - (* assignment-statement *)
    rewrite erase_symbol, erase_symbols.
    destruct (symbol n); [|destruct (symbols n)]; repeat sim_step.
  - (* while-statement *)
    assert (Hfd : nt ≠ "function-declaration").
    { match goal with
      | H : String.eqb nt "while-statement" = true |- _ =>
          apply String.eqb_eq in H; rewrite H; discriminate
      end. }
    rewrite erase_children, erase_nodeControlStatementId.
    destruct (children n) as [c|]; cbn [option_map]; [|apply sim_throw].
    rewrite length_map. apply sim_bind_same; intros _.
    eapply sim_bind; [by apply Hb|]. intros _ b _ _. cbv beta.
    cbn [nodeControlStatementId set_body].
    rewrite erase_nodeControlStatementId.
    do 2 (apply sim_bind_same; intros _).
    apply sim_ret. symmetry. apply erase_set_body. by rewrite Hnt.
  - (* function-call *)
    rewrite erase_name, erase_functionArgs.
    pose proof (sim_builtins nt sub1 sub2 (js_str (name n)) Hsub) as Hbi.
    destruct (builtins sub1 (js_str (name n))),
             (builtins sub2 (js_str (name n))); try done.
    destruct (functionArgs n); cbn [option_map]; rewrite ?length_map;
      repeat sim_step.
Qed.

(** The globals pass does to the generator what it does on the tree
    without the bodies of the function declarations. *)
Lemma internalGenerateCode_erase n :
  sim eraseFunctionBodies
      (internalGenerateCode (eraseFunctionBodies n)) (internalGenerateCode n).
Proof.
  induction n as [n IH] using ASTNode_ind.
  pose proof (sim_subWalks internalGenerateCode n IH) as Hsub.
  assert (Hch : sim (option_map (map eraseFunctionBodies))
                    (walkList internalGenerateCode
                       (children (eraseFunctionBodies n)))
                    (walkList internalGenerateCode (children n))).
  { rewrite erase_children. apply sim_walkList. unfold subnodes in IH.
    by apply Forall_app in IH as [? _]. }
  rewrite (internalGenerateCode_eq (eraseFunctionBodies n)),
    (internalGenerateCode_eq n). cbv zeta. rewrite erase_nodeType.
  eapply sim_bind; [by apply sim_pre|]. intros g n1 g1 Hpre. cbv beta.
  eapply sim_bind; [exact Hch|]. intros _ c _ _. cbv beta.
  rewrite <- erase_set_children. apply sim_post; [exact Hsub|].
  cbn [nodeType set_children]. exact (pre_nodeType _ _ _ _ _ _ Hpre).
Qed.

(** C1: the generator has no visitor for [function-declaration]: walking
    such a node walks its [children] and nothing else, and its [body] is
    never read.  So the walk of a tree does to the generator exactly what
    the walk of the tree without the bodies of its function declarations
    does.  In [generateCode] every line up to [b program_end] is emitted by
    that walk, which the tree without function bodies determines; the
    bodies are generated after [b program_end], one block per collected
    function. *)
Theorem C1_globals_pass_skips_function_bodies :
  (∀ sub, visitors sub "function-declaration" = None) ∧
  (∀ f g, nodeType f = "function-declaration" →
     internalGenerateCode f g
     = (let* c := walkList internalGenerateCode (children f) in
        ret (set_children c f)) g) ∧
  (∀ n g, internalGenerateCode (eraseFunctionBodies n) g
          = mapResult eraseFunctionBodies (internalGenerateCode n g)) ∧
  (∀ MAX_SCRATCH tables ast g ast' g',
     generateCode MAX_SCRATCH tables ast g = Ok (ast', g') →
     let refs := collectFunctions ast [] [] in
     ∃ d0 a1 g1,
       internalGenerateCode (eraseFunctionBodies ast)
         (emit (if decide (0 < length refs)
                then bootstrapLines MAX_SCRATCH else []) d0
               (set_functions refs
                  (set_curFunction None (set_inFunction false g))))
       = Ok (a1, g1) ∧
       match refs with
       | [] => output (codeEmitter g') = output (codeEmitter g1)
       | _ =>
           ∃ blocks,
             Forall2 (λ r blk, ∃ f, lookupNode ast r = Some f ∧
                                    functionBlock tables f blk) refs blocks ∧
             output (codeEmitter g')
             = output (codeEmitter g1) ++
               [Instruction "b program_end" None] ++ concat blocks ++
               [SectionBreak None; Label "program_end" None]
       end).
Proof.
  split_and!.
  - reflexivity.
  - intros f g Hf. rewrite internalGenerateCode_eq. cbv zeta. rewrite Hf.
    reflexivity.
  - exact internalGenerateCode_erase.
  - intros MAX_SCRATCH tables ast g ast' g' H.
    apply generateCode_inv in H as (d0 & ast1 & g1 & Hwalk & H).
    cbv zeta in H |- *.
    pose proof (collectFunctions_paths ast []) as [Hnd Hmem].
    pose proof (internalGenerateCode_keepsFunctions _ _ _ _ Hwalk) as Hkeep.
    exists d0, (eraseFunctionBodies ast1), g1. split.
    { by rewrite internalGenerateCode_erase, Hwalk. }
    set (refs := collectFunctions ast [] []) in *.
    destruct (decide (0 < length refs)) as [Hlen|Hlen].
    + destruct H as (g2 & Hgen & ->).
      apply generateFunctions_inv in Hgen
        as (blocks & Hout2 & Hbl & Hfs2 & Hin2 & _ & _); [|done|done|].
      2:{ intros r (p & f & -> & Hp & Hf)%Hmem.
          destruct (Hkeep p f Hp) as (f' & Hf' & _). by exists f'. }
      destruct refs as [|r0 refs'] eqn:Hrefs; [cbn in Hlen; lia|].
      exists blocks. split.
      * apply Forall2_same_length_lookup. split; [by eapply Forall2_length|].
        intros i r blk Hi Hi'.
        destruct (Forall2_lookup_lr _ _ _ _ _ _ Hbl Hi Hi') as (f1 & Hf1 & Hb1).
        destruct (Hmem r) as [(p & f & -> & Hp & Hf) _];
          [by eapply list_elem_of_lookup_2|].
        destruct (Hkeep p f Hp) as (f' & Hf' & Hc). cbn [app] in Hf1.
        rewrite Hf' in Hf1. injection Hf1 as <-.
        destruct (Hc Hf) as [c ->].
        exists f. split; [done|]. by apply functionBlock_set_children in Hb1.
      * rewrite output_emit, Hout2. cbn [output codeEmitter set_inFunction].
        rewrite output_emit. by rewrite <- !app_assoc.
    + destruct H as [-> ->].
      destruct refs as [|r0 refs']; [done|cbn in Hlen; lia].
Qed.

Lemma C1_globals_pass_skips_function_bodies_witness :
  ∃ ast' g' d0 a1 g1 blocks,
    generateCode 255 sampleTables sampleProgram freshGenerator = Ok (ast', g') ∧
    internalGenerateCode (eraseFunctionBodies sampleProgram)
      (emit (bootstrapLines 255) d0 (set_functions [[0]] freshGenerator))
    = Ok (a1, g1) ∧
    output (codeEmitter g')
    = output (codeEmitter g1) ++
      [Instruction "b program_end" None] ++ concat blocks ++
      [SectionBreak None; Label "program_end" None].
Proof.
  destruct (generateCode 255 sampleTables sampleProgram freshGenerator)
    as [[ast' g']|e] eqn:E; [|vm_compute in E; discriminate].
  destruct C1_globals_pass_skips_function_bodies as (_ & _ & _ & H).
  destruct (H 255 sampleTables sampleProgram freshGenerator ast' g' E)
    as (d0 & a1 & g1 & Hwalk & Hout).
  change (collectFunctions sampleProgram [] []) with [[0]] in Hwalk, Hout.
  destruct Hout as (blocks & _ & Hout).
  exists ast', g', d0, a1, g1, blocks.
  split; [reflexivity|]. split; [exact Hwalk | exact Hout].
Defined.
